(** * A shallow embedding of the mini Pascal interpreter (interpreter.py)

    The development follows the four stages of the program: the lexer,
    the recursive-descent parser, the semantic analyzer and the
    tree-walking interpreter, and then states the properties of the
    pipeline.

    Conventions.
    - Characters of the source text are code points below 256 ([ascii]);
      the Python string predicates are given on that range.
    - Python integers are [Z]; Python floats are binary64 values in the
      sense of [SpecFloat] (precision 53, exponent bound 1024).
    - Every Python loop and every recursion is a fixpoint on a fuel
      argument; [Timeout] marks exhausted fuel.  Python's own recursion
      limit is not modelled: nothing is stated about what a run does
      when it reaches that limit, and of a recursion that has no end
      only that it does not return.
    - Of the options of the command line only [--stack] is modelled.
      The options [--lexer], [--scope], [--visitor] and [--mips], which
      make the program print further lines, are off, as they are by
      default; every statement about what is printed is about such
      runs.
    - [int()] is taken without the interpreter-configurable limit on the
      number of digits. *)

From Stdlib Require Import ZArith List String Ascii Bool Lia.
From Stdlib Require Import Floats.SpecFloat.
Import ListNotations.

Set Warnings "-register-all".

Local Open Scope string_scope.
Local Open Scope list_scope.

(* ------------------------------------------------------------------ *)
(** * Token types *)

Inductive ErrorCode := UNEXPECTED_TOKEN | ID_NOT_FOUND | DUPLICATE_ID.

Module TokenType.
Inductive t :=
  (* single-character token types *)
  | PLUS | MINUS | MUL | FLOAT_DIV | LPAREN | RPAREN | SEMI | DOT | COLON
  | COMMA | LESS | LESSEQUAL | NOTEQUAL | GREATER | GREATEREQUAL | EQUAL
  | LBRACK | RBRACK | QUOTE
  (* block of reserved words *)
  | PROGRAM | INTEGER | REAL | CHAR | INTEGER_DIV | VAR | PROCEDURE | BEGIN
  | AND | ARRAY | MOD | DO | ELSE | IF | NOT | OF | OR | ORD | READ | READLN
  | THEN | WHILE | WRITE | WRITELN | END
  (* misc *)
  | ID | INTEGER_CONST | REAL_CONST | STRING_CONST | CHAR_CONST | ASSIGN
  | EOF.

Definition eq_dec (a b : t) : {a = b} + {a <> b}.
Proof. decide equality. Defined.

Definition eqb (a b : t) : bool :=
  if eq_dec a b then true else false.

(** The value of each enumeration member. *)
Definition value (t : t) : string :=
  match t with
  | PLUS => "+" | MINUS => "-" | MUL => "*" | FLOAT_DIV => "/"
  | LPAREN => "(" | RPAREN => ")" | SEMI => ";" | DOT => "." | COLON => ":"
  | COMMA => "," | LESS => "<" | LESSEQUAL => "<=" | NOTEQUAL => "<>"
  | GREATER => ">" | GREATEREQUAL => ">=" | EQUAL => "=" | LBRACK => "["
  | RBRACK => "]" | QUOTE => "'"
  | PROGRAM => "PROGRAM" | INTEGER => "INTEGER" | REAL => "REAL"
  | CHAR => "CHAR" | INTEGER_DIV => "DIV" | VAR => "VAR"
  | PROCEDURE => "PROCEDURE" | BEGIN => "BEGIN" | AND => "AND"
  | ARRAY => "ARRAY" | MOD => "MOD" | DO => "DO" | ELSE => "ELSE" | IF => "IF"
  | NOT => "NOT" | OF => "OF" | OR => "OR" | ORD => "ORD" | READ => "READ"
  | READLN => "READLN" | THEN => "THEN" | WHILE => "WHILE" | WRITE => "WRITE"
  | WRITELN => "WRITELN" | END => "END"
  | ID => "ID" | INTEGER_CONST => "INTEGER_CONST" | REAL_CONST => "REAL_CONST"
  | STRING_CONST => "STRING_CONST" | CHAR_CONST => "CHAR_CONST"
  | ASSIGN => ":=" | EOF => "EOF"
  end.

(** The name of each enumeration member (the attribute [.name]). *)
Definition name (t : t) : string :=
  match t with
  | PLUS => "PLUS" | MINUS => "MINUS" | MUL => "MUL"
  | FLOAT_DIV => "FLOAT_DIV" | LPAREN => "LPAREN" | RPAREN => "RPAREN"
  | SEMI => "SEMI" | DOT => "DOT" | COLON => "COLON" | COMMA => "COMMA"
  | LESS => "LESS" | LESSEQUAL => "LESSEQUAL" | NOTEQUAL => "NOTEQUAL"
  | GREATER => "GREATER" | GREATEREQUAL => "GREATEREQUAL" | EQUAL => "EQUAL"
  | LBRACK => "LBRACK" | RBRACK => "RBRACK" | QUOTE => "QUOTE"
  | INTEGER_DIV => "INTEGER_DIV" | ASSIGN => "ASSIGN"
  | t => value t
  end.

Definition members : list t :=
  [PLUS; MINUS; MUL; FLOAT_DIV; LPAREN; RPAREN; SEMI; DOT; COLON; COMMA; LESS;
   LESSEQUAL; NOTEQUAL; GREATER; GREATEREQUAL; EQUAL; LBRACK; RBRACK; QUOTE;
   PROGRAM; INTEGER; REAL; CHAR; INTEGER_DIV; VAR; PROCEDURE; BEGIN; AND;
   ARRAY; MOD; DO; ELSE; IF; NOT; OF; OR; ORD; READ; READLN; THEN; WHILE;
   WRITE; WRITELN; END;
   ID; INTEGER_CONST; REAL_CONST; STRING_CONST; CHAR_CONST; ASSIGN; EOF].

(** [t(v)]: the member whose value is [v], if any. *)
Definition of_value (v : string) : option t :=
  find (fun t => String.eqb (value t) v) members.
End TokenType.

(** [_build_reserved_keywords]: the members from PROGRAM to END. *)
Definition RESERVED_KEYWORDS : list (string * TokenType.t) :=
  map (fun t => (TokenType.value t, t))
    [TokenType.PROGRAM; TokenType.INTEGER; TokenType.REAL; TokenType.CHAR; TokenType.INTEGER_DIV; TokenType.VAR; TokenType.PROCEDURE; TokenType.BEGIN; TokenType.AND;
     TokenType.ARRAY; TokenType.MOD; TokenType.DO; TokenType.ELSE; TokenType.IF; TokenType.NOT; TokenType.OF; TokenType.OR; TokenType.ORD; TokenType.READ; TokenType.READLN; TokenType.THEN; TokenType.WHILE;
     TokenType.WRITE; TokenType.WRITELN; TokenType.END].

Fixpoint RESERVED_KEYWORDS_get (l : list (string * TokenType.t)) (k : string)
  : option TokenType.t :=
  match l with
  | [] => None
  | (k', t) :: l' => if String.eqb k' k then Some t
                     else RESERVED_KEYWORDS_get l' k
  end.

(* ------------------------------------------------------------------ *)
(** * Python values, tokens and exceptions *)

Inductive pyval :=
  | VNone
  | VInt (z : Z)
  | VFloat (f : spec_float)
  | VStr (s : string)
  | VEnum (t : TokenType.t).

Module Token.
Record t := mk { type : TokenType.t; value : pyval;
                 lineno : option nat; column : option nat }.
End Token.

Inductive exn :=
  | LexerError (lexeme : option ascii) (lineno column : nat)
  | ParserError (error_code : ErrorCode) (token : Token.t)
  | SemanticError (error_code : ErrorCode) (token : Token.t)
  | PyException (message : string)
  | AttributeError (attribute : string)
  | TypeError
  | ValueError
  | ZeroDivisionError
  | OverflowError
  | IndexError
  | NameError (name : string)
  | UnboundLocalError (name : string).

(** Pure fallible operations. *)
Inductive result (A : Type) :=
  | Ok (a : A)
  | Err (e : exn).
Arguments Ok {A} a.
Arguments Err {A} e.

Definition rbind {A B} (r : result A) (k : A -> result B) : result B :=
  match r with Ok a => k a | Err e => Err e end.

Declare Scope result_scope.
Delimit Scope result_scope with result.
Notation "'let?' x ':=' r 'in' k" := (rbind r (fun x => k))
  (at level 10, x pattern, r at level 100, k at level 200) : result_scope.

(* ------------------------------------------------------------------ *)
(** * The Python operations the program relies on *)

Module Py.
Local Open Scope Z_scope.
Local Open Scope result_scope.

(** ** Characters *)

Definition ord (c : ascii) : Z := Z.of_N (N_of_ascii c).

Definition in_range (c : ascii) (lo hi : Z) : bool :=
  (lo <=? ord c) && (ord c <=? hi).

(** [str.isspace], [str.isdigit], [str.isalpha] and [str.isalnum] on
    one character. *)
Definition isspace (c : ascii) : bool :=
  in_range c 9 13 || in_range c 28 32 || in_range c 133 133
  || in_range c 160 160.

Definition is_ascii_digit (c : ascii) : bool := in_range c 48 57.

Definition isdigit (c : ascii) : bool :=
  is_ascii_digit c || in_range c 178 179 || in_range c 185 185.

Definition isalpha (c : ascii) : bool :=
  in_range c 65 90 || in_range c 97 122 || in_range c 170 170
  || in_range c 181 181 || in_range c 186 186 || in_range c 192 214
  || in_range c 216 246 || in_range c 248 255.

Definition isalnum (c : ascii) : bool :=
  isalpha c || isdigit c || in_range c 188 190.

(** [str.upper] restricted to what the keyword table can observe: the
    lower-case letters a-z are mapped to A-Z.  The other characters
    below 256 are mapped by Python to characters outside A-Z (or to
    themselves), so whether the result is a reserved word is the same. *)
Definition upper_char (c : ascii) : ascii :=
  if in_range c 97 122 then ascii_of_N (N_of_ascii c - 32) else c.

Fixpoint upper (s : string) : string :=
  match s with
  | EmptyString => EmptyString
  | String c s' => String (upper_char c) (upper s')
  end.

(** ** Floats *)

Definition prec : Z := 53.
Definition emax : Z := 1024.

Definition fadd := SFadd prec emax.
Definition fsub := SFsub prec emax.
Definition fmul := SFmul prec emax.
Definition fdiv := SFdiv prec emax.
Definition fone : spec_float := binary_normalize prec emax 1 0 false.
Definition fhalf : spec_float := binary_normalize prec emax 1 (-1) false.

Definition is_zero (f : spec_float) : bool :=
  match f with S754_zero _ => true | _ => false end.

Definition sign_bit (f : spec_float) : bool :=
  match f with
  | S754_zero s | S754_infinity s | S754_finite s _ _ => s
  | S754_nan => false
  end.

(** [float(n)] for an integer [n]: rounded to nearest-even, and an
    OverflowError when the integer is too large. *)
Definition float_of_int (z : Z) : result spec_float :=
  match binary_normalize prec emax z 0 false with
  | S754_infinity _ => Err OverflowError
  | f => Ok f
  end.

(** C's [fmod], which is exact. *)
Definition fmod (x y : spec_float) : spec_float :=
  match x, y with
  | S754_nan, _ | _, S754_nan => S754_nan
  | S754_infinity _, _ => S754_nan
  | _, S754_zero _ => S754_nan
  | _, S754_infinity _ => x
  | S754_zero _, _ => x
  | S754_finite sx mx ex, S754_finite _ my ey =>
      let e := Z.min ex ey in
      let r := (Z.pos mx * 2 ^ (ex - e)) mod (Z.pos my * 2 ^ (ey - e)) in
      binary_normalize prec emax (cond_Zopp sx r) e sx
  end.

(** C's [floor]. *)
Definition floor (x : spec_float) : spec_float :=
  match x with
  | S754_finite s m e =>
      if 0 <=? e then x
      else binary_normalize prec emax
             (Z.shiftr (cond_Zopp s (Z.pos m)) (- e)) 0 false
  | _ => x
  end.

(** [float_floor_div] of CPython (the quotient part of [float_divmod]). *)
Definition float_floordiv (vx wx : spec_float) : result spec_float :=
  if is_zero wx then Err ZeroDivisionError else
  let md := fmod vx wx in
  let div := fdiv (fsub vx md) wx in
  let div :=
    if negb (is_zero md)
    then if negb (Bool.eqb (SFltb wx (S754_zero false))
                           (SFltb md (S754_zero false)))
         then fsub div fone else div
    else div in
  if negb (is_zero div)
  then let fl := floor div in
       Ok (if SFltb fhalf (fsub div fl) then fadd fl fone else fl)
  else Ok (S754_zero (sign_bit (fdiv vx wx))).

(** Exact comparison of an integer with a float. *)
Definition cmp_int_float (a : Z) (f : spec_float) : option comparison :=
  match f with
  | S754_nan => None
  | S754_infinity s => Some (if s then Gt else Lt)
  | S754_zero _ => Some (a ?= 0)
  | S754_finite s m e =>
      let v := cond_Zopp s (Z.pos m) in
      if 0 <=? e then Some (a ?= v * 2 ^ e)
      else Some (a * 2 ^ (- e) ?= v)
  end.

(** The three-way comparison behind [==] and the ordering operators;
    [None] inside [Ok] is the unordered case (a NaN), and the result is
    an error when the operands cannot be ordered at all. *)
Definition compare (a b : pyval) : result (option comparison) :=
  match a, b with
  | VInt x, VInt y => Ok (Some (x ?= y))
  | VInt x, VFloat g => Ok (cmp_int_float x g)
  | VFloat f, VInt y => Ok (option_map CompOpp (cmp_int_float y f))
  | VFloat f, VFloat g => Ok (SFcompare f g)
  | VStr s, VStr t => Ok (Some (String.compare s t))
  | _, _ => Err TypeError
  end.

(** [a == b]; it never raises. *)
Definition eq (a b : pyval) : bool :=
  match a, b with
  | VNone, VNone => true
  | VEnum t, VEnum u => TokenType.eqb t u
  | _, _ => match compare a b with
            | Ok (Some Eq) => true
            | _ => false
            end
  end.

Definition ordering (test : comparison -> bool) (a b : pyval)
  : result bool :=
  let? c := compare a b in
  Ok (match c with Some c => test c | None => false end).

Definition lt := ordering (fun c => match c with Lt => true | _ => false end).
Definition le := ordering (fun c => match c with Gt => false | _ => true end).
Definition gt := ordering (fun c => match c with Gt => true | _ => false end).
Definition ge := ordering (fun c => match c with Lt => false | _ => true end).

(** ** Arithmetic *)

(** The numeric tower of a binary operator: integers stay integers, a
    float operand promotes the other one. *)
Definition numeric (fi : Z -> Z -> result pyval)
    (ff : spec_float -> spec_float -> result pyval) (a b : pyval)
  : result pyval :=
  match a, b with
  | VInt x, VInt y => fi x y
  | VInt x, VFloat g => let? f := float_of_int x in ff f g
  | VFloat f, VInt y => let? g := float_of_int y in ff f g
  | VFloat f, VFloat g => ff f g
  | _, _ => Err TypeError
  end.

(** [s * n] for a string. *)
Definition str_repeat (s : string) (n : Z) : string :=
  Nat.iter (Z.to_nat n) (String.append s) EmptyString.

Definition add (a b : pyval) : result pyval :=
  match a, b with
  | VStr s, VStr t => Ok (VStr (s ++ t))
  | _, _ => numeric (fun x y => Ok (VInt (x + y)))
                    (fun f g => Ok (VFloat (fadd f g))) a b
  end.

Definition sub : pyval -> pyval -> result pyval :=
  numeric (fun x y => Ok (VInt (x - y)))
          (fun f g => Ok (VFloat (fsub f g))).

Definition mul (a b : pyval) : result pyval :=
  match a, b with
  | VStr s, VInt n | VInt n, VStr s => Ok (VStr (str_repeat s n))
  | _, _ => numeric (fun x y => Ok (VInt (x * y)))
                    (fun f g => Ok (VFloat (fmul f g))) a b
  end.

(** [a // b]: the floor of the quotient. *)
Definition floordiv : pyval -> pyval -> result pyval :=
  numeric (fun x y => if y =? 0 then Err ZeroDivisionError
                      else Ok (VInt (x / y)))
          (fun f g => let? q := float_floordiv f g in Ok (VFloat q)).

(** [a / b] on two floats. *)
Definition truediv (f g : spec_float) : result pyval :=
  if is_zero g then Err ZeroDivisionError else Ok (VFloat (fdiv f g)).

Definition pos (a : pyval) : result pyval :=
  match a with
  | VInt _ | VFloat _ => Ok a
  | _ => Err TypeError
  end.

Definition neg (a : pyval) : result pyval :=
  match a with
  | VInt x => Ok (VInt (- x))
  | VFloat f => Ok (VFloat (SFopp f))
  | _ => Err TypeError
  end.

(** ** Conversions from strings *)

Fixpoint digits_value (acc : Z) (l : list ascii) : Z :=
  match l with
  | [] => acc
  | c :: l' => digits_value (10 * acc + (ord c - 48)) l'
  end.

(** [int(s)], for the strings the lexer passes to it: runs of
    characters that satisfy [isdigit].  Only the digits 0-9 are decimal
    digits; the superscript digits make [int] fail. *)
Definition int_of_str (s : string) : result Z :=
  match list_ascii_of_string s with
  | [] => Err ValueError
  | l => if forallb is_ascii_digit l then Ok (digits_value 0 l)
         else Err ValueError
  end.

Fixpoint span (p : ascii -> bool) (l : list ascii)
  : list ascii * list ascii :=
  match l with
  | c :: l' => if p c then let (a, b) := span p l' in (c :: a, b)
               else ([], l)
  | [] => ([], [])
  end.

Definition c_isspace (c : ascii) : bool :=
  in_range c 9 13 || in_range c 32 32.

Fixpoint lstrip (l : list ascii) : list ascii :=
  match l with
  | c :: l' => if c_isspace c then lstrip l' else l
  | [] => []
  end.

Definition strip (l : list ascii) : list ascii :=
  rev (lstrip (rev (lstrip l))).

(** The two spaces above 127 are turned into blanks before parsing. *)
Definition space_to_ascii (c : ascii) : ascii :=
  if in_range c 133 133 || in_range c 160 160 then " "%char else c.

(** Underscores may only stand between two digits; they are dropped. *)
Fixpoint drop_underscores (prev : option ascii) (l : list ascii)
  : option (list ascii) :=
  let prev_digit :=
    match prev with Some p => is_ascii_digit p | None => false end in
  let prev_underscore :=
    match prev with Some p => Ascii.eqb p "_" | None => false end in
  match l with
  | [] => if prev_underscore then None else Some []
  | c :: l' =>
      if Ascii.eqb c "_"
      then if prev_digit then drop_underscores (Some c) l' else None
      else if prev_underscore && negb (is_ascii_digit c) then None
      else option_map (cons c) (drop_underscores (Some c) l')
  end.

Definition take_sign (l : list ascii) : bool * list ascii :=
  match l with
  | "+"%char :: r => (false, r)
  | "-"%char :: r => (true, r)
  | _ => (false, l)
  end.

Definition lower_char (c : ascii) : ascii :=
  if in_range c 65 90 then ascii_of_N (N_of_ascii c + 32) else c.

(** The float nearest to [m * 10 ^ e10], ties to even. *)
Definition float_of_decimal (s : bool) (m e10 : Z) : spec_float :=
  if m =? 0 then S754_zero s
  else if 0 <=? e10
       then binary_normalize prec emax (cond_Zopp s (m * 10 ^ e10)) 0 s
       else let '(q, e, l) :=
              SFdiv_core_binary prec emax m 0 (10 ^ (- e10)) 0 in
            binary_round_aux prec emax s q e l.

Definition parse_exponent (l : list ascii) : option Z :=
  match l with
  | [] => Some 0
  | c :: r =>
      if Ascii.eqb (lower_char c) "e"
      then let (s, r) := take_sign r in
           let (ds, rest) := span is_ascii_digit r in
           match ds, rest with
           | _ :: _, [] => Some (cond_Zopp s (digits_value 0 ds))
           | _, _ => None
           end
      else None
  end.

(** [float(s)] for a string. *)
Definition float_of_str (s : string) : result spec_float :=
  let l := strip (map space_to_ascii (list_ascii_of_string s)) in
  match drop_underscores None l with
  | None => Err ValueError
  | Some l =>
      let (sg, r) := take_sign l in
      let word := string_of_list_ascii (map lower_char r) in
      if String.eqb word "inf" || String.eqb word "infinity"
      then Ok (S754_infinity sg)
      else if String.eqb word "nan" then Ok S754_nan
      else
        let (ip, r1) := span is_ascii_digit r in
        let (fp, r2) :=
          match r1 with
          | "."%char :: r => span is_ascii_digit r
          | _ => ([], r1)
          end in
        match ip ++ fp, parse_exponent r2 with
        | _ :: _, Some e =>
            Ok (float_of_decimal sg (digits_value 0 (ip ++ fp))
                  (e - Z.of_nat (List.length fp)))
        | _, _ => Err ValueError
        end
  end.

(** [float(v)]. *)
Definition float (v : pyval) : result spec_float :=
  match v with
  | VInt z => float_of_int z
  | VFloat f => Ok f
  | VStr s => float_of_str s
  | VNone | VEnum _ => Err TypeError
  end.
End Py.

(* ------------------------------------------------------------------ *)
(** * Stateful computations

    A method of an object with mutable fields is a function from the
    state of the object to an outcome: a returned value, a raised
    exception or exhausted fuel, each with the state reached. *)

Inductive outcome (S A : Type) :=
  | Return (a : A) (s : S)
  | Raised (e : exn) (s : S)
  | Timeout (s : S).
Arguments Return {S A} a s.
Arguments Raised {S A} e s.
Arguments Timeout {S A} s.

Definition M (S A : Type) := S -> outcome S A.

Definition ret {S A} (a : A) : M S A := fun s => Return a s.

Definition bind {S A B} (c : M S A) (k : A -> M S B) : M S B :=
  fun s => match c s with
           | Return a s' => k a s'
           | Raised e s' => Raised e s'
           | Timeout s' => Timeout s'
           end.

Definition raise {S A} (e : exn) : M S A := fun s => Raised e s.

Definition lift {S A} (r : result A) : M S A :=
  fun s => match r with Ok a => Return a s | Err e => Raised e s end.

Definition gets {S A} (f : S -> A) : M S A := fun s => Return (f s) s.

Definition modify {S} (f : S -> S) : M S unit := fun s => Return tt (f s).

(** Running a computation on a component of the state. *)
Definition zoom {S T A} (proj : S -> T) (upd : T -> S -> S) (c : M T A)
  : M S A :=
  fun s => match c (proj s) with
           | Return a t => Return a (upd t s)
           | Raised e t => Raised e (upd t s)
           | Timeout t => Timeout (upd t s)
           end.

Declare Scope monad_scope.
Delimit Scope monad_scope with monad.
Notation "x <- c ;; k" := (bind c (fun x => k))
  (at level 61, c at next level, right associativity) : monad_scope.
Notation "' p <- c ;; k" := (bind c (fun x => let 'p := x in k))
  (at level 61, p pattern, c at next level, right associativity)
  : monad_scope.
Notation "c ;; k" := (bind c (fun _ => k))
  (at level 61, right associativity) : monad_scope.

(** [while cond: body], with one unit of fuel for each iteration. *)
Fixpoint while {S} (fuel : nat) (cond : S -> bool) (body : M S unit)
  : M S unit :=
  fun s =>
    if cond s then
      match fuel with
      | O => Timeout s
      | Datatypes.S fuel' => bind body (fun _ => while fuel' cond body) s
      end
    else Return tt s.

(* ------------------------------------------------------------------ *)
(** * Lexer *)

Module Lexer.
Local Open Scope monad_scope.

Record t := mk {
  quote_count : nat;
  text : string;
  pos : nat;            (* index into [text] *)
  current_char : option ascii;
  lineno : nat;
  column : nat }.

(** [Lexer(text)]; indexing an empty text fails. *)
Definition __init__ (text : string) : result t :=
  match String.get 0 text with
  | Some c => Ok (mk 0 text 0 (Some c) 1 1)
  | None => Err IndexError
  end.

Definition error {A} : M t A :=
  fun lx => Raised (LexerError (current_char lx) (lineno lx) (column lx)) lx.

Definition is_char (c : ascii) (o : option ascii) : bool :=
  match o with Some d => Ascii.eqb d c | None => false end.

Definition newline : ascii := ascii_of_nat 10.

(** Advance the [pos] pointer and set the [current_char] variable. *)
Definition advance (lx : t) : t :=
  let nl := is_char newline (current_char lx) in
  let lineno' := if nl then S (lineno lx) else lineno lx in
  let column' := if nl then 0 else column lx in
  let pos' := S (pos lx) in
  if Nat.leb (String.length (text lx)) pos'
  then mk (quote_count lx) (text lx) pos' None lineno' column'
  else mk (quote_count lx) (text lx) pos' (String.get pos' (text lx))
          lineno' (S column').

Definition look_at_next_char (lx : t) : option ascii :=
  let p := S (pos lx) in
  if Nat.leb (String.length (text lx)) p then None else String.get p (text lx).

Definition current_is (p : ascii -> bool) (lx : t) : bool :=
  match current_char lx with Some c => p c | None => false end.

Definition skip_whitespace (fuel : nat) : M t unit :=
  while fuel (current_is Py.isspace) (modify advance).

Definition skip_comment (fuel : nat) : M t unit :=
  while fuel (fun lx => negb (is_char "}" (current_char lx)))
    (modify advance) ;;
  modify advance.  (* for the closing curly brace *)

(** The loop [while current_char is not None and p(current_char):
    result += current_char; advance()]. *)
Fixpoint scan (fuel : nat) (p : ascii -> bool) (result : string)
  : M t string :=
  fun lx =>
    match current_char lx with
    | Some c =>
        if p c then
          match fuel with
          | O => Timeout lx
          | S fuel' => scan fuel' p (result ++ String c "") (advance lx)
          end
        else Return result lx
    | None => Return result lx
    end.

Definition new_token (ty : TokenType.t) (v : pyval) (lx : t) : Token.t :=
  Token.mk ty v (Some (lineno lx)) (Some (column lx)).

(** Return a (multidigit) integer or float consumed from the input. *)
Definition number (fuel : nat) : M t Token.t :=
  fun lx0 =>
    (result <- scan fuel Py.isdigit "" ;;
     dot <- gets (fun lx => is_char "." (current_char lx)
                            && negb (is_char "." (look_at_next_char lx))) ;;
     if dot : bool then
       modify advance ;;
       result <- scan fuel Py.isdigit (result ++ ".") ;;
       f <- lift (Py.float_of_str result) ;;
       ret (new_token TokenType.REAL_CONST (VFloat f) lx0)
     else
       n <- lift (Py.int_of_str result) ;;
       ret (new_token TokenType.INTEGER_CONST (VInt n) lx0)) lx0.

(** Handles building strings; nothing is returned when the input ends
    before the closing quote. *)
Definition string_builder (fuel : nat) : M t (option Token.t) :=
  fun lx0 =>
    (result <- scan fuel (fun c => negb (Ascii.eqb c "'")) "" ;;
     closed <- gets (fun lx => is_char "'" (current_char lx)) ;;
     if closed : bool then
       modify advance ;;
       modify (fun lx => mk 0 (text lx) (pos lx) (current_char lx)
                            (lineno lx) (column lx)) ;;
       ret (Some (new_token TokenType.STRING_CONST (VStr result) lx0))
     else ret None) lx0.

(** Handle identifiers and reserved keywords. *)
Definition _id (fuel : nat) : M t Token.t :=
  fun lx0 =>
    (value <- scan fuel Py.isalnum "" ;;
     match RESERVED_KEYWORDS_get RESERVED_KEYWORDS (Py.upper value) with
     | None => ret (new_token TokenType.ID (VStr value) lx0)
     | Some token_type =>
         ret (new_token token_type (VStr (Py.upper value)) lx0)
     end) lx0.

Definition EOF_token : Token.t := Token.mk TokenType.EOF VNone None None.

Fixpoint get_next_token (fuel : nat) : M t (option Token.t) :=
  fun lx =>
    match current_char lx with
    | None => Return (Some EOF_token) lx
    | Some c =>
        match fuel with
        | O => Timeout lx
        | S fuel' =>
            if Ascii.eqb c ":" && is_char "=" (look_at_next_char lx) then
              Return (Some (new_token TokenType.ASSIGN (VStr ":=") lx))
                     (advance (advance lx))
            else if Py.isspace c then
              (skip_whitespace fuel' ;; get_next_token fuel') lx
            else if Ascii.eqb c "'" then
              (modify advance ;;
               modify (fun lx => mk 1 (text lx) (pos lx) (current_char lx)
                                    (lineno lx) (column lx)) ;;
               string_builder fuel') lx
            else if Ascii.eqb c "{" then
              (modify advance ;; skip_comment fuel' ;;
               get_next_token fuel') lx
            else if Py.isalpha c then
              (tok <- _id fuel' ;; ret (Some tok)) lx
            else if Py.isdigit c then
              (tok <- number fuel' ;; ret (Some tok)) lx
            else
              (* for single-character token *)
              match TokenType.of_value (String c "") with
              | None => error lx
              | Some token_type =>
                  Return (Some (new_token token_type
                                  (VStr (TokenType.value token_type)) lx))
                         (advance lx)
              end
        end
    end.

(** All the tokens up to and including EOF (for stating properties of
    the token stream; the parser pulls tokens one at a time). *)
Fixpoint tokens (fuel : nat) (lx : t) : outcome t (list (option Token.t)) :=
  match fuel with
  | O => Timeout lx
  | S fuel' =>
      match get_next_token fuel' lx with
      | Return (Some tok) lx' =>
          if TokenType.eqb (Token.type tok) TokenType.EOF then Return [Some tok] lx'
          else match tokens fuel' lx' with
               | Return l lx'' => Return (Some tok :: l) lx''
               | o => o
               end
      | Return None lx' =>
          match tokens fuel' lx' with
          | Return l lx'' => Return (None :: l) lx''
          | o => o
          end
      | Raised e lx' => Raised e lx'
      | Timeout lx' => Timeout lx'
      end
  end.
End Lexer.

(* ------------------------------------------------------------------ *)
(** * Dictionaries

    A Python dictionary keyed by hashable values, in insertion order.
    Two keys are the same key when they compare equal with [==]. *)

Module Dict.
Definition t (V : Type) := list (pyval * V).

Definition empty {V} : t V := [].

Fixpoint get {V} (d : t V) (k : pyval) : option V :=
  match d with
  | [] => None
  | (k', v) :: d' => if Py.eq k' k then Some v else get d' k
  end.

(** [d[k] = v]: the value of an existing key is replaced in place, a
    new key goes to the end. *)
Fixpoint set {V} (d : t V) (k : pyval) (v : V) : t V :=
  match d with
  | [] => [(k, v)]
  | (k', v') :: d' => if Py.eq k' k then (k', v) :: d'
                      else (k', v') :: set d' k v
  end.
End Dict.

(* ------------------------------------------------------------------ *)
(** * Symbols

    A procedure symbol is a mutable object: the analyzer appends to its
    parameters and sets its body after the symbol has been stored in a
    table and on call nodes.  Its parameters and body are therefore kept
    in a store, and the symbol holds their address [ref] next to its
    name.  The other symbols never change once built. *)

Inductive Symbol :=
  | VarSymbol (name : pyval) (type : option Symbol)
  | BuiltinTypeSymbol (name : string)
  | ProcedureSymbol (name : pyval) (ref : nat)
  | IF_Symbol (name : TokenType.t)
  | EnumMember (member : TokenType.t).  (* [insert(op)] stores the member *)

(* ------------------------------------------------------------------ *)
(** * Abstract syntax tree

    The node classes are grouped by the positions in which the parser
    builds them: expressions, statements, declarations and blocks. *)

Inductive Expr :=
  | BinOp (left : Expr) (op : Token.t) (right : Expr)
  | Num (token : Token.t)
  | Str (token : Token.t)
  | UnaryOp (op : Token.t) (expr : Expr)
  | Var (token : Token.t).

Inductive TypeNode :=
  | Type_ (token : Token.t)
  | Array (start end_ : pyval) (value : pyval).

Inductive ParamNode :=
  | Param (var_node : Expr) (type_node : TypeNode).

Inductive RelationNode :=
  | Relation (left : Expr) (token : Token.t) (right : Expr).

Inductive Stmt :=
  | Compound (children : list Stmt)
  | Assign (left : Expr) (op : Token.t) (right : Expr)
  | NoOp
  | ProcedureCall (proc_name : pyval) (actual_params : list Expr)
      (token : Token.t) (proc_symbol : option Symbol)
  | IfStatement (name : TokenType.t) (expr : RelationNode) (statement : Stmt)
      (elseStatement : option Stmt)
  | WhileStatement (name : TokenType.t) (expr : RelationNode) (statement : Stmt)
  | READ (op : TokenType.t) (value : list (Token.t + ParamNode))
  | WRITE (op : TokenType.t) (value : pyval).

Inductive Decl :=
  | VarDecl (var_node : Expr) (type_node : TypeNode)
  | ProcedureDecl (proc_name : pyval) (formal_params : list ParamNode)
      (block_node : BlockNode)
with BlockNode :=
  | Block (declarations : list Decl) (compound_statement : Stmt).

Inductive ProgramNode :=
  | Program (name : pyval) (block : BlockNode).

(** The attributes [.value] and [.token] of an expression node.  BinOp
    and UnaryOp nodes have no attribute [value]. *)
Definition Expr_value (e : Expr) : result pyval :=
  match e with
  | Num token | Str token | Var token => Ok (Token.value token)
  | BinOp _ _ _ | UnaryOp _ _ => Err (AttributeError "value")
  end.

Definition Expr_token (e : Expr) : Token.t :=
  match e with
  | Num token | Str token | Var token => token
  | BinOp _ op _ | UnaryOp op _ => op
  end.

Definition TypeNode_value (n : TypeNode) : pyval :=
  match n with
  | Type_ token => Token.value token
  | Array _ _ value => value
  end.

(* ------------------------------------------------------------------ *)
(** * Parser *)

Definition timeout {S A} : M S A := fun s => Timeout s.

Module Parser.
Local Open Scope monad_scope.

Record t := mk { lexer : Lexer.t; current_token : option Token.t }.

Definition get_next_token (fuel : nat) : M t (option Token.t) :=
  zoom lexer (fun lx p => mk lx (current_token p))
    (Lexer.get_next_token fuel).

(** [Parser(lexer)]: the current token is the first token taken from
    the input. *)
Definition __init__ (fuel : nat) (lexer : Lexer.t) : outcome t unit :=
  (tok <- get_next_token fuel ;;
   modify (fun p => mk (Parser.lexer p) tok)) (mk lexer None).

Definition error {A} (error_code : ErrorCode) (token : Token.t) : M t A :=
  raise (ParserError error_code token).

(** [self.current_token], about to be asked for [attribute]: when the
    lexer returned nothing, the access fails. *)
Definition the_token (attribute : string) : M t Token.t :=
  fun p => match current_token p with
           | Some tok => Return tok p
           | None => Raised (AttributeError attribute) p
           end.

Definition current_type : M t TokenType.t :=
  tok <- the_token "type" ;; ret (Token.type tok).

Definition type_is (token_type : TokenType.t) : M t bool :=
  ty <- current_type ;; ret (TokenType.eqb ty token_type).

(** Consume the current token if its type matches and move to the next
    token. *)
Definition eat (fuel : nat) (token_type : TokenType.t) : M t unit :=
  tok <- the_token "type" ;;
  if TokenType.eqb (Token.type tok) token_type then
    next <- get_next_token fuel ;;
    modify (fun p => mk (lexer p) next)
  else error UNEXPECTED_TOKEN tok.

(** variable : ID *)
Definition variable (fuel : nat) : M t Expr :=
  tok <- the_token "value" ;;
  eat fuel TokenType.ID ;;
  ret (Var tok).

(** An empty production. *)
Definition empty : M t Stmt := ret NoOp.

(** expr : term ((PLUS | MINUS) term)*
    term : factor ((MUL | INTEGER_DIV | FLOAT_DIV) factor)*
    factor : PLUS factor | MINUS factor | INTEGER_CONST | REAL_CONST
           | LPAREN expr RPAREN | STRING_CONST | variable *)
Fixpoint expr (fuel : nat) : M t Expr :=
  match fuel with
  | O => timeout
  | S fuel' => node <- term fuel' ;; expr_loop fuel' node
  end
with expr_loop (fuel : nat) (node : Expr) : M t Expr :=
  match fuel with
  | O => timeout
  | S fuel' =>
      ty <- current_type ;;
      match ty with
      | TokenType.PLUS | TokenType.MINUS =>
          token <- the_token "type" ;;
          eat fuel' ty ;;
          right <- term fuel' ;;
          expr_loop fuel' (BinOp node token right)
      | _ => ret node
      end
  end
with term (fuel : nat) : M t Expr :=
  match fuel with
  | O => timeout
  | S fuel' => node <- factor fuel' ;; term_loop fuel' node
  end
with term_loop (fuel : nat) (node : Expr) : M t Expr :=
  match fuel with
  | O => timeout
  | S fuel' =>
      ty <- current_type ;;
      match ty with
      | TokenType.MUL | TokenType.INTEGER_DIV | TokenType.FLOAT_DIV =>
          token <- the_token "type" ;;
          eat fuel' ty ;;
          right <- factor fuel' ;;
          term_loop fuel' (BinOp node token right)
      | _ => ret node
      end
  end
with factor (fuel : nat) : M t Expr :=
  match fuel with
  | O => timeout
  | S fuel' =>
      token <- the_token "type" ;;
      match Token.type token with
      | TokenType.PLUS => eat fuel' TokenType.PLUS ;; e <- factor fuel' ;; ret (UnaryOp token e)
      | TokenType.MINUS => eat fuel' TokenType.MINUS ;; e <- factor fuel' ;; ret (UnaryOp token e)
      | TokenType.INTEGER_CONST => eat fuel' TokenType.INTEGER_CONST ;; ret (Num token)
      | TokenType.REAL_CONST => eat fuel' TokenType.REAL_CONST ;; ret (Num token)
      | TokenType.LPAREN =>
          eat fuel' TokenType.LPAREN ;;
          node <- expr fuel' ;;
          eat fuel' TokenType.RPAREN ;;
          ret node
      | TokenType.STRING_CONST => eat fuel' TokenType.STRING_CONST ;; ret (Str token)
      | _ => variable fuel'
      end
  end.

(** type_spec : INTEGER | REAL | STRING_CONST | CHAR | ARRAY *)
Definition type_spec (fuel : nat) : M t TypeNode :=
  token <- the_token "type" ;;
  match Token.type token with
  | TokenType.INTEGER => eat fuel TokenType.INTEGER ;; ret (Type_ token)
  | TokenType.REAL => eat fuel TokenType.REAL ;; ret (Type_ token)
  | TokenType.STRING_CONST => eat fuel TokenType.STRING_CONST ;; ret (Type_ token)
  | TokenType.CHAR => eat fuel TokenType.CHAR ;; ret (Type_ token)
  | TokenType.ARRAY =>
      eat fuel TokenType.ARRAY ;;
      eat fuel TokenType.LBRACK ;;
      start <- the_token "value" ;;
      eat fuel TokenType.INTEGER_CONST ;;
      eat fuel TokenType.DOT ;;
      eat fuel TokenType.DOT ;;
      end_ <- the_token "value" ;;
      eat fuel TokenType.INTEGER_CONST ;;
      eat fuel TokenType.RBRACK ;;
      eat fuel TokenType.OF ;;
      is_integer <- type_is TokenType.INTEGER ;;
      if is_integer : bool then
        eat fuel TokenType.INTEGER ;;
        ret (Array (Token.value start) (Token.value end_)
               (VStr (TokenType.value TokenType.INTEGER)))
      else raise (UnboundLocalError "type")
  | _ => ret (Type_ token)
  end.

(** The loop [while COMMA: eat(COMMA); append(current_token); eat(ID)]
    of formal_parameters and read_parameters. *)
Fixpoint comma_ids (fuel : nat) (acc : list Token.t) : M t (list Token.t) :=
  match fuel with
  | O => timeout
  | S fuel' =>
      comma <- type_is TokenType.COMMA ;;
      if comma : bool then
        eat fuel' TokenType.COMMA ;;
        tok <- the_token "type" ;;
        eat fuel' TokenType.ID ;;
        comma_ids fuel' (acc ++ [tok])
      else ret acc
  end.

Definition id_list (fuel : nat) : M t (list Token.t) :=
  tok <- the_token "type" ;;
  eat fuel TokenType.ID ;;
  comma_ids fuel [tok].

(** formal_parameters : ID (COMMA ID)* COLON type_spec *)
Definition formal_parameters (fuel : nat) : M t (list ParamNode) :=
  param_tokens <- id_list fuel ;;
  eat fuel TokenType.COLON ;;
  type_node <- type_spec fuel ;;
  ret (map (fun tok => Param (Var tok) type_node) param_tokens).

(** The loop [while SEMI: eat(SEMI); extend(formal_parameters())]. *)
Fixpoint semi_params {A} (fuel : nat) (inj : ParamNode -> A) (acc : list A)
  : M t (list A) :=
  match fuel with
  | O => timeout
  | S fuel' =>
      semi <- type_is TokenType.SEMI ;;
      if semi : bool then
        eat fuel' TokenType.SEMI ;;
        ps <- formal_parameters fuel' ;;
        semi_params fuel' inj (acc ++ map inj ps)
      else ret acc
  end.

(** formal_parameter_list : formal_parameters
                          | formal_parameters SEMI formal_parameter_list *)
Definition formal_parameter_list (fuel : nat) : M t (list ParamNode) :=
  is_id <- type_is TokenType.ID ;;
  if is_id : bool then
    param_nodes <- formal_parameters fuel ;;
    semi_params fuel (fun p => p) param_nodes
  else ret [].

(** The loop of variable_declaration, which builds the Var nodes
    before the identifier is eaten. *)
Fixpoint comma_vars (fuel : nat) (acc : list Expr) : M t (list Expr) :=
  match fuel with
  | O => timeout
  | S fuel' =>
      comma <- type_is TokenType.COMMA ;;
      if comma : bool then
        eat fuel' TokenType.COMMA ;;
        tok <- the_token "value" ;;
        eat fuel' TokenType.ID ;;
        comma_vars fuel' (acc ++ [Var tok])
      else ret acc
  end.

(** variable_declaration : ID (COMMA ID)* COLON type_spec *)
Definition variable_declaration (fuel : nat) : M t (list Decl) :=
  tok <- the_token "value" ;;
  eat fuel TokenType.ID ;;
  var_nodes <- comma_vars fuel [Var tok] ;;
  eat fuel TokenType.COLON ;;
  type_node <- type_spec fuel ;;
  ret (map (fun var_node => VarDecl var_node type_node) var_nodes).

(** The argument of WRITE and WRITELN.  Without a string literal the
    result is the empty list; a SEMI after the literal runs into the
    undefined name [param_nodes]. *)
Definition get_write_parameter (fuel : nat) : M t (option Expr) :=
  is_string <- type_is TokenType.STRING_CONST ;;
  if is_string : bool then
    tok <- the_token "value" ;;
    eat fuel TokenType.STRING_CONST ;;
    semi <- type_is TokenType.SEMI ;;
    if semi : bool then
      eat fuel TokenType.SEMI ;;
      raise (NameError "param_nodes")
    else ret (Some (Str tok))
  else ret None.

(** read_parameters : ID (COMMA ID)*, as a list of tokens. *)
Definition read_parameters (fuel : nat) : M t (list Token.t) :=
  id_list fuel.

Definition get_read_parameter (fuel : nat)
  : M t (list (Token.t + ParamNode)) :=
  is_id <- type_is TokenType.ID ;;
  if is_id : bool then
    param_nodes <- read_parameters fuel ;;
    semi_params fuel inr (map inl param_nodes)
  else ret [].

(** [WRITE(op, tk)] reads [tk.value]; the empty list has no such
    attribute. *)
Definition new_WRITE (op : TokenType.t) (tk : option Expr) : M t Stmt :=
  match tk with
  | Some e => v <- lift (Expr_value e) ;; ret (WRITE op v)
  | None => raise (AttributeError "value")
  end.

(** IO Statement --> read '(' Param ')' | readln '(' Param ')'
                   | write '(' 'String' ')' | writeln '(' 'String' ')' *)
Definition io_statement (fuel : nat) : M t Stmt :=
  ty <- current_type ;;
  match ty with
  | TokenType.READ | TokenType.READLN =>
      eat fuel ty ;;
      eat fuel TokenType.LPAREN ;;
      formal_params <- get_read_parameter fuel ;;
      eat fuel TokenType.RPAREN ;;
      ret (READ ty formal_params)
  | TokenType.WRITE | TokenType.WRITELN =>
      eat fuel ty ;;
      eat fuel TokenType.LPAREN ;;
      formal_params <- get_write_parameter fuel ;;
      node <- new_WRITE ty formal_params ;;
      eat fuel TokenType.RPAREN ;;
      ret node
  | _ => raise (PyException "no match in io_statement")
  end.

(** The loop [while COMMA: eat(COMMA); append(expr())]. *)
Fixpoint comma_exprs (fuel : nat) (acc : list Expr) : M t (list Expr) :=
  match fuel with
  | O => timeout
  | S fuel' =>
      comma <- type_is TokenType.COMMA ;;
      if comma : bool then
        eat fuel' TokenType.COMMA ;;
        node <- expr fuel' ;;
        comma_exprs fuel' (acc ++ [node])
      else ret acc
  end.

(** proccall_statement : ID LPAREN [expr (COMMA expr)...] RPAREN *)
Definition proccall_statement (fuel : nat) : M t Stmt :=
  token <- the_token "value" ;;
  let proc_name := Token.value token in
  eat fuel TokenType.ID ;;
  eat fuel TokenType.LPAREN ;;
  closing <- type_is TokenType.RPAREN ;;
  first <- (if closing : bool then ret []
            else node <- expr fuel ;; ret [node]) ;;
  actual_params <- comma_exprs fuel first ;;
  eat fuel TokenType.RPAREN ;;
  ret (ProcedureCall proc_name actual_params token None).

(** assignment_statement : variable ASSIGN expr.  With a bracket after
    the variable the index is eaten and dropped, and the node keeps
    the bracket token as its operator. *)
Definition assignment_statement (fuel : nat) : M t Stmt :=
  left <- variable fuel ;;
  token <- the_token "value" ;;
  if Py.eq (Token.value token) (VStr "[") then
    eat fuel TokenType.LBRACK ;;
    eat fuel TokenType.INTEGER_CONST ;;
    eat fuel TokenType.RBRACK ;;
    eat fuel TokenType.ASSIGN ;;
    right <- expr fuel ;;
    ret (Assign left token right)
  else
    eat fuel TokenType.ASSIGN ;;
    right <- expr fuel ;;
    ret (Assign left token right).

(** relation : expr (= | < | > | <= | >= | AND | OR) expr *)
Definition relation_statement (fuel : nat) : M t RelationNode :=
  left <- expr fuel ;;
  token <- the_token "type" ;;
  match Token.type token with
  | TokenType.EQUAL | TokenType.LESS | TokenType.GREATER
  | TokenType.LESSEQUAL | TokenType.GREATEREQUAL | TokenType.AND
  | TokenType.OR =>
      eat fuel (Token.type token) ;;
      right <- expr fuel ;;
      ret (Relation left token right)
  | _ => raise (PyException "no match in relation_statement")
  end.

(** statement : compound_statement | proccall_statement
              | assignment_statement | io_statement
              | IF, IF/ELSE, WHILE | empty
    compound_statement : BEGIN statement_list END
    statement_list : statement | statement SEMI statement_list *)
Fixpoint statement (fuel : nat) : M t Stmt :=
  match fuel with
  | O => timeout
  | S fuel' =>
      ty <- current_type ;;
      next_char <- gets (fun p => Lexer.current_char (lexer p)) ;;
      match ty with
      | TokenType.BEGIN => compound_statement fuel'
      | TokenType.ID =>
          if Lexer.is_char "(" next_char then proccall_statement fuel'
          else assignment_statement fuel'
      | TokenType.WRITELN | TokenType.WRITE | TokenType.READ
      | TokenType.READLN => io_statement fuel'
      | TokenType.IF => if_statement fuel'
      | TokenType.WHILE => while_statement fuel'
      | _ => empty
      end
  end
with compound_statement (fuel : nat) : M t Stmt :=
  match fuel with
  | O => timeout
  | S fuel' =>
      eat fuel' TokenType.BEGIN ;;
      nodes <- statement_list fuel' ;;
      eat fuel' TokenType.END ;;
      ret (Compound nodes)
  end
with statement_list (fuel : nat) : M t (list Stmt) :=
  match fuel with
  | O => timeout
  | S fuel' =>
      node <- statement fuel' ;;
      statement_list_loop fuel' [node]
  end
with statement_list_loop (fuel : nat) (results : list Stmt)
  : M t (list Stmt) :=
  match fuel with
  | O => timeout
  | S fuel' =>
      semi <- type_is TokenType.SEMI ;;
      if semi : bool then
        eat fuel' TokenType.SEMI ;;
        node <- statement fuel' ;;
        statement_list_loop fuel' (results ++ [node])
      else ret results
  end
with while_statement (fuel : nat) : M t Stmt :=
  match fuel with
  | O => timeout
  | S fuel' =>
      token <- current_type ;;
      eat fuel' TokenType.WHILE ;;
      rel <- relation_statement fuel' ;;
      eat fuel' TokenType.DO ;;
      body <- statement fuel' ;;
      ret (WhileStatement token rel body)
  end
with if_statement (fuel : nat) : M t Stmt :=
  match fuel with
  | O => timeout
  | S fuel' =>
      token <- current_type ;;
      eat fuel' TokenType.IF ;;
      rel <- relation_statement fuel' ;;
      eat fuel' TokenType.THEN ;;
      body <- statement fuel' ;;
      has_else <- type_is TokenType.ELSE ;;
      if has_else : bool then
        eat fuel' TokenType.ELSE ;;
        else_statement <- statement fuel' ;;
        ret (IfStatement token rel body (Some else_statement))
      else ret (IfStatement token rel body None)
  end.

(** The loop [while ID: extend(variable_declaration()); eat(SEMI)]. *)
Fixpoint var_decls (fuel : nat) (acc : list Decl) : M t (list Decl) :=
  match fuel with
  | O => timeout
  | S fuel' =>
      is_id <- type_is TokenType.ID ;;
      if is_id : bool then
        var_decl <- variable_declaration fuel' ;;
        eat fuel' TokenType.SEMI ;;
        var_decls fuel' (acc ++ var_decl)
      else ret acc
  end.

(** block : declarations compound_statement
    declarations : (VAR (variable_declaration SEMI)+)? procedure_declaration*
    procedure_declaration :
      PROCEDURE ID (LPAREN formal_parameter_list RPAREN)? SEMI block SEMI *)
Fixpoint block (fuel : nat) : M t BlockNode :=
  match fuel with
  | O => timeout
  | S fuel' =>
      declaration_nodes <- declarations fuel' ;;
      compound_statement_node <- compound_statement fuel' ;;
      ret (Block declaration_nodes compound_statement_node)
  end
with declarations (fuel : nat) : M t (list Decl) :=
  match fuel with
  | O => timeout
  | S fuel' =>
      is_var <- type_is TokenType.VAR ;;
      decls <- (if is_var : bool then
                  eat fuel' TokenType.VAR ;; var_decls fuel' []
                else ret []) ;;
      proc_decls fuel' decls
  end
with proc_decls (fuel : nat) (acc : list Decl) : M t (list Decl) :=
  match fuel with
  | O => timeout
  | S fuel' =>
      is_proc <- type_is TokenType.PROCEDURE ;;
      if is_proc : bool then
        proc_decl <- procedure_declaration fuel' ;;
        proc_decls fuel' (acc ++ [proc_decl])
      else ret acc
  end
with procedure_declaration (fuel : nat) : M t Decl :=
  match fuel with
  | O => timeout
  | S fuel' =>
      eat fuel' TokenType.PROCEDURE ;;
      tok <- the_token "value" ;;
      let proc_name := Token.value tok in
      eat fuel' TokenType.ID ;;
      has_params <- type_is TokenType.LPAREN ;;
      formal_params <-
        (if has_params : bool then
           eat fuel' TokenType.LPAREN ;;
           ps <- formal_parameter_list fuel' ;;
           eat fuel' TokenType.RPAREN ;;
           ret ps
         else ret []) ;;
      eat fuel' TokenType.SEMI ;;
      block_node <- block fuel' ;;
      eat fuel' TokenType.SEMI ;;
      ret (ProcedureDecl proc_name formal_params block_node)
  end.

(** program : PROGRAM variable SEMI block DOT *)
Definition program (fuel : nat) : M t ProgramNode :=
  eat fuel TokenType.PROGRAM ;;
  var_node <- variable fuel ;;
  prog_name <- lift (Expr_value var_node) ;;
  eat fuel TokenType.SEMI ;;
  block_node <- block fuel ;;
  eat fuel TokenType.DOT ;;
  ret (Program prog_name block_node).

Definition parse (fuel : nat) : M t ProgramNode :=
  node <- program fuel ;;
  tok <- the_token "type" ;;
  if TokenType.eqb (Token.type tok) TokenType.EOF then ret node
  else error UNEXPECTED_TOKEN tok.
End Parser.

(* ------------------------------------------------------------------ *)
(** * Symbols, tables, semantic analysis *)

(** The key under which [insert] files a symbol: its attribute [name].
    For an enumeration member that is the name of the member. *)
Definition Symbol_name (s : Symbol) : pyval :=
  match s with
  | VarSymbol name _ => name
  | BuiltinTypeSymbol name => VStr name
  | ProcedureSymbol name _ => name
  | IF_Symbol name => VEnum name
  | EnumMember member => VStr (TokenType.name member)
  end.

Module ScopedSymbolTable.
Inductive t :=
  mk (_symbols : Dict.t Symbol) (scope_name : pyval) (scope_level : nat)
     (enclosing_scope : option t).

Definition _symbols (s : t) := let 'mk d _ _ _ := s in d.
Definition scope_name (s : t) := let 'mk _ n _ _ := s in n.
Definition scope_level (s : t) := let 'mk _ _ l _ := s in l.
Definition enclosing_scope (s : t) := let 'mk _ _ _ e := s in e.

Definition insert (symbol : Symbol) (s : t) : t :=
  mk (Dict.set (_symbols s) (Symbol_name symbol) symbol)
     (scope_name s) (scope_level s) (enclosing_scope s).

Definition _init_builtins (s : t) : t :=
  insert (BuiltinTypeSymbol "ARRAY")
    (insert (BuiltinTypeSymbol "STRING_CONST")
       (insert (BuiltinTypeSymbol "REAL")
          (insert (BuiltinTypeSymbol "INTEGER") s))).

(** [lookup(name)]: the local table first, then the enclosing scopes. *)
Fixpoint lookup (s : t) (name : pyval) : option Symbol :=
  let 'mk d _ _ enclosing := s in
  match Dict.get d name with
  | Some symbol => Some symbol
  | None => match enclosing with
            | Some outer => lookup outer name
            | None => None
            end
  end.

(** [lookup(name, current_scope_only=True)]. *)
Definition lookup_current_scope_only (s : t) (name : pyval)
  : option Symbol :=
  Dict.get (_symbols s) name.
End ScopedSymbolTable.

(** The mutable part of a procedure symbol. *)
Module ProcedureObject.
Record t := mk { formal_params : list Symbol;
                 block_ast : option BlockNode }.
End ProcedureObject.

Module SemanticAnalyzer.
Local Open Scope monad_scope.

(** The analyzer holds the current scope.  The scopes form a chain
    through [enclosing_scope]; only the current one is ever written
    to, so each table carries its enclosing table as a value.
    [store] holds the procedure symbols created so far. *)
Record t := mk { current_scope : option ScopedSymbolTable.t;
                 store : list ProcedureObject.t }.

Definition __init__ : t := mk None [].

Definition error {A} (error_code : ErrorCode) (token : Token.t) : M t A :=
  raise (SemanticError error_code token).

(** [self.current_scope], about to be asked for [attribute]. *)
Definition the_scope (attribute : string) : M t ScopedSymbolTable.t :=
  fun a => match current_scope a with
           | Some s => Return s a
           | None => Raised (AttributeError attribute) a
           end.

Definition set_scope (s : option ScopedSymbolTable.t) : M t unit :=
  modify (fun a => mk s (store a)).

Definition insert (symbol : Symbol) : M t unit :=
  s <- the_scope "insert" ;;
  set_scope (Some (ScopedSymbolTable.insert symbol s)).

Definition lookup (name : pyval) : M t (option Symbol) :=
  s <- the_scope "lookup" ;;
  ret (ScopedSymbolTable.lookup s name).

(** Creating a procedure symbol allocates its mutable part. *)
Definition new_ProcedureSymbol (name : pyval) : M t Symbol :=
  fun a => Return (ProcedureSymbol name (List.length (store a)))
             (mk (current_scope a)
                 (store a ++ [ProcedureObject.mk [] None])).

Fixpoint update {A} (l : list A) (n : nat) (f : A -> A) : list A :=
  match l, n with
  | [], _ => []
  | x :: l', O => f x :: l'
  | x :: l', S n' => x :: update l' n' f
  end.

Definition update_store (ref : nat)
    (f : ProcedureObject.t -> ProcedureObject.t) : M t unit :=
  modify (fun a => mk (current_scope a) (update (store a) ref f)).

Definition visit_Var (token : Token.t) : M t unit :=
  var_symbol <- lookup (Token.value token) ;;
  match var_symbol with
  | None => error ID_NOT_FOUND token
  | Some _ => ret tt
  end.

(** Expressions: BinOp visits both operands; Num, Str and UnaryOp do
    nothing. *)
Fixpoint visit_Expr (node : Expr) : M t unit :=
  match node with
  | BinOp left_ _ right_ => visit_Expr left_ ;; visit_Expr right_
  | Num _ => ret tt
  | Str _ => ret tt
  | UnaryOp _ _ => ret tt
  | Var token => visit_Var token
  end.

Fixpoint visit_params (l : list Expr) : M t unit :=
  match l with
  | [] => ret tt
  | param_node :: l' => visit_Expr param_node ;; visit_params l'
  end.

(** The loop [for child in children: self.visit(child)], with the
    nodes as the visits leave them. *)
Fixpoint visit_each {A} (visit : A -> M t A) (l : list A) : M t (list A) :=
  match l with
  | [] => ret []
  | child :: l' =>
      child' <- visit child ;;
      l'' <- visit_each visit l' ;;
      ret (child' :: l'')
  end.

(** Statements.  The node is returned because visiting a procedure
    call stores the symbol found for the callee on the node. *)
Fixpoint visit_Stmt (node : Stmt) : M t Stmt :=
  match node with
  | Compound children =>
      children' <- visit_each visit_Stmt children ;;
      ret (Compound children')
  | Assign left_ op right_ =>
      visit_Expr right_ ;;      (* right-hand side *)
      visit_Expr left_ ;;       (* left-hand side *)
      ret node
  | NoOp => ret node
  | ProcedureCall proc_name actual_params token _ =>
      visit_params actual_params ;;
      proc_symbol <- lookup proc_name ;;
      ret (ProcedureCall proc_name actual_params token proc_symbol)
  | IfStatement name _ _ _ =>
      insert (IF_Symbol name) ;; ret node
  | WhileStatement name _ _ =>
      insert (IF_Symbol name) ;; ret node
  | READ op _ =>
      insert (EnumMember op) ;; ret node
  | WRITE op _ =>
      insert (EnumMember op) ;; ret node
  end.

Definition visit_VarDecl (var_node : Expr) (type_node : TypeNode)
  : M t unit :=
  let type_name := TypeNode_value type_node in
  type_symbol <- lookup type_name ;;
  var_name <- lift (Expr_value var_node) ;;
  let var_symbol := VarSymbol var_name type_symbol in
  s <- the_scope "lookup" ;;
  match ScopedSymbolTable.lookup_current_scope_only s var_name with
  | Some _ => error DUPLICATE_ID (Expr_token var_node)
  | None => insert var_symbol
  end.

(** Insert the parameters into the procedure scope. *)
Fixpoint insert_params (ref : nat) (l : list ParamNode) : M t unit :=
  match l with
  | [] => ret tt
  | Param var_node type_node :: l' =>
      param_type <- lookup (TypeNode_value type_node) ;;
      param_name <- lift (Expr_value var_node) ;;
      let var_symbol := VarSymbol param_name param_type in
      insert var_symbol ;;
      update_store ref (fun o =>
        ProcedureObject.mk (ProcedureObject.formal_params o ++ [var_symbol])
                           (ProcedureObject.block_ast o)) ;;
      insert_params ref l'
  end.

Fixpoint visit_Decl (node : Decl) : M t Decl :=
  match node with
  | VarDecl var_node type_node =>
      visit_VarDecl var_node type_node ;; ret node
  | ProcedureDecl proc_name formal_params block_node =>
      proc_symbol <- new_ProcedureSymbol proc_name ;;
      let ref := match proc_symbol with
                 | ProcedureSymbol _ ref => ref
                 | _ => O
                 end in
      insert proc_symbol ;;
      (* Scope for parameters and local variables *)
      outer <- the_scope "scope_level" ;;
      set_scope (Some (ScopedSymbolTable.mk Dict.empty proc_name
                         (S (ScopedSymbolTable.scope_level outer))
                         (Some outer))) ;;
      insert_params ref formal_params ;;
      block_node' <- visit_Block block_node ;;
      inner <- the_scope "enclosing_scope" ;;
      set_scope (ScopedSymbolTable.enclosing_scope inner) ;;
      (* accessed by the interpreter when executing procedure call *)
      update_store ref (fun o =>
        ProcedureObject.mk (ProcedureObject.formal_params o)
                           (Some block_node')) ;;
      ret (ProcedureDecl proc_name formal_params block_node')
  end
with visit_Block (node : BlockNode) : M t BlockNode :=
  match node with
  | Block declarations compound_statement =>
      declarations' <- visit_each visit_Decl declarations ;;
      compound_statement' <- visit_Stmt compound_statement ;;
      ret (Block declarations' compound_statement')
  end.

Definition visit_Program (node : ProgramNode) : M t ProgramNode :=
  let 'Program name block := node in
  enclosing <- gets current_scope ;;
  let global_scope :=
    ScopedSymbolTable.mk Dict.empty (VStr "global") 1 enclosing in
  set_scope (Some (ScopedSymbolTable._init_builtins global_scope)) ;;
  block' <- visit_Block block ;;
  s <- the_scope "enclosing_scope" ;;
  set_scope (ScopedSymbolTable.enclosing_scope s) ;;
  ret (Program name block').
End SemanticAnalyzer.

(* ------------------------------------------------------------------ *)
(** * Interpreter *)

Module ARType.
Inductive t := PROGRAM | PROCEDURE.
End ARType.

(** A record also has a counter, which [__str__] advances by one for
    each member and which nothing reads but the lines that [__str__]
    prints under the option [--mips].  That option is off here, as it
    is by default: [__str__] prints nothing, the counter cannot be
    observed, and it is left out. *)
Module ActivationRecord.
Record t := mk { name : pyval; type : ARType.t; nesting_level : nat;
                 members : Dict.t pyval }.

Definition __setitem__ (ar : t) (key value : pyval) : t :=
  mk (name ar) (type ar) (nesting_level ar) (Dict.set (members ar) key value).

(** [ar.get(key)]: an absent key gives [None]. *)
Definition get (ar : t) (key : pyval) : pyval :=
  match Dict.get (members ar) key with
  | Some v => v
  | None => VNone
  end.
End ActivationRecord.

(** The call stack, as the list of its records from the top down. *)
Module CallStack.
Definition t := list ActivationRecord.t.

Definition push (ar : ActivationRecord.t) (s : t) : t := ar :: s.

Definition pop (s : t) : result (ActivationRecord.t * t) :=
  match s with
  | ar :: s' => Ok (ar, s')
  | [] => Err IndexError
  end.

(** The record on top of the stack, [_records[-1]]. *)
Definition look_at_next_char (s : t) : result ActivationRecord.t :=
  match s with
  | ar :: _ => Ok ar
  | [] => Err IndexError
  end.
End CallStack.

(** What the interpreter prints when the call-stack trace is switched
    on, one event for each message, with the data the message shows. *)
Inductive event :=
  | ENTER (type : ARType.t) (name : pyval)
  | LEAVE (type : ARType.t) (name : pyval)
  | CALL_STACK (records : CallStack.t)
  | WRITE_TRACE (op : TokenType.t) (param : pyval)
  | READ_TRACE (op : TokenType.t) (param : list (Token.t + ParamNode))
  | IF_RESULT (left_value_then right_then : pyval)
  | WHILE_RESULT (left_value_then right_then : pyval).

Module Interpreter.
Local Open Scope monad_scope.
Local Open Scope result_scope.

Record t := mk { call_stack : CallStack.t; output : list event }.

Definition __init__ : t := mk [] [].

Section Run.
(** The procedure symbols left by the analyzer, and the flag set by
    the command-line option [--stack]. *)
Variable store : list ProcedureObject.t.
Variable _SHOULD_LOG_STACK : bool.

Definition log (msg : event) : M t unit :=
  if _SHOULD_LOG_STACK
  then modify (fun s => mk (call_stack s) (output s ++ [msg]))
  else ret tt.

(** [self.log(str(self.call_stack))].  The string is built whether
    the trace is on or not; building it prints lines of its own
    only under [--mips], which is off here. *)
Definition log_call_stack : M t unit :=
  s <- gets call_stack ;; log (CALL_STACK s).

Definition push (ar : ActivationRecord.t) : M t unit :=
  modify (fun s => mk (CallStack.push ar (call_stack s)) (output s)).

Definition pop : M t unit :=
  s <- gets call_stack ;;
  '(_, rest) <- lift (CallStack.pop s) ;;
  modify (fun s => mk rest (output s)).

Definition visit_Var (token : Token.t) (stack : CallStack.t)
  : result pyval :=
  let var_name := Token.value token in
  let? ar := CallStack.look_at_next_char stack in
  Ok (ActivationRecord.get ar var_name).

(** Expressions only read the call stack. *)
Fixpoint visit_Expr (node : Expr) (stack : CallStack.t) : result pyval :=
  match node with
  | BinOp left_ op right_ =>
      match Token.type op with
      | TokenType.PLUS =>
          let? a := visit_Expr left_ stack in
          let? b := visit_Expr right_ stack in Py.add a b
      | TokenType.MINUS =>
          let? a := visit_Expr left_ stack in
          let? b := visit_Expr right_ stack in Py.sub a b
      | TokenType.MUL =>
          let? a := visit_Expr left_ stack in
          let? b := visit_Expr right_ stack in Py.mul a b
      | TokenType.INTEGER_DIV =>
          let? a := visit_Expr left_ stack in
          let? b := visit_Expr right_ stack in Py.floordiv a b
      | TokenType.FLOAT_DIV =>
          let? a := visit_Expr left_ stack in
          let? f := Py.float a in
          let? b := visit_Expr right_ stack in
          let? g := Py.float b in Py.truediv f g
      | _ => Ok VNone
      end
  | Num token => Ok (Token.value token)
  | Str token => Ok (Token.value token)
  | UnaryOp op expr =>
      match Token.type op with
      | TokenType.PLUS => let? a := visit_Expr expr stack in Py.pos a
      | TokenType.MINUS => let? a := visit_Expr expr stack in Py.neg a
      | _ => Ok VNone
      end
  | Var token => visit_Var token stack
  end.

Definition visit (node : Expr) : M t pyval :=
  s <- gets call_stack ;; lift (visit_Expr node s).

(** The record on top of the stack is written to in place. *)
Definition visit_Assign (left_ right_ : Expr) : M t unit :=
  var_name <- lift (Expr_value left_) ;;
  var_value <- visit right_ ;;
  s <- gets call_stack ;;
  ar <- lift (CallStack.look_at_next_char s) ;;
  modify (fun s => mk (ActivationRecord.__setitem__ ar var_name var_value
                         :: tl (call_stack s)) (output s)).

Definition visit_WRITE (op : TokenType.t) (param : pyval) : M t unit :=
  log (WRITE_TRACE op param).

Definition visit_READ (op : TokenType.t)
    (param : list (Token.t + ParamNode)) : M t unit :=
  log (READ_TRACE op param).

(** The comparison selected by the token of a relation; AND, OR and
    the other token types select nothing. *)
Definition relation_test (ty : TokenType.t)
  : option (pyval -> pyval -> result bool) :=
  match ty with
  | TokenType.EQUAL => Some (fun a b => Ok (Py.eq a b))
  | TokenType.LESS => Some Py.lt
  | TokenType.LESSEQUAL => Some Py.le
  | TokenType.GREATER => Some Py.gt
  | TokenType.GREATEREQUAL => Some Py.ge
  | _ => None
  end.

(** The attributes [left.value], [token.type] and [right.value] that
    the interpreter reads from the statement of a branch.  Only an
    assignment has them, and an absent ELSE branch has none. *)
Definition branch_fields (statement : option Stmt)
  : result (pyval * pyval) :=
  match statement with
  | Some (Assign left_ _ right_) =>
      let? left_value := Expr_value left_ in
      let? right_value := Expr_value right_ in
      Ok (left_value, right_value)
  | _ => Err (AttributeError "left")
  end.

Definition visit_IfStatement (rel : RelationNode) (statement : Stmt)
    (elseStatement : option Stmt) : M t unit :=
  let 'Relation left_ token right_ := rel in
  left_value <- visit left_ ;;
  right_value <- lift (Expr_value right_) ;;
  match relation_test (Token.type token) with
  | Some test =>
      holds <- lift (test left_value right_value) ;;
      '(l, r) <- lift (branch_fields
                         (if holds : bool then Some statement
                          else elseStatement)) ;;
      log (IF_RESULT l r)
  | None => ret tt
  end.

Definition visit_WhileStatement (rel : RelationNode) (statement : Stmt)
  : M t unit :=
  let 'Relation left_ token right_ := rel in
  left_value <- visit left_ ;;
  right_value <- lift (Expr_value right_) ;;
  match relation_test (Token.type token) with
  | Some test =>
      holds <- lift (test left_value right_value) ;;
      if holds : bool then
        '(l, r) <- lift (branch_fields (Some statement)) ;;
        log (WHILE_RESULT l r)
      else ret tt
  | None => ret tt
  end.

(** [proc_symbol.formal_params] and [proc_symbol.block_ast]; only a
    procedure symbol has these attributes. *)
Definition procedure_object (proc_symbol : option Symbol)
  : result ProcedureObject.t :=
  match proc_symbol with
  | Some (ProcedureSymbol _ ref) =>
      match nth_error store ref with
      | Some o => Ok o
      | None => Err (AttributeError "formal_params")
      end
  | _ => Err (AttributeError "formal_params")
  end.

(** The loop over [zip(formal_params, actual_params)]: the arguments
    are evaluated in the caller's record. *)
Fixpoint bind_params (formal_params : list Symbol)
    (actual_params : list Expr) (ar : ActivationRecord.t)
  : M t ActivationRecord.t :=
  match formal_params, actual_params with
  | param_symbol :: fs, argument_node :: args =>
      v <- visit argument_node ;;
      bind_params fs args
        (ActivationRecord.__setitem__ ar (Symbol_name param_symbol) v)
  | _, _ => ret ar
  end.

(** Declarations do nothing at run time. *)
Definition visit_Decl (node : Decl) : M t unit := ret tt.

Fixpoint visit_declarations (l : list Decl) : M t unit :=
  match l with
  | [] => ret tt
  | declaration :: l' => visit_Decl declaration ;; visit_declarations l'
  end.

(** The loop [for child in node.children: self.visit(child)]. *)
Fixpoint visit_children (visit : Stmt -> M t unit) (l : list Stmt)
  : M t unit :=
  match l with
  | [] => ret tt
  | child :: l' => visit child ;; visit_children visit l'
  end.

(** The visit of a statement.  The fuel bounds the nesting of the
    visits; when it is used up the outcome is [Timeout], which
    stands for no behaviour of the program: where Python would
    reach its recursion limit, nothing is stated. *)
Fixpoint visit_Stmt (fuel : nat) (node : Stmt) : M t unit :=
  match fuel with
  | O => timeout
  | S fuel' =>
      match node with
      | Compound children => visit_children (visit_Stmt fuel') children
      | Assign left_ _ right_ => visit_Assign left_ right_
      | NoOp => ret tt
      | ProcedureCall proc_name actual_params _ proc_symbol =>
          let ar := ActivationRecord.mk proc_name ARType.PROCEDURE 2
                      Dict.empty in
          o <- lift (procedure_object proc_symbol) ;;
          ar <- bind_params (ProcedureObject.formal_params o)
                  actual_params ar ;;
          push ar ;;
          log (ENTER ARType.PROCEDURE proc_name) ;;
          log_call_stack ;;
          (* evaluate procedure body *)
          match ProcedureObject.block_ast o with
          | Some block_ast => visit_Block fuel' block_ast
          | None => raise (PyException "No visit_NoneType method")
          end ;;
          log (LEAVE ARType.PROCEDURE proc_name) ;;
          log_call_stack ;;
          pop
      | IfStatement _ rel statement elseStatement =>
          visit_IfStatement rel statement elseStatement
      | WhileStatement _ rel statement =>
          visit_WhileStatement rel statement
      | READ op param => visit_READ op param
      | WRITE op param => visit_WRITE op param
      end
  end
with visit_Block (fuel : nat) (node : BlockNode) : M t unit :=
  match fuel with
  | O => timeout
  | S fuel' =>
      let 'Block declarations compound_statement := node in
      visit_declarations declarations ;;
      visit_Stmt fuel' compound_statement
  end.

Definition visit_Program (fuel : nat) (node : ProgramNode) : M t unit :=
  let 'Program program_name block := node in
  log (ENTER ARType.PROGRAM program_name) ;;
  let ar := ActivationRecord.mk program_name ARType.PROGRAM 1
              Dict.empty in
  push ar ;;
  log_call_stack ;;
  visit_Block fuel block ;;
  log (LEAVE ARType.PROGRAM program_name) ;;
  log_call_stack ;;
  pop.

(** [interpret()]; without a tree nothing is run. *)
Definition interpret (fuel : nat) (tree : option ProgramNode) : M t unit :=
  match tree with
  | None => ret tt
  | Some tree => visit_Program fuel tree
  end.
End Run.
End Interpreter.

(* ------------------------------------------------------------------ *)
(** * The pipeline of [main] *)

Module Main.
(** How a run ends: the message of a caught error is printed and the
    process exits with status 1; any other exception is not caught;
    otherwise the interpreter runs to completion. *)
Inductive run :=
  | Exit1 (e : exn)
  | Uncaught (e : exn)
  | Completed (final : Interpreter.t)
  | NoAnswer.   (* fuel exhausted *)

(** [Parser(lexer)] followed by [parser.parse()]. *)
Definition parse (fuel : nat) (text : string)
  : outcome (option Parser.t) ProgramNode :=
  match Lexer.__init__ text with
  | Err e => Raised e None
  | Ok lexer =>
      match Parser.__init__ fuel lexer with
      | Return _ parser =>
          match Parser.parse fuel parser with
          | Return tree p => Return tree (Some p)
          | Raised e p => Raised e (Some p)
          | Timeout p => Timeout (Some p)
          end
      | Raised e p => Raised e (Some p)
      | Timeout p => Timeout (Some p)
      end
  end.

(** [SemanticAnalyzer().visit(tree)]: the tree with its procedure
    calls resolved, and the analyzer at the end. *)
Definition analyze (tree : ProgramNode)
  : outcome SemanticAnalyzer.t ProgramNode :=
  SemanticAnalyzer.visit_Program tree SemanticAnalyzer.__init__.

(** [Interpreter(tree).interpret()]. *)
Definition interpret (fuel : nat) (_SHOULD_LOG_STACK : bool)
    (store : list ProcedureObject.t) (tree : ProgramNode)
  : outcome Interpreter.t unit :=
  Interpreter.interpret store _SHOULD_LOG_STACK fuel (Some tree)
    Interpreter.__init__.

(** [main()] on the text of the input file, with the option [--stack]
    as given and the options [--lexer], [--scope], [--visitor] and
    [--mips] off. *)
Definition main (fuel : nat) (_SHOULD_LOG_STACK : bool) (text : string)
  : run :=
  match parse fuel text with
  | Raised (LexerError c l k) _ => Exit1 (LexerError c l k)
  | Raised (ParserError c t) _ => Exit1 (ParserError c t)
  | Raised e _ => Uncaught e
  | Timeout _ => NoAnswer
  | Return tree _ =>
      match analyze tree with
      | Raised (SemanticError c t) _ => Exit1 (SemanticError c t)
      | Raised e _ => Uncaught e
      | Timeout _ => NoAnswer
      | Return tree' analyzer =>
          match interpret fuel _SHOULD_LOG_STACK
                  (SemanticAnalyzer.store analyzer) tree' with
          | Return _ final => Completed final
          | Raised e _ => Uncaught e
          | Timeout _ => NoAnswer
          end
      end
  end.
End Main.

(* ------------------------------------------------------------------ *)
(** * Notions used to state the properties *)

(** The state in which a computation ends, whatever its outcome. *)
Definition final_state {S A} (o : outcome S A) : S :=
  match o with
  | Return _ s | Raised _ s | Timeout s => s
  end.

(** The part of the text that the lexer has not consumed. *)
Fixpoint drop (n : nat) (s : string) : string :=
  match n, s with
  | O, _ => s
  | S n', String _ s' => drop n' s'
  | S _, EmptyString => EmptyString
  end.

Definition head (s : string) : option ascii :=
  match s with
  | String c _ => Some c
  | EmptyString => None
  end.

Definition remaining (lx : Lexer.t) : string :=
  drop (Lexer.pos lx) (Lexer.text lx).

(** The current character is the character at the current position. *)
Definition Lexer_wf (lx : Lexer.t) : Prop :=
  Lexer.current_char lx = head (remaining lx).

Fixpoint string_forall (p : ascii -> bool) (s : string) : bool :=
  match s with
  | EmptyString => true
  | String c s' => p c && string_forall p s'
  end.

(** The next character, if any, does not satisfy [p]. *)
Definition stops (p : ascii -> bool) (rest : string) : Prop :=
  match rest with
  | EmptyString => True
  | String c _ => p c = false
  end.

(** What the token stream shows of a token: its type and its value. *)
Definition shape (tok : option Token.t) : option (TokenType.t * pyval) :=
  option_map (fun t => (Token.type t, Token.value t)) tok.

(** A literal of one or more of the digits 0 to 9. *)
Definition integer_literal (n : string) : Prop :=
  n <> EmptyString /\
  string_forall Py.is_ascii_digit n = true.

Definition literal_value (n : string) : Z :=
  Py.digits_value 0 (list_ascii_of_string n).

(** The names that the analyzer looks up when it visits a node: the
    variables of an expression that are not under a unary operator, and
    those of the assignments and call arguments of a statement that are
    not inside an IF or a WHILE. *)
Fixpoint visited_Expr (node : Expr) : list Token.t :=
  match node with
  | BinOp left_ _ right_ => visited_Expr left_ ++ visited_Expr right_
  | Var token => [token]
  | Num _ | Str _ | UnaryOp _ _ => []
  end.

Fixpoint visited_Stmt (node : Stmt) : list Token.t :=
  match node with
  | Compound children => flat_map visited_Stmt children
  | Assign left_ _ right_ => visited_Expr right_ ++ visited_Expr left_
  | ProcedureCall _ actual_params _ _ =>
      flat_map visited_Expr actual_params
  | NoOp | IfStatement _ _ _ _ | WhileStatement _ _ _ | READ _ _
  | WRITE _ _ => []
  end.

(** The keys under which visiting a statement files a symbol of its
    own: IF and WHILE file the token type of the statement, READ and
    WRITE the name of their operation. *)
Fixpoint inserted_Stmt (node : Stmt) : list pyval :=
  match node with
  | Compound children => flat_map inserted_Stmt children
  | IfStatement name _ _ _ | WhileStatement name _ _ =>
      [Symbol_name (IF_Symbol name)]
  | READ op _ | WRITE op _ => [Symbol_name (EnumMember op)]
  | Assign _ _ _ | NoOp | ProcedureCall _ _ _ _ => []
  end.

(** A token whose name the scope chain does not resolve. *)
Definition unresolved (scope : ScopedSymbolTable.t) (tok : Token.t) : bool :=
  match ScopedSymbolTable.lookup scope (Token.value tok) with
  | Some _ => false
  | None => true
  end.

Definition first_unresolved (scope : ScopedSymbolTable.t)
    (l : list Token.t) : option Token.t :=
  List.find (unresolved scope) l.

(** The outcome of a visit that looks up the names [l], in this order,
    and changes nothing. *)
Definition lookups {A} (scope : ScopedSymbolTable.t) (l : list Token.t)
    (result : A) (a : SemanticAnalyzer.t) : outcome SemanticAnalyzer.t A :=
  match first_unresolved scope l with
  | None => Return result a
  | Some tok => Raised (SemanticError ID_NOT_FOUND tok) a
  end.

(** [scope'] resolves every name that [scope] resolves, and differs
    from it on the keys [keys] at most. *)
Definition extends (keys : list pyval) (scope scope' : ScopedSymbolTable.t)
  : Prop :=
  (forall k, ScopedSymbolTable.lookup scope k <> None ->
             ScopedSymbolTable.lookup scope' k <> None)
  /\ (forall k, (forall k', In k' keys -> Py.eq k' k = false) ->
                ScopedSymbolTable.lookup scope' k
                = ScopedSymbolTable.lookup scope k).

(** What a visit that looks up the names [visited] and files the keys
    [keys] comes to in the scope [scope]: either the visit returns, in a
    scope that extends [scope] by the keys, and then every name looked
    up is resolved by [scope] or is one of the keys; or it fails on a
    name that is looked up and that [scope] does not resolve. *)
Definition analysis {A} (visited : list Token.t) (keys : list pyval)
    (scope : ScopedSymbolTable.t) (o : outcome SemanticAnalyzer.t A)
  : Prop :=
  (exists result a' scope',
      o = Return result a'
      /\ SemanticAnalyzer.current_scope a' = Some scope'
      /\ extends keys scope scope'
      /\ forall tok,
           In tok visited ->
           unresolved scope tok = true ->
           exists k, In k keys /\ Py.eq k (Token.value tok) = true)
  \/ (exists tok a',
         o = Raised (SemanticError ID_NOT_FOUND tok) a'
         /\ In tok visited
         /\ unresolved scope tok = true).

(** A character other than the brace that closes a comment. *)
Definition not_closing (c : ascii) : bool := negb (Ascii.eqb c "}").

(** A digit or a dot. *)
Definition plain (c : ascii) : bool := Py.is_ascii_digit c || Ascii.eqb c ".".

(** The binary operators of expressions. *)
Definition arithmetic : list TokenType.t :=
  [TokenType.PLUS; TokenType.MINUS; TokenType.MUL; TokenType.INTEGER_DIV;
   TokenType.FLOAT_DIV].

(** Two states of the record of one invocation: the members may
    differ. *)
Definition same_record (ar ar' : ActivationRecord.t) : Prop :=
  ActivationRecord.name ar' = ActivationRecord.name ar
  /\ ActivationRecord.type ar' = ActivationRecord.type ar
  /\ ActivationRecord.nesting_level ar' = ActivationRecord.nesting_level ar.

(** Two call stacks with the same records, where the record on top may
    have changed its members. *)
Definition balanced (s s' : CallStack.t) : Prop :=
  match s, s' with
  | [], [] => True
  | ar :: rest, ar' :: rest' => same_record ar ar' /\ rest' = rest
  | _, _ => False
  end.

(** The state in which the body of an invocation begins: the record of
    the invocation has been pushed and the entry has been traced.  (A
    program traces its entry before the push and a call after it, which
    comes to the same state.) *)
Definition entered (flag : bool) (type : ARType.t) (name : pyval)
    (ar : ActivationRecord.t) (st : Interpreter.t) : Interpreter.t :=
  final_state
    (bind (Interpreter.push ar)
       (fun _ => bind (Interpreter.log flag (ENTER type name))
                   (fun _ => Interpreter.log_call_stack flag)) st).

(** What an invocation does when its body has finished. *)
Definition leave (flag : bool) (type : ARType.t) (name : pyval)
  : M Interpreter.t unit :=
  bind (Interpreter.log flag (LEAVE type name))
    (fun _ => bind (Interpreter.log_call_stack flag)
                (fun _ => Interpreter.pop)).

(** A chain of nested calls: the body of [a] calls [b]. *)
Definition nested_calls : string :=
  "PROGRAM p; PROCEDURE a; PROCEDURE b; BEGIN END; BEGIN b() END; BEGIN a() END.".

(** The record of an invocation on entry, before anything is bound. *)
Definition new_record (name : string) (type : ARType.t) (level : nat)
  : ActivationRecord.t :=
  ActivationRecord.mk (VStr name) type level Dict.empty.

(** The least exponent of a binary64 number. *)
Definition float_emin : Z := SpecFloat.emin Py.prec Py.emax.

(** The global scope when the analysis of a program begins. *)
Definition global_scope : ScopedSymbolTable.t :=
  ScopedSymbolTable._init_builtins
    (ScopedSymbolTable.mk Dict.empty (VStr "global") 1 None).

(** ** Programs used as examples *)

Definition scenario : string :=
  "PROGRAM p; VAR x: INTEGER; BEGIN x := 2 + 3 * 4; WRITELN('done') END.".

Definition nested_read : string :=
  "PROGRAM p; VAR x: INTEGER; PROCEDURE q(a: INTEGER); VAR b: INTEGER; BEGIN b := x END; BEGIN x := 1; q(5) END.".

Definition program_record (members : Dict.t pyval) : ActivationRecord.t :=
  ActivationRecord.mk (VStr "p") ARType.PROGRAM 1 members.

Definition procedure_record (members : Dict.t pyval) : ActivationRecord.t :=
  ActivationRecord.mk (VStr "q") ARType.PROCEDURE 2 members.

(** A procedure that calls itself, and what the parser and the analyzer
    make of it: the two calls of [r], at columns 31 and 46, both hold
    the symbol of [r], whose body is at address 0 of the store. *)
Definition recursive_program : string :=
  "PROGRAM p; PROCEDURE r; BEGIN r() END; BEGIN r() END.".

Definition r_call (column : nat) : Stmt :=
  ProcedureCall (VStr "r") []
    (Token.mk TokenType.ID (VStr "r") (Some 1) (Some column))
    (Some (ProcedureSymbol (VStr "r") 0)).

Definition r_body : BlockNode := Block [] (Compound [r_call 31]).

Definition r_store : list ProcedureObject.t :=
  [ProcedureObject.mk [] (Some r_body)].

Definition r_tree : ProgramNode :=
  Program (VStr "p")
    (Block [ProcedureDecl (VStr "r") [] r_body] (Compound [r_call 46])).

(** ** Tactics *)

(** Case analysis on a character, for the facts about character
    classes. *)
Ltac ascii_cases c :=
  destruct c as [[] [] [] [] [] [] [] []]; try discriminate; try reflexivity.

(** The steps of the visitors of IF and WHILE: every outcome is an
    outcome of evaluating the relation, of reading the fields of a
    statement, or of logging. *)
Ltac relation_cases :=
  cbv beta iota zeta delta
    [Interpreter.visit_IfStatement Interpreter.visit_WhileStatement
     bind Interpreter.visit gets lift ret];
  repeat match goal with
    | |- context [match ?rel with Relation _ _ _ => _ end] => destruct rel
    | |- context [match Interpreter.visit_Expr ?e ?s with _ => _ end] =>
        destruct (Interpreter.visit_Expr e s)
    | |- context [match Expr_value ?e with _ => _ end] =>
        destruct (Expr_value e)
    | |- context [match Interpreter.relation_test ?t with _ => _ end] =>
        destruct (Interpreter.relation_test t)
    | |- context [match ?test ?a ?b with Ok _ => _ | Err _ => _ end] =>
        destruct (test a b) as [[|]|]
    | |- context [match Interpreter.branch_fields ?s with _ => _ end] =>
        destruct (Interpreter.branch_fields s) as [[? ?]|]
    end.

(* ------------------------------------------------------------------ *)
(** * Further notions: positions in the text *)

(** The first [n] characters of a text. *)
Fixpoint take (n : nat) (s : string) : string :=
  match n, s with
  | S n', String c s' => String c (take n' s')
  | _, _ => EmptyString
  end.

(** The part of the text that the lexer has consumed. *)
Definition consumed (lx : Lexer.t) : string :=
  take (Lexer.pos lx) (Lexer.text lx).

(** The line and the column, both counted from 1, of the character that
    follows the text [s], when [s] begins at line [l], column [c]. *)
Fixpoint line_col (l c : nat) (s : string) : nat * nat :=
  match s with
  | EmptyString => (l, c)
  | String x s' =>
      if Ascii.eqb x Lexer.newline then line_col (S l) 1 s'
      else line_col l (S c) s'
  end.

(** The lexer stands on the character at its position, its line number
    is the line of that position, and, as long as the input has not
    ended, its column is the column of that position. *)
Definition tracks_position (lx : Lexer.t) : Prop :=
  Lexer_wf lx
  /\ Lexer.lineno lx = fst (line_col 1 1 (consumed lx))
  /\ (Lexer.current_char lx <> None ->
      Lexer.column lx = snd (line_col 1 1 (consumed lx))).

(** The lexer [lx'] reads the same text as [lx] and is not behind it. *)
Definition moved_on (lx lx' : Lexer.t) : Prop :=
  Lexer.text lx' = Lexer.text lx /\ Lexer.pos lx <= Lexer.pos lx'.

(** An exception of the lexer: a lexical error that reports the
    character, the line and the column at which the lexer stands, or the
    ValueError of a number that [int] or [float] does not accept. *)
Definition lexer_exception (e : exn) (lx : Lexer.t) : Prop :=
  (exists c, Lexer.current_char lx = Some c
             /\ e = LexerError (Some c) (Lexer.lineno lx) (Lexer.column lx))
  \/ e = ValueError.

(** A computation of the interpreter that, whatever its outcome, only
    appends to the output, and appends nothing when the trace is off. *)
Definition traces (flag : bool) {A} (c : M Interpreter.t A) : Prop :=
  forall st, exists l,
    Interpreter.output (final_state (c st)) = Interpreter.output st ++ l
    /\ (flag = false -> l = []).

(** Two states of one scope: the table may differ. *)
Definition same_frame (s s' : ScopedSymbolTable.t) : Prop :=
  ScopedSymbolTable.enclosing_scope s' = ScopedSymbolTable.enclosing_scope s
  /\ ScopedSymbolTable.scope_level s' = ScopedSymbolTable.scope_level s
  /\ ScopedSymbolTable.scope_name s' = ScopedSymbolTable.scope_name s.

(** The procedure symbols of [st] are still in [st'], unchanged. *)
Definition store_kept (st st' : list ProcedureObject.t) : Prop :=
  List.length st <= List.length st'
  /\ forall r, r < List.length st -> nth_error st' r = nth_error st r.

(** The name of a formal parameter, [param.var_node.value]. *)
Definition param_name (p : ParamNode) : result pyval :=
  let 'Param var_node _ := p in Expr_value var_node.

(** A visit of the analyzer that returns in the scope it began in, with
    the procedure symbols it found still in place.  [related] says how
    the stores before and after are related. *)
Definition keeps_scope {A} (related : list ProcedureObject.t ->
                                      list ProcedureObject.t -> Prop)
    (visit : A -> M SemanticAnalyzer.t A) (x : A) : Prop :=
  forall a s x' a',
    SemanticAnalyzer.current_scope a = Some s ->
    visit x a = Return x' a' ->
    exists s',
      SemanticAnalyzer.current_scope a' = Some s'
      /\ same_frame s s'
      /\ related (SemanticAnalyzer.store a) (SemanticAnalyzer.store a').

(** ** Relations, and what a statement adds to the trace *)

(** The comparison of two integers that the operator of a relation
    selects; the other token types select none. *)
Definition integer_relation (ty : TokenType.t) (a b : Z) : option bool :=
  match ty with
  | TokenType.EQUAL => Some (a =? b)%Z
  | TokenType.LESS => Some (a <? b)%Z
  | TokenType.LESSEQUAL => Some (a <=? b)%Z
  | TokenType.GREATER => Some (a >? b)%Z
  | TokenType.GREATEREQUAL => Some (a >=? b)%Z
  | _ => None
  end.

(** The comparisons that order their operands. *)
Definition orderings : list TokenType.t :=
  [TokenType.LESS; TokenType.LESSEQUAL; TokenType.GREATER;
   TokenType.GREATEREQUAL].

(** The state [st] after the messages [msgs] have gone to the trace:
    they are printed when the trace is on, and nothing else changes. *)
Definition traced (flag : bool) (msgs : list event) (st : Interpreter.t)
  : Interpreter.t :=
  Interpreter.mk (Interpreter.call_stack st)
    (Interpreter.output st ++ (if flag then msgs else [])).

(** ** Calls that a statement executes *)

(** The statement [node], when executed, executes a call of the
    procedure at address [ref] of the store, unless something before
    the call fails: the statement is such a call, or a compound
    statement with such a statement among its children.  The branches
    of an IF and the body of a WHILE are not executed, so a call in
    them does not count. *)
Fixpoint executes_call (ref : nat) (node : Stmt) : bool :=
  match node with
  | Compound children => existsb (executes_call ref) children
  | ProcedureCall _ _ _ (Some (ProcedureSymbol _ ref')) => Nat.eqb ref' ref
  | _ => false
  end.

(** The call stack [s'] holds the records of [s], of which the one on
    top may have changed its members, below the records [pushed]. *)
Definition grown (pushed : list ActivationRecord.t) (s s' : CallStack.t)
  : Prop :=
  exists below, s' = pushed ++ below /\ balanced s below.

(** A procedure whose body divides by zero. *)
Definition failing_call : string :=
  "PROGRAM p; VAR x: INTEGER; PROCEDURE q; BEGIN x := 1 DIV 0 END; BEGIN q() END.".

(** ** Tokens ahead of the parser *)

(** The tokens [toks] lie ahead of the parser [p]: the first one is its
    current token, and each following one is what the lexer returns
    next, given fuel [k] or more.  [p'] is the parser once [toks] have
    been eaten; its current token is the token that follows them. *)
Fixpoint reads (k : nat) (p : Parser.t) (toks : list Token.t)
    (p' : Parser.t) : Prop :=
  match toks with
  | [] => p' = p
  | tok :: rest =>
      Parser.current_token p = Some tok
      /\ exists p1,
           (forall fuel, k <= fuel ->
              Lexer.get_next_token fuel (Parser.lexer p)
              = Return (Parser.current_token p1) (Parser.lexer p1))
           /\ reads k p1 rest p'
  end.

(** Operands without sign or parentheses: numbers, strings, names. *)
Definition is_operand (tok : Token.t) : bool :=
  match Token.type tok with
  | TokenType.INTEGER_CONST | TokenType.REAL_CONST | TokenType.STRING_CONST
  | TokenType.ID => true
  | _ => false
  end.

Definition operand_node (tok : Token.t) : Expr :=
  match Token.type tok with
  | TokenType.INTEGER_CONST | TokenType.REAL_CONST => Num tok
  | TokenType.STRING_CONST => Str tok
  | _ => Var tok
  end.

Definition multiplicative (ty : TokenType.t) : bool :=
  match ty with
  | TokenType.MUL | TokenType.INTEGER_DIV | TokenType.FLOAT_DIV => true
  | _ => false
  end.

Definition additive (ty : TokenType.t) : bool :=
  match ty with
  | TokenType.PLUS | TokenType.MINUS => true
  | _ => false
  end.

(** A product: an operand and further operands, each with the
    multiplicative operator before it. *)
Definition product : Type := Token.t * list (Token.t * Token.t).

Definition product_tokens (pr : product) : list Token.t :=
  fst pr :: flat_map (fun f => [fst f; snd f]) (snd pr).

Definition product_ok (pr : product) : bool :=
  is_operand (fst pr)
  && forallb (fun f => multiplicative (Token.type (fst f))
                       && is_operand (snd f)) (snd pr).

(** The operators of a product associate to the left. *)
Definition product_node (pr : product) : Expr :=
  fold_left (fun node f => BinOp node (fst f) (operand_node (snd f)))
    (snd pr) (operand_node (fst pr)).

(** A sum: a product and further products, each with the additive
    operator before it. *)
Definition sum_of_products : Type := product * list (Token.t * product).

Definition sum_tokens (s : sum_of_products) : list Token.t :=
  product_tokens (fst s)
  ++ flat_map (fun t => fst t :: product_tokens (snd t)) (snd s).

Definition sum_ok (s : sum_of_products) : bool :=
  product_ok (fst s)
  && forallb (fun t => additive (Token.type (fst t)) && product_ok (snd t))
       (snd s).

(** The products are the operands of the additive operators, which
    associate to the left. *)
Definition sum_node (s : sum_of_products) : Expr :=
  fold_left (fun node t => BinOp node (fst t) (product_node (snd t)))
    (snd s) (product_node (fst s)).

(** The operators that [relation_statement] accepts. *)
Definition relational (ty : TokenType.t) : bool :=
  match ty with
  | TokenType.EQUAL | TokenType.LESS | TokenType.GREATER
  | TokenType.LESSEQUAL | TokenType.GREATEREQUAL | TokenType.AND
  | TokenType.OR => true
  | _ => false
  end.

(** The exceptions that [main] catches around the parser. *)
Definition caught_by_main (e : exn) : bool :=
  match e with
  | LexerError _ _ _ | ParserError _ _ => true
  | _ => false
  end.

(** ** The table of reserved words, as the code builds it *)

(** [l.index(x)]: the first place of [x], a ValueError without one. *)
Fixpoint index (x : TokenType.t) (l : list TokenType.t) : result nat :=
  match l with
  | [] => Err ValueError
  | y :: l' =>
      if TokenType.eqb y x then Ok 0
      else (let? n := index x l' in Ok (S n))%result
  end.

(** [l[start:stop]], for bounds that are not negative. *)
Definition slice {A} (start stop : nat) (l : list A) : list A :=
  firstn (stop - start) (skipn start l).

(** [d[k] = v] in a dictionary with strings as keys: a key that is
    present keeps its place and gets the new value. *)
Fixpoint keywords_set (k : string) (v : TokenType.t)
    (d : list (string * TokenType.t)) : list (string * TokenType.t) :=
  match d with
  | [] => [(k, v)]
  | (k', v') :: d' =>
      if String.eqb k' k then (k', v) :: d'
      else (k', v') :: keywords_set k v d'
  end.

(** The dictionary of the values of the members from PROGRAM to END. *)
Definition _build_reserved_keywords : result (list (string * TokenType.t)) :=
  let tt_list := TokenType.members in
  (let? start_index := index TokenType.PROGRAM tt_list in
   let? end_index := index TokenType.END tt_list in
   Ok (fold_left
         (fun d token_type =>
            keywords_set (TokenType.value token_type) token_type d)
         (slice start_index (end_index + 1) tt_list) []))%result.

(** The token types that have no rule in the lexer. *)
Definition never_lexed : list TokenType.t :=
  [TokenType.LESSEQUAL; TokenType.NOTEQUAL; TokenType.GREATEREQUAL;
   TokenType.QUOTE; TokenType.CHAR_CONST].

(* ------------------------------------------------------------------ *)
(** * Basic facts *)

Lemma TokenType_eqb_eq a b : TokenType.eqb a b = true <-> a = b.
Proof.
  unfold TokenType.eqb.
  destruct (TokenType.eq_dec a b); split; congruence.
Qed.

Lemma TokenType_eqb_refl a : TokenType.eqb a a = true.
Proof. apply TokenType_eqb_eq. reflexivity. Qed.

Lemma TokenType_eqb_neq a b : a <> b -> TokenType.eqb a b = false.
Proof.
  intros H. unfold TokenType.eqb.
  destruct (TokenType.eq_dec a b); congruence.
Qed.

(** ** The unread part of the text *)

Section Text.
Implicit Types (s : string) (n : nat) (c : ascii) (lx : Lexer.t).

Lemma drop_empty n : drop n EmptyString = EmptyString.
Proof. destruct n; reflexivity. Qed.

Lemma get_drop n s : String.get n s = head (drop n s).
Proof.
  revert s. induction n as [|n IH]; intros [|c s]; simpl; auto.
Qed.

Lemma drop_succ_tail n s :
  drop (S n) s = match drop n s with String _ r => r | EmptyString => "" end.
Proof.
  revert s. induction n as [|n IH]; intros [|c s]; try reflexivity.
  change (drop (S n) s
          = match drop n s with String _ r => r | EmptyString => "" end).
  apply IH.
Qed.

Lemma drop_succ n s c r : drop n s = String c r -> drop (S n) s = r.
Proof. intros H. now rewrite drop_succ_tail, H. Qed.

Lemma drop_succ_empty n s : drop n s = EmptyString ->
  drop (S n) s = EmptyString.
Proof. intros H. now rewrite drop_succ_tail, H. Qed.

Lemma drop_length n s :
  Nat.leb (String.length s) n = true <-> drop n s = EmptyString.
Proof.
  revert s. induction n as [|n IH]; intros [|c s]; simpl;
    try (split; congruence).
  apply IH.
Qed.

Lemma advance_text lx : Lexer.text (Lexer.advance lx) = Lexer.text lx.
Proof. unfold Lexer.advance. destruct (Nat.leb _ _); reflexivity. Qed.

Lemma advance_pos lx : Lexer.pos (Lexer.advance lx) = S (Lexer.pos lx).
Proof. unfold Lexer.advance. destruct (Nat.leb _ _); reflexivity. Qed.

Lemma advance_wf lx : Lexer_wf (Lexer.advance lx).
Proof.
  unfold Lexer_wf, remaining. rewrite advance_text, advance_pos.
  unfold Lexer.advance.
  destruct (Nat.leb _ _) eqn:E; cbn [Lexer.current_char].
  - apply drop_length in E. now rewrite E.
  - apply get_drop.
Qed.

Lemma advance_remaining lx c r :
  remaining lx = String c r -> remaining (Lexer.advance lx) = r.
Proof.
  unfold remaining. rewrite advance_text, advance_pos. apply drop_succ.
Qed.

Lemma advance_remaining_empty lx :
  remaining lx = EmptyString -> remaining (Lexer.advance lx) = EmptyString.
Proof.
  unfold remaining. rewrite advance_text, advance_pos.
  apply drop_succ_empty.
Qed.

Lemma init_wf text lx : Lexer.__init__ text = Ok lx ->
  Lexer_wf lx /\ remaining lx = text.
Proof.
  unfold Lexer.__init__. destruct text as [|c s]; simpl; [discriminate|].
  intros H. injection H as <-. split; reflexivity.
Qed.

Lemma look_at_next_char_spec lx c r :
  remaining lx = String c r -> Lexer.look_at_next_char lx = head r.
Proof.
  intros H. unfold Lexer.look_at_next_char.
  pose proof (drop_succ _ _ _ _ H) as H'.
  destruct (Nat.leb _ _) eqn:E.
  - apply drop_length in E. rewrite E in H'. now subst r.
  - rewrite get_drop. now rewrite H'.
Qed.
End Text.

(** ** The scanning loop *)

Lemma append_assoc (a b c : string) : ((a ++ b) ++ c = a ++ (b ++ c))%string.
Proof. induction a as [|x a IH]; simpl; [reflexivity | now rewrite IH]. Qed.

Lemma append_empty_r (a : string) : (a ++ "")%string = a.
Proof. induction a as [|x a IH]; simpl; [reflexivity | now rewrite IH]. Qed.

(** A run [ds] of characters that satisfy [p], followed by a character
    that does not (or by the end of the input), is consumed whole. *)
Lemma scan_spec (p : ascii -> bool) (ds : string) :
  forall fuel acc lx rest,
    Lexer_wf lx ->
    remaining lx = (ds ++ rest)%string ->
    string_forall p ds = true ->
    stops p rest ->
    String.length ds <= fuel ->
    exists lx',
      Lexer.scan fuel p acc lx = Return (acc ++ ds)%string lx'
      /\ Lexer_wf lx' /\ remaining lx' = rest
      /\ Lexer.text lx' = Lexer.text lx.
Proof.
  induction ds as [|c ds IH]; intros fuel acc lx rest Hwf Hrem Hp Hstop Hfuel.
  - simpl in Hrem. exists lx. rewrite append_empty_r.
    repeat split; auto.
    unfold Lexer_wf in Hwf. rewrite Hrem in Hwf.
    destruct fuel; simpl; rewrite Hwf;
      destruct rest as [|d rest]; simpl in *; try reflexivity;
      now rewrite Hstop.
  - simpl in Hrem, Hp, Hfuel. apply andb_true_iff in Hp as [Hc Hp].
    destruct fuel as [|fuel]; [lia|].
    destruct (IH fuel (acc ++ String c "")%string (Lexer.advance lx) rest)
      as (lx' & Hscan & Hwf' & Hrem' & Htext); auto.
    + apply advance_wf.
    + eapply advance_remaining; eauto.
    + lia.
    + exists lx'. repeat split; auto.
      * unfold Lexer_wf in Hwf. rewrite Hrem in Hwf. simpl in Hwf.
        simpl. rewrite Hwf, Hc, Hscan.
        now rewrite append_assoc.
      * now rewrite Htext, advance_text.
Qed.

(* ------------------------------------------------------------------ *)
(** * Lexing numbers, dots and identifiers *)

Lemma digit_isdigit c : Py.is_ascii_digit c = true -> Py.isdigit c = true.
Proof. intros H. unfold Py.isdigit. now rewrite H. Qed.

Lemma digit_dispatch c : Py.is_ascii_digit c = true ->
  Ascii.eqb c ":" = false /\ Py.isspace c = false /\ Ascii.eqb c "'" = false
  /\ Ascii.eqb c "{" = false /\ Py.isalpha c = false.
Proof. intros H. repeat split; revert H; ascii_cases c. Qed.

Lemma alpha_dispatch c : Py.isalpha c = true ->
  Ascii.eqb c ":" = false /\ Py.isspace c = false /\ Ascii.eqb c "'" = false
  /\ Ascii.eqb c "{" = false.
Proof. intros H. repeat split; revert H; ascii_cases c. Qed.

Lemma string_forall_impl (p q : ascii -> bool) s :
  (forall c, p c = true -> q c = true) ->
  string_forall p s = true -> string_forall q s = true.
Proof.
  intros Hpq. induction s as [|c s IH]; simpl; auto.
  intros H. apply andb_true_iff in H as [Hc Hs].
  now rewrite (Hpq _ Hc), IH.
Qed.

Lemma string_forall_list p s :
  forallb p (list_ascii_of_string s) = string_forall p s.
Proof. induction s as [|c s IH]; simpl; [reflexivity | now rewrite IH]. Qed.

Lemma list_ascii_of_append a b :
  list_ascii_of_string (a ++ b) = list_ascii_of_string a ++ list_ascii_of_string b.
Proof. induction a as [|c a IH]; simpl; [reflexivity | now rewrite IH]. Qed.

Lemma int_of_literal n : integer_literal n ->
  Py.int_of_str n = Ok (literal_value n).
Proof.
  intros [Hne Hd]. unfold Py.int_of_str, literal_value.
  rewrite <- string_forall_list in Hd.
  destruct n as [|c n]; [congruence|].
  cbn [list_ascii_of_string] in *.
  change (forallb Py.is_ascii_digit (c :: list_ascii_of_string n) = true)
    in Hd.
  now rewrite Hd.
Qed.

(** ** [float] of a literal with a trailing dot *)

Section FloatOfLiteral.
Lemma plain_facts c : plain c = true ->
  Py.space_to_ascii c = c /\ Py.c_isspace c = false
  /\ Ascii.eqb c "_" = false /\ Py.lower_char c = c.
Proof. intros H. repeat split; revert H; ascii_cases c. Qed.

Lemma map_plain (f : ascii -> ascii) l :
  (forall c, plain c = true -> f c = c) ->
  forallb plain l = true -> map f l = l.
Proof.
  intros Hf. induction l as [|c l IH]; simpl; auto.
  intros H. apply andb_true_iff in H as [Hc Hl].
  now rewrite (Hf _ Hc), IH.
Qed.

Lemma lstrip_plain l : forallb plain l = true -> Py.lstrip l = l.
Proof.
  destruct l as [|c l]; simpl; auto. intros H.
  apply andb_true_iff in H as [Hc _].
  destruct (plain_facts _ Hc) as (_ & -> & _). reflexivity.
Qed.

Lemma forallb_rev (p : ascii -> bool) l :
  forallb p (rev l) = forallb p l.
Proof.
  induction l as [|c l IH]; simpl; auto.
  rewrite forallb_app, IH. simpl. rewrite andb_true_r. apply andb_comm.
Qed.

Lemma strip_plain l : forallb plain l = true -> Py.strip l = l.
Proof.
  intros H. unfold Py.strip. rewrite (lstrip_plain l H).
  rewrite lstrip_plain by now rewrite forallb_rev.
  apply rev_involutive.
Qed.

Lemma drop_underscores_plain l : forall prev,
  match prev with Some p => Ascii.eqb p "_" = false | None => True end ->
  forallb plain l = true -> Py.drop_underscores prev l = Some l.
Proof.
  induction l as [|c l IH]; intros prev Hprev H; simpl.
  - destruct prev as [p|]; [now rewrite Hprev | reflexivity].
  - simpl in H. apply andb_true_iff in H as [Hc Hl].
    destruct (plain_facts _ Hc) as (_ & _ & Hu & _). rewrite Hu.
    replace (match prev with Some p => Ascii.eqb p "_" | None => false end)
      with false by (destruct prev; auto).
    simpl. now rewrite (IH (Some c)).
Qed.

Lemma span_digits ds rest :
  forallb Py.is_ascii_digit ds = true ->
  match rest with [] => True | c :: _ => Py.is_ascii_digit c = false end ->
  Py.span Py.is_ascii_digit (ds ++ rest) = (ds, rest).
Proof.
  intros Hd Hr. induction ds as [|c ds IH]; cbn [Py.span forallb app] in *.
  - destruct rest as [|c rest]; cbn [Py.span]; [reflexivity | now rewrite Hr].
  - apply andb_true_iff in Hd as [Hc Hd]. now rewrite Hc, IH.
Qed.

Lemma float_of_literal_dot n : integer_literal n ->
  Py.float_of_str (n ++ ".")
  = Ok (Py.float_of_decimal false (literal_value n) 0).
Proof.
  intros [Hne Hd]. unfold Py.float_of_str, literal_value.
  rewrite list_ascii_of_append. simpl (list_ascii_of_string ".").
  set (ds := list_ascii_of_string n).
  assert (Hds : forallb Py.is_ascii_digit ds = true)
    by (subst ds; now rewrite string_forall_list).
  assert (Hplain : forallb plain (ds ++ ["."%char]) = true).
  { rewrite forallb_app. simpl. rewrite andb_true_r.
    eapply forallb_forall. intros c Hc. unfold plain.
    eapply forallb_forall in Hds; eauto. now rewrite Hds. }
  rewrite (map_plain Py.space_to_ascii)
    by (auto; intros c Hc; apply plain_facts; auto).
  rewrite strip_plain by auto.
  rewrite drop_underscores_plain by auto.
  assert (Hhd : exists c ds', ds = c :: ds' /\ Py.is_ascii_digit c = true).
  { subst ds. destruct n as [|c n]; [congruence|]. simpl in *.
    apply andb_true_iff in Hds as [Hc _]. eauto. }
  destruct Hhd as (c & ds' & Eds & Hc).
  assert (Hsign : Py.take_sign (ds ++ ["."%char]) = (false, ds ++ ["."%char])).
  { rewrite Eds. simpl. revert Hc. ascii_cases c. }
  rewrite Hsign.
  rewrite (map_plain Py.lower_char)
    by (auto; intros c' Hc'; apply plain_facts; auto).
  assert (Hword : forall w, (w = "inf" \/ w = "infinity" \/ w = "nan") ->
            String.eqb (string_of_list_ascii (ds ++ ["."%char])) w = false).
  { intros w Hw. rewrite Eds. simpl.
    destruct Hw as [-> | [-> | ->]]; simpl; revert Hc; ascii_cases c. }
  rewrite !Hword by auto. simpl orb. cbv iota.
  rewrite span_digits by (simpl; auto).
  simpl. rewrite app_nil_r.
  destruct ds; [discriminate|]. simpl. reflexivity.
Qed.
End FloatOfLiteral.

(** ** One token at a time *)

Lemma wf_current lx c r :
  Lexer_wf lx -> remaining lx = String c r -> Lexer.current_char lx = Some c.
Proof. unfold Lexer_wf. now intros -> ->. Qed.

Lemma wf_current_end lx :
  Lexer_wf lx -> remaining lx = EmptyString -> Lexer.current_char lx = None.
Proof. unfold Lexer_wf. now intros -> ->. Qed.

(** An integer literal that is not followed by a digit, nor by a dot
    unless a second dot comes next, is an INTEGER_CONST token. *)
Lemma lex_integer fuel lx n rest :
  Lexer_wf lx ->
  remaining lx = (n ++ rest)%string ->
  integer_literal n ->
  stops Py.isdigit rest ->
  (forall r, rest = String "." r -> head r = Some "."%char) ->
  String.length n <= fuel ->
  exists tok lx',
    Lexer.get_next_token (S fuel) lx = Return (Some tok) lx'
    /\ shape (Some tok)
       = Some (TokenType.INTEGER_CONST, VInt (literal_value n))
    /\ Lexer_wf lx' /\ remaining lx' = rest.
Proof.
  intros Hwf Hrem Hn Hstop Hdot Hfuel.
  destruct (scan_spec Py.isdigit n fuel "" lx rest) as
    (lx1 & Hscan & Hwf1 & Hrem1 & _); auto.
  { destruct Hn as [_ Hd].
    eapply string_forall_impl; [apply digit_isdigit | exact Hd]. }
  simpl append in Hscan.
  destruct Hn as [Hne Hd]. destruct n as [|c n]; [congruence|].
  pose proof (wf_current _ _ _ Hwf Hrem) as Hc.
  simpl in Hd. apply andb_true_iff in Hd as [Hdc Hdn].
  destruct (digit_dispatch c Hdc) as (H1 & H2 & H3 & H4 & H5).
  assert (Hno : Lexer.is_char "." (Lexer.current_char lx1)
                && negb (Lexer.is_char "." (Lexer.look_at_next_char lx1))
                = false).
  { unfold Lexer_wf in Hwf1. rewrite Hwf1, Hrem1.
    destruct rest as [|d r]; [reflexivity|]. simpl.
    destruct (Ascii.eqb d ".") eqn:E; [|reflexivity].
    apply Ascii.eqb_eq in E. subst d.
    rewrite (look_at_next_char_spec lx1 "." r Hrem1), (Hdot r eq_refl).
    reflexivity. }
  eexists. exists lx1. split; [|split; [|split]]; eauto.
  - cbn [Lexer.get_next_token]. rewrite Hc, H1, H2, H3, H4, H5.
    rewrite (digit_isdigit c Hdc). cbn [andb].
    unfold bind at 1. unfold Lexer.number.
    unfold bind at 1. rewrite Hscan.
    unfold bind at 1. unfold gets. rewrite Hno.
    unfold bind at 1. unfold lift.
    rewrite (int_of_literal (String c n)).
    + reflexivity.
    + split; [congruence|]. simpl. now rewrite Hdc, Hdn.
  - reflexivity.
Qed.

(** An integer literal followed by a dot and then by a character that
    is neither a digit nor a dot (or by the end of the input) is a
    REAL_CONST token: the dot belongs to the number. *)
Lemma lex_real_dot fuel lx n rest :
  Lexer_wf lx ->
  remaining lx = (n ++ String "." rest)%string ->
  integer_literal n ->
  stops (fun c => Py.isdigit c || Ascii.eqb c ".") rest ->
  String.length n <= fuel ->
  exists tok lx',
    Lexer.get_next_token (S fuel) lx = Return (Some tok) lx'
    /\ shape (Some tok)
       = Some (TokenType.REAL_CONST,
               VFloat (Py.float_of_decimal false (literal_value n) 0))
    /\ Lexer_wf lx' /\ remaining lx' = rest.
Proof.
  intros Hwf Hrem Hn Hstop Hfuel.
  destruct (scan_spec Py.isdigit n fuel "" lx (String "." rest)) as
    (lx1 & Hscan & Hwf1 & Hrem1 & _); auto.
  { destruct Hn as [_ Hd].
    eapply string_forall_impl; [apply digit_isdigit | exact Hd]. }
  { reflexivity. }
  simpl append in Hscan.
  pose proof (float_of_literal_dot n Hn) as Hfloat.
  destruct Hn as [Hne Hd]. destruct n as [|c n]; [congruence|].
  pose proof (wf_current _ _ _ Hwf Hrem) as Hc.
  simpl in Hd. apply andb_true_iff in Hd as [Hdc Hdn].
  destruct (digit_dispatch c Hdc) as (H1 & H2 & H3 & H4 & H5).
  assert (Hyes : Lexer.is_char "." (Lexer.current_char lx1)
                 && negb (Lexer.is_char "." (Lexer.look_at_next_char lx1))
                 = true).
  { rewrite (wf_current _ _ _ Hwf1 Hrem1).
    rewrite (look_at_next_char_spec lx1 "." rest Hrem1).
    destruct rest as [|d r]; [reflexivity|]. simpl in *.
    apply orb_false_iff in Hstop as [_ ->]. reflexivity. }
  assert (Hstop' : stops Py.isdigit rest).
  { destruct rest as [|d r]; simpl in *; auto.
    now apply orb_false_iff in Hstop as [-> _]. }
  destruct (scan_spec Py.isdigit "" fuel (String c n ++ ".")%string
              (Lexer.advance lx1) rest) as
    (lx2 & Hscan2 & Hwf2 & Hrem2 & _); auto.
  { apply advance_wf. }
  { eapply advance_remaining; eauto. }
  { simpl. lia. }
  rewrite append_empty_r in Hscan2.
  eexists. exists lx2. split; [|split; [|split]]; eauto.
  - cbn [Lexer.get_next_token]. rewrite Hc, H1, H2, H3, H4, H5.
    rewrite (digit_isdigit c Hdc). cbn [andb].
    unfold bind at 1. unfold Lexer.number.
    unfold bind at 1. rewrite Hscan.
    unfold bind at 1. unfold gets. rewrite Hyes.
    unfold bind at 1. unfold modify.
    unfold bind at 1. simpl append in Hscan2 |- *. rewrite Hscan2.
    unfold bind at 1. unfold lift. simpl append in Hfloat. rewrite Hfloat.
    reflexivity.
  - reflexivity.
Qed.

(** A dot that does not follow a number is a DOT token. *)
Lemma lex_dot fuel lx rest :
  Lexer_wf lx ->
  remaining lx = String "." rest ->
  exists tok lx',
    Lexer.get_next_token (S fuel) lx = Return (Some tok) lx'
    /\ shape (Some tok) = Some (TokenType.DOT, VStr ".")
    /\ Lexer_wf lx' /\ remaining lx' = rest.
Proof.
  intros Hwf Hrem. pose proof (wf_current _ _ _ Hwf Hrem) as Hc.
  eexists. exists (Lexer.advance lx). split; [|split; [|split]].
  - cbn [Lexer.get_next_token]. rewrite Hc. reflexivity.
  - reflexivity.
  - apply advance_wf.
  - eapply advance_remaining; eauto.
Qed.

(** At the end of the input the token is EOF. *)
Lemma lex_eof fuel lx :
  Lexer_wf lx ->
  remaining lx = EmptyString ->
  Lexer.get_next_token fuel lx = Return (Some Lexer.EOF_token) lx.
Proof.
  intros Hwf Hrem. pose proof (wf_current_end _ Hwf Hrem) as Hc.
  destruct fuel; cbn [Lexer.get_next_token]; now rewrite Hc.
Qed.

(* ------------------------------------------------------------------ *)
(** * Properties of the lexer *)

(** An identifier or keyword: a letter followed by letters and digits.
    After the token the lexer stands on the character that follows the
    lexeme in the source. *)
Lemma lex_id fuel lx name rest :
  Lexer_wf lx ->
  remaining lx = (name ++ rest)%string ->
  Lexer.current_is Py.isalpha lx = true ->
  string_forall Py.isalnum name = true ->
  stops Py.isalnum rest ->
  String.length name <= fuel ->
  exists tok lx',
    Lexer.get_next_token (S fuel) lx = Return (Some tok) lx'
    /\ shape (Some tok)
       = match RESERVED_KEYWORDS_get RESERVED_KEYWORDS (Py.upper name) with
         | None => Some (TokenType.ID, VStr name)
         | Some keyword => Some (keyword, VStr (Py.upper name))
         end
    /\ Lexer_wf lx' /\ remaining lx' = rest
    /\ Lexer.current_char lx' = head rest.
Proof.
  intros Hwf Hrem Halpha Hname Hstop Hfuel.
  destruct (scan_spec Py.isalnum name fuel "" lx rest) as
    (lx1 & Hscan & Hwf1 & Hrem1 & _); auto.
  simpl append in Hscan.
  unfold Lexer.current_is in Halpha.
  destruct (Lexer.current_char lx) as [c|] eqn:Hc; [|discriminate].
  destruct (alpha_dispatch c Halpha) as (H1 & H2 & H3 & H4).
  assert (Hget : exists tok,
    Lexer.get_next_token (S fuel) lx = Return (Some tok) lx1
    /\ shape (Some tok)
       = match RESERVED_KEYWORDS_get RESERVED_KEYWORDS (Py.upper name) with
         | None => Some (TokenType.ID, VStr name)
         | Some keyword => Some (keyword, VStr (Py.upper name))
         end).
  { cbn [Lexer.get_next_token]. rewrite Hc, H1, H2, H3, H4, Halpha.
    cbn [andb]. unfold bind at 1. unfold Lexer._id.
    unfold bind at 1. rewrite Hscan.
    destruct (RESERVED_KEYWORDS_get _ _); eexists; split; reflexivity. }
  destruct Hget as (tok & Hget & Hshape).
  exists tok, lx1. repeat split; auto.
  unfold Lexer_wf in Hwf1. now rewrite Hwf1, Hrem1.
Qed.

(** ** Unterminated comments *)

(** Without a closing brace ahead, the loop of [skip_comment] is still
    running when the fuel is used up, whatever the fuel. *)
Lemma skip_comment_loop_diverges fuel : forall lx,
  Lexer_wf lx ->
  string_forall not_closing (remaining lx) = true ->
  exists lx',
    while fuel (fun lx => negb (Lexer.is_char "}" (Lexer.current_char lx)))
      (modify Lexer.advance) lx = Timeout lx'.
Proof.
  induction fuel as [|fuel IH]; intros lx Hwf Hno.
  - exists lx. simpl. unfold Lexer_wf in Hwf. rewrite Hwf.
    destruct (remaining lx) as [|c r]; [reflexivity|].
    simpl in Hno. apply andb_true_iff in Hno as [Hc _].
    simpl. unfold not_closing in Hc. now rewrite Hc.
  - destruct (IH (Lexer.advance lx)) as (lx' & Hloop).
    + apply advance_wf.
    + destruct (remaining lx) as [|c r] eqn:Hrem.
      * now rewrite advance_remaining_empty.
      * rewrite (advance_remaining _ _ _ Hrem).
        simpl in Hno. now apply andb_true_iff in Hno as [_ Hr].
    + exists lx'. simpl. unfold Lexer_wf in Hwf. rewrite Hwf.
      assert (Hcond : negb (Lexer.is_char "}" (head (remaining lx))) = true).
      { destruct (remaining lx) as [|c r]; [reflexivity|].
        simpl in Hno. now apply andb_true_iff in Hno as [Hc _]. }
      rewrite Hcond. unfold bind at 1. unfold modify at 1. exact Hloop.
Qed.

(** A comment that is opened and never closed: asking for the next token
    gives no token and no error, for any amount of fuel. *)
Lemma unterminated_comment_no_answer fuel lx rest :
  Lexer_wf lx ->
  remaining lx = String "{" rest ->
  string_forall not_closing rest = true ->
  exists lx', Lexer.get_next_token fuel lx = Timeout lx'.
Proof.
  intros Hwf Hrem Hno. pose proof (wf_current _ _ _ Hwf Hrem) as Hc.
  destruct fuel as [|fuel]; cbn [Lexer.get_next_token]; rewrite Hc.
  - now exists lx.
  - cbn [Ascii.eqb Bool.eqb andb Py.isspace]. simpl.
    destruct (skip_comment_loop_diverges fuel (Lexer.advance lx))
      as (lx' & Hloop).
    + apply advance_wf.
    + now rewrite (advance_remaining _ _ _ Hrem).
    + exists lx'. unfold bind at 1. unfold modify at 1.
      unfold bind at 1. unfold Lexer.skip_comment. unfold bind at 1.
      now rewrite Hloop.
Qed.

Lemma unterminated_comment_no_answer_witness :
  exists lx',
    Lexer.get_next_token 9 (Lexer.mk 0 "{abc" 0 (Some "{"%char) 1 1)
    = Timeout lx'.
Proof.
  apply (unterminated_comment_no_answer 9 _ "abc"); reflexivity.
Defined.

(** C5.  A program text that opens with a comment that is never closed
    gets no answer from the pipeline, whatever the fuel: the lexer keeps
    advancing past the end of the input and raises nothing.  A string
    literal that is never closed makes the lexer return nothing instead
    of a token, without an error; the run then stops in the parser on an
    AttributeError, which [main] does not catch, and not on a lexical
    error. *)
Theorem unterminated_comment_and_string :
  (forall fuel flag,
     Main.main fuel flag "{ draft PROGRAM p; BEGIN END." = Main.NoAnswer)
  /\ (exists lx',
        Lexer.get_next_token 9 (Lexer.mk 0 "'abc" 0 (Some "'"%char) 1 1)
        = Return None lx')
  /\ (forall flag,
        Main.main 50 flag "PROGRAM p; VAR s: INTEGER; BEGIN s := 'abc END."
        = Main.Uncaught (AttributeError "type")).
Proof.
  split; [|split].
  - intros fuel flag. unfold Main.main, Main.parse.
    cbn [Lexer.__init__ String.get]. unfold Parser.__init__.
    unfold bind at 1. unfold Parser.get_next_token, zoom.
    cbn [Parser.lexer].
    destruct (unterminated_comment_no_answer fuel
                (Lexer.mk 0 "{ draft PROGRAM p; BEGIN END." 0
                   (Some "{"%char) 1 1)
                " draft PROGRAM p; BEGIN END.") as (lx' & ->);
      reflexivity.
  - eexists. vm_compute. reflexivity.
  - intros flag. destruct flag; vm_compute; reflexivity.
Qed.

(** ** Numbers and dots *)

Lemma shape_type tok ty v :
  shape (Some tok) = Some (ty, v) -> Token.type tok = ty.
Proof. simpl. congruence. Qed.

(** C6, the claim as stated fails: in [7.x] the literal 7 is followed by
    a dot and then by the non-digit x, and the lexer produces the
    REAL_CONST 7.0 and the identifier x; there is no INTEGER_CONST and no
    DOT token. *)
Lemma number_dot_nondigit_counterexample :
  exists lx toks lx',
    Lexer.__init__ "7.x" = Ok lx
    /\ Lexer.tokens 10 lx = Return toks lx'
    /\ map shape toks
       = [Some (TokenType.REAL_CONST,
                VFloat (S754_finite false 7881299347898368 (-50)));
          Some (TokenType.ID, VStr "x");
          Some (TokenType.EOF, VNone)].
Proof. do 3 eexists. repeat split; vm_compute; reflexivity. Qed.

(** C6, amended.  An integer literal [n] followed by a dot and then by a
    character that is neither a digit nor a dot (or by the end of the
    input) is lexed as one REAL_CONST token with the value of [n]: the
    dot is taken into the number.  The text [n..m] is lexed as
    INTEGER_CONST(n), DOT, DOT, INTEGER_CONST(m), and no REAL_CONST. *)
Theorem number_followed_by_dot (n m rest : string) (fuel : nat) :
  integer_literal n -> integer_literal m ->
  stops (fun c => Py.isdigit c || Ascii.eqb c ".") rest ->
  String.length n + String.length m + 6 <= fuel ->
  (exists lx tok lx',
     Lexer.__init__ (n ++ "." ++ rest) = Ok lx
     /\ Lexer.get_next_token fuel lx = Return (Some tok) lx'
     /\ shape (Some tok)
        = Some (TokenType.REAL_CONST,
                VFloat (Py.float_of_decimal false (literal_value n) 0))
     /\ remaining lx' = rest)
  /\ (exists lx toks lx',
        Lexer.__init__ (n ++ ".." ++ m) = Ok lx
        /\ Lexer.tokens fuel lx = Return toks lx'
        /\ map shape toks
           = [Some (TokenType.INTEGER_CONST, VInt (literal_value n));
              Some (TokenType.DOT, VStr ".");
              Some (TokenType.DOT, VStr ".");
              Some (TokenType.INTEGER_CONST, VInt (literal_value m));
              Some (TokenType.EOF, VNone)]).
Proof.
  intros Hn Hm Hstop Hfuel.
  assert (Hinit : forall tail, exists lx,
            Lexer.__init__ (n ++ tail) = Ok lx
            /\ Lexer_wf lx /\ remaining lx = (n ++ tail)%string).
  { intros tail. destruct Hn as [Hne _].
    destruct n as [|c n]; [congruence|].
    eexists. split; [reflexivity|]. split; reflexivity. }
  split.
  - destruct (Hinit ("." ++ rest)%string) as (lx & Hlx & Hwf & Hrem).
    destruct fuel as [|fuel]; [lia|].
    destruct (lex_real_dot fuel lx n rest) as (tok & lx' & H1 & H2 & _ & H3);
      auto; [lia|].
    exists lx, tok, lx'. auto.
  - destruct (Hinit (".." ++ m)%string) as (lx & Hlx & Hwf & Hrem).
    do 6 (destruct fuel as [|fuel]; [lia|]).
    destruct (lex_integer (S (S (S (S fuel)))) lx n (".." ++ m)%string)
      as (t1 & lx1 & G1 & S1 & Hwf1 & Hrem1); auto;
      [reflexivity | intros r [= <-]; reflexivity | lia |].
    destruct (lex_dot (S (S (S fuel))) lx1 ("." ++ m)%string)
      as (t2 & lx2 & G2 & S2 & Hwf2 & Hrem2); auto.
    destruct (lex_dot (S (S fuel)) lx2 m)
      as (t3 & lx3 & G3 & S3 & Hwf3 & Hrem3); auto.
    destruct (lex_integer (S fuel) lx3 m "")
      as (t4 & lx4 & G4 & S4 & Hwf4 & Hrem4); auto;
      [now rewrite append_empty_r | exact I | discriminate | lia |].
    pose proof (lex_eof (S fuel) lx4 Hwf4 Hrem4) as G5.
    exists lx, [Some t1; Some t2; Some t3; Some t4; Some Lexer.EOF_token], lx4.
    split; [exact Hlx|]. split.
    + cbn [Lexer.tokens]. rewrite G1, (shape_type _ _ _ S1).
      cbn [TokenType.eqb]. simpl (TokenType.eqb _ _).
      cbn [Lexer.tokens]. rewrite G2, (shape_type _ _ _ S2).
      simpl (TokenType.eqb _ _).
      cbn [Lexer.tokens]. rewrite G3, (shape_type _ _ _ S3).
      simpl (TokenType.eqb _ _).
      cbn [Lexer.tokens]. rewrite G4, (shape_type _ _ _ S4).
      simpl (TokenType.eqb _ _).
      cbn [Lexer.tokens]. rewrite G5. reflexivity.
    + cbn [map]. rewrite S1, S2, S3, S4. reflexivity.
Qed.

Lemma number_followed_by_dot_witness :
  (exists lx tok lx',
     Lexer.__init__ ("3" ++ "." ++ "x") = Ok lx
     /\ Lexer.get_next_token 20 lx = Return (Some tok) lx'
     /\ shape (Some tok)
        = Some (TokenType.REAL_CONST,
                VFloat (Py.float_of_decimal false (literal_value "3") 0))
     /\ remaining lx' = "x")
  /\ (exists lx toks lx',
        Lexer.__init__ ("3" ++ ".." ++ "5") = Ok lx
        /\ Lexer.tokens 20 lx = Return toks lx'
        /\ map shape toks
           = [Some (TokenType.INTEGER_CONST, VInt (literal_value "3"));
              Some (TokenType.DOT, VStr ".");
              Some (TokenType.DOT, VStr ".");
              Some (TokenType.INTEGER_CONST, VInt (literal_value "5"));
              Some (TokenType.EOF, VNone)]).
Proof.
  apply (number_followed_by_dot "3" "5" "x" 20).
  - split; [discriminate | reflexivity].
  - split; [discriminate | reflexivity].
  - reflexivity.
  - simpl. lia.
Defined.

(* ------------------------------------------------------------------ *)
(** * IF and WHILE at run time *)


Lemma log_stack flag msg st :
  Interpreter.call_stack (final_state (Interpreter.log flag msg st))
  = Interpreter.call_stack st.
Proof. unfold Interpreter.log. destruct flag; reflexivity. Qed.

(** Whatever its outcome, an IF leaves the call stack as it was. *)
Lemma if_statement_stack flag rel body els st :
  Interpreter.call_stack
    (final_state (Interpreter.visit_IfStatement flag rel body els st))
  = Interpreter.call_stack st.
Proof.
  relation_cases; cbn [final_state]; try reflexivity; apply log_stack.
Qed.

Lemma while_statement_stack flag rel body st :
  Interpreter.call_stack
    (final_state (Interpreter.visit_WhileStatement flag rel body st))
  = Interpreter.call_stack st.
Proof.
  relation_cases; cbn [final_state]; try reflexivity; apply log_stack.
Qed.

(** With the trace off an IF or a WHILE changes nothing at all. *)
Lemma if_statement_trace_off rel body els st :
  final_state (Interpreter.visit_IfStatement false rel body els st) = st.
Proof. relation_cases; reflexivity. Qed.

Lemma while_statement_trace_off rel body st :
  final_state (Interpreter.visit_WhileStatement false rel body st) = st.
Proof. relation_cases; reflexivity. Qed.

(** ** The relation, and what is reported *)

Lemma log_traced flag msg st :
  Interpreter.log flag msg st = Return tt (traced flag [msg] st).
Proof.
  unfold Interpreter.log, traced. destruct flag; [reflexivity|].
  destruct st. cbn. now rewrite app_nil_r.
Qed.

(** On two integers the test selected by the operator is the
    comparison of the integers. *)
Lemma relation_test_integer ty a b holds :
  integer_relation ty a b = Some holds ->
  exists test,
    Interpreter.relation_test ty = Some test
    /\ test (VInt a) (VInt b) = Ok holds.
Proof.
  destruct ty; try discriminate; intros [= <-]; eexists;
    (split; [reflexivity|]);
    unfold Py.lt, Py.le, Py.gt, Py.ge, Py.ordering, Py.eq, Py.compare, rbind;
    try (unfold Z.ltb, Z.leb, Z.gtb, Z.geb; now destruct (a ?= b)%Z).
  f_equal. destruct (Z.compare_spec a b) as [->|H|H].
  - now rewrite Z.eqb_refl.
  - symmetry. apply Z.eqb_neq. lia.
  - symmetry. apply Z.eqb_neq. lia.
Qed.

(** An operator that is not a comparison selects no test. *)
Lemma relation_test_other ty :
  ~ In ty (TokenType.EQUAL :: orderings) ->
  Interpreter.relation_test ty = None.
Proof.
  intros H. destruct ty; try reflexivity; exfalso; apply H; cbn; tauto.
Qed.

(** An ordering of an integer and a string is a type error. *)
Lemma relation_test_name ty a y :
  In ty orderings ->
  exists test,
    Interpreter.relation_test ty = Some test
    /\ test (VInt a) (VStr y) = Err TypeError.
Proof.
  intros [<-|[<-|[<-|[<-|[]]]]]; eexists; split; reflexivity.
Qed.

(** Only an assignment has the attributes that are read from the
    statement selected. *)
Lemma branch_fields_other selected :
  (forall l op r, selected <> Some (Assign l op r)) ->
  Interpreter.branch_fields selected = Err (AttributeError "left").
Proof.
  intros H. destruct selected as [[]|]; try reflexivity.
  now elim (H left op right).
Qed.

Section Relation.
Variable flag : bool.
Variables left_ right_ : Expr.
Variable token : Token.t.
Variable body : Stmt.
Variable els : option Stmt.
Variable st : Interpreter.t.

Lemma if_left_fails e :
  Interpreter.visit_Expr left_ (Interpreter.call_stack st) = Err e ->
  Interpreter.visit_IfStatement flag (Relation left_ token right_)
    body els st
  = Raised e st.
Proof.
  intros H. cbv beta iota zeta delta
    [Interpreter.visit_IfStatement bind Interpreter.visit gets lift].
  now rewrite H.
Qed.

Lemma while_left_fails e :
  Interpreter.visit_Expr left_ (Interpreter.call_stack st) = Err e ->
  Interpreter.visit_WhileStatement flag (Relation left_ token right_)
    body st
  = Raised e st.
Proof.
  intros H. cbv beta iota zeta delta
    [Interpreter.visit_WhileStatement bind Interpreter.visit gets lift].
  now rewrite H.
Qed.

Lemma if_right_fails v e :
  Interpreter.visit_Expr left_ (Interpreter.call_stack st) = Ok v ->
  Expr_value right_ = Err e ->
  Interpreter.visit_IfStatement flag (Relation left_ token right_)
    body els st
  = Raised e st.
Proof.
  intros Hl Hr. cbv beta iota zeta delta
    [Interpreter.visit_IfStatement bind Interpreter.visit gets lift].
  now rewrite Hl, Hr.
Qed.

Lemma while_right_fails v e :
  Interpreter.visit_Expr left_ (Interpreter.call_stack st) = Ok v ->
  Expr_value right_ = Err e ->
  Interpreter.visit_WhileStatement flag (Relation left_ token right_)
    body st
  = Raised e st.
Proof.
  intros Hl Hr. cbv beta iota zeta delta
    [Interpreter.visit_WhileStatement bind Interpreter.visit gets lift].
  now rewrite Hl, Hr.
Qed.

(** Once the left side has been evaluated and the attribute of the
    right side has been read, the statement is the test and the
    report. *)
Lemma if_compares v w :
  Interpreter.visit_Expr left_ (Interpreter.call_stack st) = Ok v ->
  Expr_value right_ = Ok w ->
  Interpreter.visit_IfStatement flag (Relation left_ token right_)
    body els st
  = match Interpreter.relation_test (Token.type token) with
    | Some test =>
        match test v w with
        | Ok holds =>
            match Interpreter.branch_fields
                    (if holds : bool then Some body else els) with
            | Ok (l, r) => Return tt (traced flag [IF_RESULT l r] st)
            | Err e => Raised e st
            end
        | Err e => Raised e st
        end
    | None => Return tt st
    end.
Proof.
  intros Hl Hr. cbv beta iota zeta delta
    [Interpreter.visit_IfStatement bind Interpreter.visit gets lift].
  rewrite Hl, Hr.
  destruct (Interpreter.relation_test _) as [test|]; [|reflexivity].
  destruct (test v w) as [holds|e]; [|reflexivity].
  destruct (Interpreter.branch_fields _) as [[l r]|e]; [|reflexivity].
  apply log_traced.
Qed.

Lemma while_compares v w :
  Interpreter.visit_Expr left_ (Interpreter.call_stack st) = Ok v ->
  Expr_value right_ = Ok w ->
  Interpreter.visit_WhileStatement flag (Relation left_ token right_)
    body st
  = match Interpreter.relation_test (Token.type token) with
    | Some test =>
        match test v w with
        | Ok true =>
            match Interpreter.branch_fields (Some body) with
            | Ok (l, r) => Return tt (traced flag [WHILE_RESULT l r] st)
            | Err e => Raised e st
            end
        | Ok false => Return tt st
        | Err e => Raised e st
        end
    | None => Return tt st
    end.
Proof.
  intros Hl Hr. cbv beta iota zeta delta
    [Interpreter.visit_WhileStatement bind Interpreter.visit gets lift].
  rewrite Hl, Hr.
  destruct (Interpreter.relation_test _) as [test|]; [|reflexivity].
  destruct (test v w) as [[|]|e]; try reflexivity.
  destruct (Interpreter.branch_fields _) as [[l r]|e]; [|reflexivity].
  apply log_traced.
Qed.
End Relation.



(* ------------------------------------------------------------------ *)
(** * Running programs *)

(** C3, the claim as stated fails: the run of the scenario, with the
    trace switched off as it is by default, prints nothing at all, so
    no line [done] is emitted. *)
Lemma scenario_prints_nothing_counterexample :
  exists final,
    Main.main 50 false scenario = Main.Completed final
    /\ Interpreter.output final = [].
Proof. eexists. split; vm_compute; reflexivity. Qed.

(** C3, amended.  The scenario parses, passes semantic analysis, and
    runs to completion; the block, run over the record of the program,
    leaves x bound to 14 in that record, and the record is popped at the
    end.  WRITELN('done') writes no output line: with the trace off
    nothing is printed, and with the trace on the statement shows as one
    trace message between the dumps of the call stack. *)
Theorem scenario_end_to_end :
  exists tree parser block analyzer,
    Main.parse 50 scenario = Return tree (Some parser)
    /\ Main.analyze tree = Return (Program (VStr "p") block) analyzer
    /\ (forall flag,
          Interpreter.call_stack
            (final_state
               (Interpreter.visit_Block (SemanticAnalyzer.store analyzer)
                  flag 50 block (Interpreter.mk [program_record []] [])))
          = [program_record [(VStr "x", VInt 14)]])
    /\ Main.main 50 false scenario
       = Main.Completed (Interpreter.mk [] [])
    /\ Main.main 50 true scenario
       = Main.Completed
           (Interpreter.mk []
              [ENTER ARType.PROGRAM (VStr "p");
               CALL_STACK [program_record []];
               WRITE_TRACE TokenType.WRITELN (VStr "done");
               LEAVE ARType.PROGRAM (VStr "p");
               CALL_STACK [program_record [(VStr "x", VInt 14)]]]).
Proof.
  do 4 eexists. split; [vm_compute; reflexivity|].
  split; [vm_compute; reflexivity|].
  split; [intros []; vm_compute; reflexivity|].
  split; vm_compute; reflexivity.
Qed.

(** ** Reading a variable that the top record does not hold *)

(** C8, the claim as stated fails: the program passes analysis, the body
    of q reads x, which the record of q does not hold, and the run
    completes without an error; the read gave None, which was stored
    in b. *)
Lemma absent_variable_counterexample :
  Main.main 60 true nested_read
  = Main.Completed
      (Interpreter.mk []
         [ENTER ARType.PROGRAM (VStr "p");
          CALL_STACK [program_record []];
          ENTER ARType.PROCEDURE (VStr "q");
          CALL_STACK [procedure_record [(VStr "a", VInt 5)];
                      program_record [(VStr "x", VInt 1)]];
          LEAVE ARType.PROCEDURE (VStr "q");
          CALL_STACK [procedure_record [(VStr "a", VInt 5); (VStr "b", VNone)];
                      program_record [(VStr "x", VInt 1)]];
          LEAVE ARType.PROGRAM (VStr "p");
          CALL_STACK [program_record [(VStr "x", VInt 1)]]]).
Proof. vm_compute. reflexivity. Qed.

(** None is not ordered with anything, and equals only None. *)
Lemma relation_test_None ty w :
  In ty orderings ->
  exists test,
    Interpreter.relation_test ty = Some test
    /\ test VNone w = Err TypeError.
Proof.
  intros [<-|[<-|[<-|[<-|[]]]]]; eexists; split; reflexivity.
Qed.

Lemma eq_None w : w <> VNone -> Py.eq VNone w = false.
Proof. intros H. destruct w; try reflexivity. now elim H. Qed.

(** C8, amended.  Reading a variable that is absent from the record on
    top of the stack raises nothing: the read yields None and execution
    goes on, so an assignment of that variable stores None in its
    target.  An error comes when the None is used: it is a TypeError
    when the None is the left operand of an arithmetic operator, or the
    left side of an ordering ([<], [<=], [>], [>=]) in the relation of
    an IF or of a WHILE.  In an equality the None raises nothing: it
    differs from what stands on the right, so that the WHILE does
    nothing and the IF selects its ELSE statement. *)
Theorem absent_variable_reads_None token ar rest :
  Dict.get (ActivationRecord.members ar) (Token.value token) = None ->
  Interpreter.visit_Expr (Var token) (ar :: rest) = Ok VNone
  /\ (forall store flag fuel target op name out,
        Expr_value target = Ok name ->
        Interpreter.visit_Stmt store flag (S fuel)
          (Assign target op (Var token)) (Interpreter.mk (ar :: rest) out)
        = Return tt
            (Interpreter.mk
               (ActivationRecord.__setitem__ ar name VNone :: rest) out))
  /\ (forall op right_ v,
        In (Token.type op) arithmetic ->
        Interpreter.visit_Expr right_ (ar :: rest) = Ok v ->
        Interpreter.visit_Expr (BinOp (Var token) op right_) (ar :: rest)
        = Err TypeError)
  /\ (forall store flag fuel name op right_ w body els out,
        In (Token.type op) orderings ->
        Expr_value right_ = Ok w ->
        let st := Interpreter.mk (ar :: rest) out in
        let rel := Relation (Var token) op right_ in
        Interpreter.visit_Stmt store flag (S fuel)
          (IfStatement name rel body els) st
        = Raised TypeError st
        /\ Interpreter.visit_Stmt store flag (S fuel)
             (WhileStatement name rel body) st
           = Raised TypeError st)
  /\ (forall store flag fuel name op right_ w body els out,
        Token.type op = TokenType.EQUAL ->
        Expr_value right_ = Ok w ->
        w <> VNone ->
        let st := Interpreter.mk (ar :: rest) out in
        let rel := Relation (Var token) op right_ in
        Interpreter.visit_Stmt store flag (S fuel)
          (WhileStatement name rel body) st
        = Return tt st
        /\ Interpreter.visit_Stmt store flag (S fuel)
             (IfStatement name rel body els) st
           = match Interpreter.branch_fields els with
             | Ok (target, value) =>
                 Return tt (traced flag [IF_RESULT target value] st)
             | Err e => Raised e st
             end).
Proof.
  intros Habsent.
  assert (Hread : Interpreter.visit_Expr (Var token) (ar :: rest) = Ok VNone).
  { simpl. unfold Interpreter.visit_Var, ActivationRecord.get. simpl.
    now rewrite Habsent. }
  split; [exact Hread|]. split; [|split; [|split]].
  - intros store flag fuel target op name out Hname.
    cbn [Interpreter.visit_Stmt]. unfold Interpreter.visit_Assign.
    cbv beta iota zeta delta [bind lift Interpreter.visit gets modify].
    rewrite Hname. cbn [Interpreter.call_stack]. rewrite Hread.
    reflexivity.
  - intros op right_ v Hop Hright.
    cbn [Interpreter.visit_Expr]. fold (Interpreter.visit_Expr (Var token)).
    change (Interpreter.visit_Var token (ar :: rest))
      with (Interpreter.visit_Expr (Var token) (ar :: rest)).
    rewrite Hread, Hright.
    simpl in Hop.
    destruct Hop as [<- | [<- | [<- | [<- | [<- | []]]]]];
      destruct v; reflexivity.
  - intros store flag fuel name op right_ w body els out Hop Hright st rel.
    subst rel. cbn [Interpreter.visit_Stmt].
    rewrite (if_compares flag _ _ _ _ _ st VNone w Hread Hright).
    rewrite (while_compares flag _ _ _ _ st VNone w Hread Hright).
    destruct (relation_test_None _ w Hop) as (test & -> & ->).
    now split.
  - intros store flag fuel name op right_ w body els out Hop Hright Hw st rel.
    subst rel. cbn [Interpreter.visit_Stmt].
    rewrite (if_compares flag _ _ _ _ _ st VNone w Hread Hright).
    rewrite (while_compares flag _ _ _ _ st VNone w Hread Hright).
    rewrite Hop. cbn [Interpreter.relation_test].
    rewrite (eq_None _ Hw). split; [reflexivity|].
    now destruct (Interpreter.branch_fields els) as [[target value]|e].
Qed.

Lemma absent_variable_reads_None_witness :
  let x := Token.mk TokenType.ID (VStr "x") (Some 1) (Some 1) in
  Interpreter.visit_Expr (Var x) [procedure_record [(VStr "a", VInt 5)]]
  = Ok VNone.
Proof.
  apply (absent_variable_reads_None
           (Token.mk TokenType.ID (VStr "x") (Some 1) (Some 1))
           (procedure_record [(VStr "a", VInt 5)]) []).
  reflexivity.
Defined.

(** ** Division *)

(** C4, the claim as stated fails: [-7 DIV 2] evaluates to -4, the
    quotient rounded down, where truncation toward zero gives -3. *)
Lemma integer_division_counterexample :
  Main.main 50 true "PROGRAM p; VAR q: INTEGER; BEGIN q := -7 DIV 2 END."
  = Main.Completed
      (Interpreter.mk []
         [ENTER ARType.PROGRAM (VStr "p");
          CALL_STACK [program_record []];
          LEAVE ARType.PROGRAM (VStr "p");
          CALL_STACK [program_record [(VStr "q", VInt (-4))]]])
  /\ Z.quot (-7) 2 = (-3)%Z.
Proof. split; vm_compute; reflexivity. Qed.

(* ------------------------------------------------------------------ *)
(** * The float of a nonzero integer is not zero *)

Section Rounding.
Local Open Scope Z_scope.

Lemma digits2_lower p : 2 ^ (Z.pos (digits2_pos p) - 1) <= Z.pos p.
Proof.
  induction p as [p IH|p IH|]; cbn [digits2_pos].
  - rewrite Pos2Z.inj_succ.
    replace (Z.succ (Z.pos (digits2_pos p)) - 1)
      with (Z.succ (Z.pos (digits2_pos p) - 1)) by lia.
    rewrite Z.pow_succ_r by lia. lia.
  - rewrite Pos2Z.inj_succ.
    replace (Z.succ (Z.pos (digits2_pos p)) - 1)
      with (Z.succ (Z.pos (digits2_pos p) - 1)) by lia.
    rewrite Z.pow_succ_r by lia. lia.
  - reflexivity.
Qed.

Lemma shr_1_m mrs : 0 <= shr_m mrs ->
  shr_m (shr_1 mrs) = Z.shiftr (shr_m mrs) 1.
Proof.
  destruct mrs as [m r s]. cbn [shr_m shr_1].
  rewrite <- Z.div2_spec.
  destruct m as [|[p|p|]|p]; try reflexivity; lia.
Qed.

Lemma iter_shr_m n : forall mrs, 0 <= shr_m mrs ->
  shr_m (iter_pos shr_1 n mrs) = Z.shiftr (shr_m mrs) (Z.pos n).
Proof.
  induction n as [n IH|n IH|]; intros mrs Hm; cbn [iter_pos].
  - assert (H1 : 0 <= shr_m (shr_1 mrs))
      by (rewrite shr_1_m by auto; now apply Z.shiftr_nonneg).
    assert (H2 : 0 <= shr_m (iter_pos shr_1 n (shr_1 mrs)))
      by (rewrite IH by auto; now apply Z.shiftr_nonneg).
    rewrite IH, IH, shr_1_m by auto.
    rewrite !Z.shiftr_shiftr by lia. f_equal. lia.
  - assert (H2 : 0 <= shr_m (iter_pos shr_1 n mrs))
      by (rewrite IH by auto; now apply Z.shiftr_nonneg).
    rewrite IH, IH by auto.
    rewrite !Z.shiftr_shiftr by lia. f_equal. lia.
  - now apply shr_1_m.
Qed.

Lemma shr_record_m m l : shr_m (shr_record_of_loc m l) = m.
Proof. destruct l as [|[]]; reflexivity. Qed.

(** Shifting out fewer bits than the number has leaves it positive. *)
Lemma shr_positive m e l n : 0 < m -> n < Zdigits2 m ->
  0 < shr_m (fst (shr (shr_record_of_loc m l) e n)).
Proof.
  intros Hm Hn. unfold shr.
  destruct n as [|p|p]; cbn [fst]; rewrite ?shr_record_m; auto.
  rewrite iter_shr_m by (rewrite shr_record_m; lia).
  rewrite shr_record_m, Z.shiftr_div_pow2 by lia.
  destruct m as [|q|q]; try lia. cbn [Zdigits2] in Hn.
  pose proof (digits2_lower q) as Hq.
  apply Z.div_str_pos. split; [apply Z.pow_pos_nonneg; lia|].
  etransitivity; [|exact Hq]. apply Z.pow_le_mono_r; lia.
Qed.

Lemma shr_fexp_positive m e l : 0 < m -> float_emin <= e ->
  0 < shr_m (fst (shr_fexp Py.prec Py.emax m e l))
  /\ float_emin <= snd (shr_fexp Py.prec Py.emax m e l).
Proof.
  intros Hm He. unfold shr_fexp.
  set (n := SpecFloat.fexp Py.prec Py.emax (Zdigits2 m + e) - e).
  assert (Hd : 0 < Zdigits2 m) by (destruct m; cbn; lia).
  assert (Hn : n < Zdigits2 m).
  { subst n.
    unfold float_emin, SpecFloat.fexp, SpecFloat.emin, Py.prec, Py.emax in *.
    lia. }
  split; [now apply shr_positive|].
  unfold shr. destruct n; cbn [snd]; unfold float_emin in *; lia.
Qed.

Lemma round_nearest_even_positive m l :
  0 < m -> 0 < round_nearest_even m l.
Proof.
  intros Hm. unfold round_nearest_even.
  destruct l as [|[]]; try destruct (Z.even m); lia.
Qed.

Lemma binary_round_aux_nonzero sx m e l : 0 < m -> float_emin <= e ->
  Py.is_zero (binary_round_aux Py.prec Py.emax sx m e l) = false.
Proof.
  intros Hm He. unfold binary_round_aux.
  destruct (shr_fexp_positive m e l Hm He) as [H1 H2].
  destruct (shr_fexp Py.prec Py.emax m e l) as [mrs' e'].
  cbn [fst snd] in H1, H2.
  pose proof (round_nearest_even_positive _ (loc_of_shr_record mrs') H1)
    as H3.
  destruct (shr_fexp_positive _ e' loc_Exact H3 H2) as [H4 _].
  destruct (shr_fexp Py.prec Py.emax _ e' loc_Exact) as [mrs'' e''].
  cbn [fst] in H4.
  destruct (shr_m mrs''); try lia.
  destruct (_ <=? _); reflexivity.
Qed.

Lemma binary_round_nonzero sx p :
  Py.is_zero (binary_round Py.prec Py.emax sx p 0) = false.
Proof.
  unfold binary_round, shl_align.
  set (f := SpecFloat.fexp Py.prec Py.emax (Z.pos (digits2_pos p) + 0)).
  assert (Hf : float_emin <= f)
    by (subst f; unfold float_emin, SpecFloat.fexp; lia).
  destruct (f - 0) eqn:E; apply binary_round_aux_nonzero; try lia;
    unfold float_emin, SpecFloat.emin, Py.prec, Py.emax; lia.
Qed.

Lemma float_of_int_nonzero b f :
  b <> 0 -> Py.float_of_int b = Ok f -> Py.is_zero f = false.
Proof.
  intros Hb. unfold Py.float_of_int, binary_normalize.
  destruct b as [|p|p]; [congruence| |].
  - pose proof (binary_round_nonzero false p) as H.
    destruct (binary_round _ _ false p 0); intros [= <-];
      try reflexivity; discriminate.
  - pose proof (binary_round_nonzero true p) as H.
    destruct (binary_round _ _ true p 0); intros [= <-];
      try reflexivity; discriminate.
Qed.
End Rounding.

(** C4, amended.  For operands that evaluate to the integers [a] and [b]
    with [b] nonzero, [a DIV b] evaluates to the floor of the quotient
    (the quotient rounded toward minus infinity), which is the quotient
    truncated toward zero when the operands have the same sign; and
    [a / b] evaluates to the binary64 quotient of the two operands
    converted to binary64, provided each of them is small enough to be
    converted. *)
Theorem division_floor_and_real (left_ right_ : Expr) (op : Token.t)
    (stack : CallStack.t) (a b : Z) :
  Interpreter.visit_Expr left_ stack = Ok (VInt a) ->
  Interpreter.visit_Expr right_ stack = Ok (VInt b) ->
  b <> 0%Z ->
  (Token.type op = TokenType.INTEGER_DIV ->
   Interpreter.visit_Expr (BinOp left_ op right_) stack = Ok (VInt (a / b)))
  /\ (0 < b -> b * (a / b) <= a < b * (a / b) + b)%Z
  /\ (b < 0 -> b * (a / b) + b < a <= b * (a / b))%Z
  /\ ((0 <= a /\ 0 < b) \/ (a <= 0 /\ b < 0) -> a / b = Z.quot a b)%Z
  /\ (Token.type op = TokenType.FLOAT_DIV ->
      forall fa fb,
        Py.float_of_int a = Ok fa -> Py.float_of_int b = Ok fb ->
        Interpreter.visit_Expr (BinOp left_ op right_) stack
        = Ok (VFloat (Py.fdiv fa fb))).
Proof.
  intros Ha Hb Hnz. repeat split.
  - intros Hop. cbn [Interpreter.visit_Expr]. rewrite Hop, Ha, Hb.
    cbn [rbind Py.floordiv Py.numeric].
    apply Z.eqb_neq in Hnz. now rewrite Hnz.
  - pose proof (Z.div_mod a b Hnz). pose proof (Z.mod_pos_bound a b H). lia.
  - pose proof (Z.div_mod a b Hnz). pose proof (Z.mod_pos_bound a b H). lia.
  - pose proof (Z.div_mod a b Hnz). pose proof (Z.mod_neg_bound a b H). lia.
  - pose proof (Z.div_mod a b Hnz). pose proof (Z.mod_neg_bound a b H). lia.
  - intros [[H1 H2] | [H1 H2]].
    + symmetry. apply Z.quot_div_nonneg; lia.
    + rewrite <- (Z.opp_involutive a), <- (Z.opp_involutive b) at 1.
      rewrite Z.div_opp_opp by lia.
      rewrite <- (Z.quot_opp_opp a b) by lia.
      symmetry. apply Z.quot_div_nonneg; lia.
  - intros Hop fa fb Hfa Hfb.
    cbn [Interpreter.visit_Expr]. rewrite Hop, Ha, Hb.
    cbn [rbind Py.float]. rewrite Hfa, Hfb. cbn [rbind].
    unfold Py.truediv. now rewrite (float_of_int_nonzero b fb Hnz Hfb).
Qed.

Lemma division_floor_and_real_witness :
  let number n := Num (Token.mk TokenType.INTEGER_CONST (VInt n)
                         (Some 1) (Some 1)) in
  let operator ty := Token.mk ty (VStr (TokenType.value ty))
                       (Some 1) (Some 3) in
  Interpreter.visit_Expr
    (BinOp (number 7%Z) (operator TokenType.INTEGER_DIV) (number 2%Z)) []
  = Ok (VInt 3)
  /\ Interpreter.visit_Expr
       (BinOp (number 7%Z) (operator TokenType.FLOAT_DIV) (number 2%Z)) []
     = Ok (VFloat (S754_finite false 7881299347898368 (-51))).
Proof.
  intros number operator. split.
  - apply (proj1 (division_floor_and_real (number 7%Z) (number 2%Z)
                    (operator TokenType.INTEGER_DIV) [] 7 2
                    eq_refl eq_refl ltac:(discriminate))).
    reflexivity.
  - apply (proj2 (proj2 (proj2 (proj2
             (division_floor_and_real (number 7%Z) (number 2%Z)
                (operator TokenType.FLOAT_DIV) [] 7 2
                eq_refl eq_refl ltac:(discriminate)))))
             eq_refl
             (S754_finite false 7881299347898368 (-50))
             (S754_finite false 4503599627370496 (-51))
             eq_refl eq_refl).
Defined.

(* ------------------------------------------------------------------ *)
(** * Symbol tables *)

Lemma Py_eq_str s t : Py.eq (VStr s) (VStr t) = String.eqb s t.
Proof.
  unfold Py.eq. cbn [Py.compare].
  destruct (String.eqb_spec s t) as [->|Hne].
  - pose proof (String.compare_antisym t t) as H.
    destruct (String.compare t t); [reflexivity | discriminate..].
  - destruct (String.compare s t) eqn:E; try reflexivity.
    apply String.compare_eq_iff in E. contradiction.
Qed.

(** Only the same string is equal to a string. *)
Lemma Py_eq_str_inv k s : Py.eq k (VStr s) = true -> k = VStr s.
Proof.
  destruct k as [|z|f|t|e]; try discriminate.
  rewrite Py_eq_str. intros H. apply String.eqb_eq in H. now subst.
Qed.

Lemma Dict_get_set_same {V} (d : Dict.t V) name v :
  Dict.get (Dict.set d (VStr name) v) (VStr name) = Some v.
Proof.
  induction d as [|[k0 v0] d IH]; cbn [Dict.set Dict.get].
  - now rewrite Py_eq_str, String.eqb_refl.
  - destruct (Py.eq k0 (VStr name)) eqn:E; cbn [Dict.get]; now rewrite E.
Qed.

Lemma Dict_get_set_other {V} (d : Dict.t V) name other v :
  other <> name ->
  Dict.get (Dict.set d (VStr name) v) (VStr other) = Dict.get d (VStr other).
Proof.
  intros Hne.
  induction d as [|[k0 v0] d IH]; cbn [Dict.set Dict.get].
  - rewrite Py_eq_str. apply String.eqb_neq in Hne.
    now rewrite String.eqb_sym, Hne.
  - destruct (Py.eq k0 (VStr name)) eqn:E; cbn [Dict.get].
    + apply Py_eq_str_inv in E. subst k0. rewrite Py_eq_str.
      apply String.eqb_neq in Hne. now rewrite String.eqb_sym, Hne.
    + now rewrite IH.
Qed.

(** An entry that is present stays present when a key is set. *)
Lemma Dict_get_set_present {V} (d : Dict.t V) k0 v k :
  Dict.get d k <> None -> Dict.get (Dict.set d k0 v) k <> None.
Proof.
  induction d as [|[k1 v1] d IH]; cbn [Dict.set Dict.get]; [congruence|].
  intros H. destruct (Py.eq k1 k0); cbn [Dict.get];
    destruct (Py.eq k1 k); auto; congruence.
Qed.

(** C7, the claim as stated fails: after a symbol has been inserted
    under the name [x], the lookup of [X] finds nothing; and the program
    that declares [x] and assigns to [X] is rejected by the analyzer,
    which does not find [X]. *)
Lemma case_insensitive_counterexample :
  ScopedSymbolTable.lookup
    (ScopedSymbolTable.insert
       (VarSymbol (VStr "x") (Some (BuiltinTypeSymbol "INTEGER")))
       global_scope)
    (VStr "X") = None
  /\ Main.main 50 false "PROGRAM p; VAR x: INTEGER; BEGIN X := 1 END."
     = Main.Exit1
         (SemanticError ID_NOT_FOUND
            (Token.mk TokenType.ID (VStr "X") (Some 1) (Some 34))).
Proof. split; vm_compute; reflexivity. Qed.

(** C7, amended.  A table files a symbol under the exact string of its
    name.  The lookup of that same string returns the symbol, in the
    scope of the insertion and from a nested scope that has no entry of
    its own for the string; the lookup of any other string, for instance
    one that differs in letter case only, is not changed by the
    insertion. *)
Theorem symbol_names_are_exact (table : ScopedSymbolTable.t)
    (symbol : Symbol) (name : string) :
  Symbol_name symbol = VStr name ->
  ScopedSymbolTable.lookup (ScopedSymbolTable.insert symbol table) (VStr name)
  = Some symbol
  /\ (forall symbols scope_name level,
        Dict.get symbols (VStr name) = None ->
        ScopedSymbolTable.lookup
          (ScopedSymbolTable.mk symbols scope_name level
             (Some (ScopedSymbolTable.insert symbol table)))
          (VStr name)
        = Some symbol)
  /\ (forall other, other <> name ->
        ScopedSymbolTable.lookup (ScopedSymbolTable.insert symbol table)
          (VStr other)
        = ScopedSymbolTable.lookup table (VStr other)).
Proof.
  intros Hname.
  assert (Hsame : ScopedSymbolTable.lookup
                    (ScopedSymbolTable.insert symbol table) (VStr name)
                  = Some symbol).
  { destruct table as [d n l e]. unfold ScopedSymbolTable.insert.
    cbn [ScopedSymbolTable._symbols ScopedSymbolTable.scope_name
         ScopedSymbolTable.scope_level ScopedSymbolTable.enclosing_scope
         ScopedSymbolTable.lookup].
    now rewrite Hname, Dict_get_set_same. }
  split; [exact Hsame|]. split.
  - intros symbols scope_name level Hnone.
    cbn [ScopedSymbolTable.lookup]. rewrite Hnone. exact Hsame.
  - intros other Hne. destruct table as [d n l e].
    unfold ScopedSymbolTable.insert.
    cbn [ScopedSymbolTable._symbols ScopedSymbolTable.scope_name
         ScopedSymbolTable.scope_level ScopedSymbolTable.enclosing_scope
         ScopedSymbolTable.lookup].
    now rewrite Hname, Dict_get_set_other.
Qed.

Lemma symbol_names_are_exact_witness :
  ScopedSymbolTable.lookup
    (ScopedSymbolTable.insert (VarSymbol (VStr "x") None) global_scope)
    (VStr "x")
  = Some (VarSymbol (VStr "x") None).
Proof.
  apply (symbol_names_are_exact global_scope (VarSymbol (VStr "x") None) "x").
  reflexivity.
Defined.

(* ------------------------------------------------------------------ *)
(** * Statements that begin with an identifier *)

Lemma statement_on_identifier fuel p tok :
  Parser.current_token p = Some tok ->
  Token.type tok = TokenType.ID ->
  Parser.statement (S fuel) p
  = if Lexer.is_char "(" (Lexer.current_char (Parser.lexer p))
    then Parser.proccall_statement fuel p
    else Parser.assignment_statement fuel p.
Proof.
  intros Hcur Hty. cbn [Parser.statement].
  cbv beta iota zeta delta
    [bind Parser.current_type Parser.the_token ret gets].
  rewrite Hcur. cbv beta iota. rewrite Hty.
  now destruct (Lexer.is_char _ _).
Qed.

Lemma eat_mismatch fuel p tok ty :
  Parser.current_token p = Some tok ->
  Token.type tok <> ty ->
  forall A (k : unit -> M Parser.t A),
    bind (Parser.eat fuel ty) k p
    = Raised (ParserError UNEXPECTED_TOKEN tok) p.
Proof.
  intros Hcur Hty A k.
  cbv beta iota zeta delta [bind Parser.eat Parser.the_token].
  rewrite Hcur. cbv beta iota.
  now rewrite (TokenType_eqb_neq _ _ Hty).
Qed.

Lemma assignment_before_parenthesis fuel p tok tok2 lx' :
  Parser.current_token p = Some tok ->
  Token.type tok = TokenType.ID ->
  Lexer.get_next_token fuel (Parser.lexer p) = Return (Some tok2) lx' ->
  Token.type tok2 = TokenType.LPAREN ->
  Parser.assignment_statement fuel p
  = Raised (ParserError UNEXPECTED_TOKEN tok2) (Parser.mk lx' (Some tok2)).
Proof.
  intros Hcur Hty Hnext Hty2.
  unfold Parser.assignment_statement.
  assert (Hvar : Parser.variable fuel p
                 = Return (Var tok) (Parser.mk lx' (Some tok2))).
  { cbv beta iota zeta delta
      [Parser.variable bind Parser.eat Parser.the_token
       Parser.get_next_token zoom modify ret].
    rewrite Hcur. cbv beta iota. rewrite Hcur. cbv beta iota.
    rewrite Hty, TokenType_eqb_refl. cbv beta iota.
    rewrite Hnext. reflexivity. }
  unfold bind at 1. rewrite Hvar.
  unfold bind at 1. unfold Parser.the_token at 1.
  cbn [Parser.current_token].
  destruct (Py.eq (Token.value tok2) (VStr "["));
    apply eat_mismatch; auto; rewrite Hty2; discriminate.
Qed.

(** C10.  When a statement begins with an identifier token, the parser
    takes it for a procedure call exactly when the current character of
    the lexer is an opening parenthesis, and for an assignment
    otherwise.  After an identifier the lexer stands on the character
    that follows the lexeme in the source, so it is that single raw
    character that decides, whatever the next token is.  A call with a
    blank before its parenthesis is therefore parsed as an assignment,
    which fails on the parenthesis with an unexpected-token error. *)
Theorem call_needs_adjacent_parenthesis :
  (forall fuel p tok,
     Parser.current_token p = Some tok ->
     Token.type tok = TokenType.ID ->
     Parser.statement (S fuel) p
     = if Lexer.is_char "(" (Lexer.current_char (Parser.lexer p))
       then Parser.proccall_statement fuel p
       else Parser.assignment_statement fuel p)
  /\ (forall fuel lx name rest,
        Lexer_wf lx ->
        remaining lx = (name ++ rest)%string ->
        Lexer.current_is Py.isalpha lx = true ->
        string_forall Py.isalnum name = true ->
        stops Py.isalnum rest ->
        String.length name <= fuel ->
        exists tok lx',
          Lexer.get_next_token (S fuel) lx = Return (Some tok) lx'
          /\ Lexer.current_char lx' = head rest)
  /\ (forall fuel p tok tok2 lx',
        Parser.current_token p = Some tok ->
        Token.type tok = TokenType.ID ->
        Lexer.is_char "(" (Lexer.current_char (Parser.lexer p)) = false ->
        Lexer.get_next_token fuel (Parser.lexer p) = Return (Some tok2) lx' ->
        Token.type tok2 = TokenType.LPAREN ->
        Parser.statement (S fuel) p
        = Raised (ParserError UNEXPECTED_TOKEN tok2)
            (Parser.mk lx' (Some tok2)))
  /\ Main.main 50 false
       "PROGRAM p; PROCEDURE foo(a: INTEGER); BEGIN END; BEGIN foo (1) END."
     = Main.Exit1
         (ParserError UNEXPECTED_TOKEN
            (Token.mk TokenType.LPAREN (VStr "(") (Some 1) (Some 60)))
  /\ Main.main 50 false
       "PROGRAM p; PROCEDURE foo(a: INTEGER); BEGIN END; BEGIN foo(1) END."
     = Main.Completed (Interpreter.mk [] []).
Proof.
  split; [exact statement_on_identifier|].
  split.
  { intros fuel lx name rest Hwf Hrem Ha Hn Hs Hf.
    destruct (lex_id fuel lx name rest Hwf Hrem Ha Hn Hs Hf)
      as (tok & lx' & H1 & _ & _ & _ & H2).
    now exists tok, lx'. }
  split.
  { intros fuel p tok tok2 lx' Hcur Hty Hchar Hnext Hty2.
    rewrite (statement_on_identifier fuel p tok Hcur Hty), Hchar.
    now apply (assignment_before_parenthesis fuel p tok). }
  split; vm_compute; reflexivity.
Qed.

Lemma call_needs_adjacent_parenthesis_witness :
  let foo := Token.mk TokenType.ID (VStr "foo") (Some 1) (Some 1) in
  let paren := Token.mk TokenType.LPAREN (VStr "(") (Some 1) (Some 5) in
  Parser.statement 21
    (Parser.mk (Lexer.mk 0 "foo (1)" 3 (Some " "%char) 1 4) (Some foo))
  = Raised (ParserError UNEXPECTED_TOKEN paren)
      (Parser.mk (Lexer.mk 0 "foo (1)" 5 (Some "1"%char) 1 6) (Some paren)).
Proof.
  intros foo paren.
  apply (proj1 (proj2 (proj2 call_needs_adjacent_parenthesis))
           20 _ foo paren); reflexivity.
Defined.

(* ------------------------------------------------------------------ *)
(** * The call stack *)

Lemma bind_Return {S A B} (c : M S A) (k : A -> M S B) s b s' :
  bind c k s = Return b s' ->
  exists a s1, c s = Return a s1 /\ k a s1 = Return b s'.
Proof.
  unfold bind. destruct (c s) as [a s1|e s1|s1]; try discriminate.
  intros H. now exists a, s1.
Qed.

(** Splitting a sequence that returned into its two steps. *)
Tactic Notation "bind_inv" hyp(H) "as" ident(a) ident(s) ident(H1) :=
  apply bind_Return in H; destruct H as (a & s & H1 & H).

Lemma same_record_refl ar : same_record ar ar.
Proof. now repeat split. Qed.

Lemma same_record_trans ar1 ar2 ar3 :
  same_record ar1 ar2 -> same_record ar2 ar3 -> same_record ar1 ar3.
Proof.
  unfold same_record. intros (H1 & H2 & H3) (H4 & H5 & H6).
  repeat split; congruence.
Qed.

Lemma balanced_refl s : balanced s s.
Proof. destruct s; cbn; auto using same_record_refl. Qed.

Lemma balanced_trans s1 s2 s3 :
  balanced s1 s2 -> balanced s2 s3 -> balanced s1 s3.
Proof.
  destruct s1, s2, s3; cbn; try tauto.
  intros [H1 ->] [H2 ->]. eauto using same_record_trans.
Qed.

Lemma balanced_eq s s' : s' = s -> balanced s s'.
Proof. intros ->. apply balanced_refl. Qed.

(** Below a record that has been pushed, a balanced stack is the stack
    from before the push. *)
Lemma balanced_push ar s s' :
  balanced (ar :: s) s' -> exists ar', s' = ar' :: s /\ same_record ar ar'.
Proof.
  destruct s' as [|ar' s']; cbn; [tauto|].
  intros [H ->]. now exists ar'.
Qed.

Lemma log_Return flag msg st :
  Interpreter.log flag msg st
  = Return tt (final_state (Interpreter.log flag msg st)).
Proof. unfold Interpreter.log. now destruct flag. Qed.

Lemma log_call_stack_Return flag st :
  exists st',
    Interpreter.log_call_stack flag st = Return tt st'
    /\ Interpreter.call_stack st' = Interpreter.call_stack st.
Proof.
  unfold Interpreter.log_call_stack, Interpreter.log.
  destruct flag; eexists; split; reflexivity.
Qed.

Lemma visit_Return node st v st' :
  Interpreter.visit node st = Return v st' -> st' = st.
Proof.
  unfold Interpreter.visit, bind, gets, lift.
  destruct (Interpreter.visit_Expr _ _); now intros [= _ <-].
Qed.

(** Binding the parameters evaluates the arguments and fills the new
    record; the interpreter is left as it was. *)
Lemma bind_params_Return fs : forall args ar st ar' st',
  Interpreter.bind_params fs args ar st = Return ar' st' ->
  st' = st /\ same_record ar ar'.
Proof.
  induction fs as [|f fs IH]; intros args ar st ar' st' H.
  - cbn in H. injection H as <- <-. auto using same_record_refl.
  - destruct args as [|arg args].
    + cbn in H. injection H as <- <-. auto using same_record_refl.
    + cbn [Interpreter.bind_params] in H. bind_inv H as v s H0.
      apply visit_Return in H0. subst s.
      apply IH in H. destruct H as [-> H]. split; [reflexivity|].
      eapply same_record_trans; [|exact H]. now repeat split.
Qed.

Lemma visit_declarations_Return l st :
  Interpreter.visit_declarations l st = Return tt st.
Proof.
  induction l as [|d l IH]; [reflexivity|].
  cbn [Interpreter.visit_declarations]. unfold bind at 1.
  cbn. exact IH.
Qed.

(** An assignment writes to the record on top of the stack. *)
Lemma visit_Assign_balanced left_ right_ st st' :
  Interpreter.visit_Assign left_ right_ st = Return tt st' ->
  balanced (Interpreter.call_stack st) (Interpreter.call_stack st').
Proof.
  unfold Interpreter.visit_Assign. intros H.
  bind_inv H as var_name s1 H1. unfold lift in H1.
  destruct (Expr_value left_); [|discriminate].
  injection H1 as <- <-.
  bind_inv H as var_value s2 H2. apply visit_Return in H2. subst s2.
  bind_inv H as s s3 H3. unfold gets in H3. injection H3 as <- <-.
  bind_inv H as top s4 H4. unfold lift in H4.
  destruct (Interpreter.call_stack st) as [|ar rest] eqn:E; [discriminate|].
  cbn in H4. injection H4 as <- <-.
  unfold modify in H. injection H as <-. cbn. rewrite E.
  split; [now repeat split | reflexivity].
Qed.

Lemma pop_Return st st' :
  Interpreter.pop st = Return tt st' ->
  exists ar,
    Interpreter.call_stack st = ar :: Interpreter.call_stack st'.
Proof.
  unfold Interpreter.pop, bind, gets, lift, modify.
  destruct (Interpreter.call_stack st) as [|ar rest]; [discriminate|].
  cbn. intros [= <-]. now exists ar.
Qed.

Lemma entered_Return flag type name ar st :
  bind (Interpreter.push ar)
    (fun _ => bind (Interpreter.log flag (ENTER type name))
                (fun _ => Interpreter.log_call_stack flag)) st
  = Return tt (entered flag type name ar st).
Proof. unfold entered. now destruct flag. Qed.

Lemma entered_stack flag type name ar st :
  Interpreter.call_stack (entered flag type name ar st)
  = ar :: Interpreter.call_stack st.
Proof. unfold entered. now destruct flag. Qed.

(** Leaving pops the record on top. *)
Lemma leave_Return flag type name st st' :
  leave flag type name st = Return tt st' ->
  exists ar,
    Interpreter.call_stack st = ar :: Interpreter.call_stack st'.
Proof.
  unfold leave. intros H.
  bind_inv H as u1 s1 H1. rewrite log_Return in H1.
  injection H1 as _ <-.
  bind_inv H as u2 s2 H2.
  destruct (log_call_stack_Return flag
              (final_state
                 (Interpreter.log flag (LEAVE type name) st)))
    as (st1 & H3 & H4).
  rewrite H3 in H2. injection H2 as _ <-.
  apply pop_Return in H. destruct H as [ar H]. exists ar.
  now rewrite <- H, H4, log_stack.
Qed.

(* ------------------------------------------------------------------ *)
(** * Invocations: one record pushed, the same record popped *)

(** A call whose callee and new record are known runs the body of the
    callee in the state entered, and leaves. *)
Lemma procedure_call_eq store flag fuel name args tok sym o ar block st :
  Interpreter.procedure_object store sym = Ok o ->
  Interpreter.bind_params (ProcedureObject.formal_params o) args
    (ActivationRecord.mk name ARType.PROCEDURE 2 Dict.empty) st
  = Return ar st ->
  ProcedureObject.block_ast o = Some block ->
  Interpreter.visit_Stmt store flag (S fuel)
    (ProcedureCall name args tok sym) st
  = bind (Interpreter.visit_Block store flag fuel block)
      (fun _ => leave flag ARType.PROCEDURE name)
      (entered flag ARType.PROCEDURE name ar st).
Proof.
  intros Ho Hb Hblock. cbn [Interpreter.visit_Stmt].
  unfold bind at 1. unfold lift. rewrite Ho.
  unfold bind at 1. rewrite Hb, Hblock.
  unfold entered, leave. now destruct flag.
Qed.

Lemma procedure_call_Return store flag fuel name args tok sym st st' :
  Interpreter.visit_Stmt store flag (S fuel)
    (ProcedureCall name args tok sym) st = Return tt st' ->
  exists o block ar st2,
    Interpreter.procedure_object store sym = Ok o
    /\ ProcedureObject.block_ast o = Some block
    /\ Interpreter.bind_params (ProcedureObject.formal_params o) args
         (ActivationRecord.mk name ARType.PROCEDURE 2 Dict.empty) st
       = Return ar st
    /\ Interpreter.visit_Block store flag fuel block
         (entered flag ARType.PROCEDURE name ar st) = Return tt st2
    /\ leave flag ARType.PROCEDURE name st2 = Return tt st'.
Proof.
  intros H. pose proof H as H0. cbn [Interpreter.visit_Stmt] in H.
  bind_inv H as o s1 Ho. unfold lift in Ho.
  destruct (Interpreter.procedure_object store sym) as [o'|] eqn:Eo;
    [|discriminate].
  injection Ho as <- <-.
  bind_inv H as ar s2 Hb.
  destruct (bind_params_Return _ _ _ _ _ _ Hb) as [-> _].
  destruct (ProcedureObject.block_ast o') as [block|] eqn:Eblock.
  - rewrite (procedure_call_eq _ _ _ _ _ _ _ _ _ _ _ Eo Hb Eblock) in H0.
    bind_inv H0 as u st2 Hbody. destruct u.
    now exists o', block, ar, st2.
  - bind_inv H as u1 s3 H1. bind_inv H as u2 s4 H2.
    bind_inv H as u3 s5 H3. bind_inv H as u4 s6 H4. discriminate.
Qed.

Lemma program_eq store flag fuel name block st :
  Interpreter.visit_Program store flag fuel (Program name block) st
  = bind (Interpreter.visit_Block store flag fuel block)
      (fun _ => leave flag ARType.PROGRAM name)
      (entered flag ARType.PROGRAM name
         (ActivationRecord.mk name ARType.PROGRAM 1 Dict.empty) st).
Proof.
  unfold Interpreter.visit_Program, entered, leave. now destruct flag.
Qed.

(** When the body has left the stack balanced, leaving pops the record
    that was pushed on entry. *)
Lemma invocation_stack flag type name ar st st2 st' :
  balanced (Interpreter.call_stack (entered flag type name ar st))
    (Interpreter.call_stack st2) ->
  leave flag type name st2 = Return tt st' ->
  exists ar',
    Interpreter.call_stack st2 = ar' :: Interpreter.call_stack st
    /\ same_record ar ar'
    /\ Interpreter.call_stack st' = Interpreter.call_stack st.
Proof.
  rewrite entered_stack. intros Hb Hl.
  apply balanced_push in Hb. destruct Hb as (ar' & Hs & Hr).
  apply leave_Return in Hl. destruct Hl as [ar'' Hl].
  exists ar'. split; [exact Hs|]. split; [exact Hr|].
  rewrite Hs in Hl. now injection Hl.
Qed.

Lemma children_balanced (visit : Stmt -> M Interpreter.t unit) l :
  (forall node st st',
     visit node st = Return tt st' ->
     balanced (Interpreter.call_stack st) (Interpreter.call_stack st')) ->
  forall st st',
    Interpreter.visit_children visit l st = Return tt st' ->
    balanced (Interpreter.call_stack st) (Interpreter.call_stack st').
Proof.
  intros Hvisit. induction l as [|child l IH]; intros st st' H.
  - injection H as <-. apply balanced_refl.
  - cbn [Interpreter.visit_children] in H. bind_inv H as u s1 H1.
    destruct u. eauto using balanced_trans.
Qed.

(** Every statement and every block that returns leaves the records of
    the call stack in place; only the members of the record on top may
    have changed. *)
Lemma visit_balanced store flag fuel :
  (forall node st st',
     Interpreter.visit_Stmt store flag fuel node st = Return tt st' ->
     balanced (Interpreter.call_stack st) (Interpreter.call_stack st'))
  /\ (forall block st st',
        Interpreter.visit_Block store flag fuel block st = Return tt st' ->
        balanced (Interpreter.call_stack st) (Interpreter.call_stack st')).
Proof.
  induction fuel as [|fuel [IHs IHb]];
    (split; [intros node|intros block]; intros st st' H);
    try discriminate.
  - destruct node
      as [children|left_ op right_| |name args tok sym|name rel s els
         |name rel s|op param|op param].
    + cbn [Interpreter.visit_Stmt] in H.
      eapply children_balanced; eauto.
    + eapply visit_Assign_balanced. exact H.
    + injection H as <-. apply balanced_refl.
    + apply procedure_call_Return in H.
      destruct H as (o & block & ar & st2 & _ & _ & _ & Hbody & Hl).
      apply IHb in Hbody.
      destruct (invocation_stack _ _ _ _ _ _ _ Hbody Hl) as (_ & _ & _ & E).
      now apply balanced_eq.
    + cbn [Interpreter.visit_Stmt] in H. apply balanced_eq.
      now rewrite <- (if_statement_stack flag rel s els st), H.
    + cbn [Interpreter.visit_Stmt] in H. apply balanced_eq.
      now rewrite <- (while_statement_stack flag rel s st), H.
    + cbn [Interpreter.visit_Stmt] in H. unfold Interpreter.visit_READ in H.
      rewrite log_Return in H. injection H as <-.
      apply balanced_eq, log_stack.
    + cbn [Interpreter.visit_Stmt] in H. unfold Interpreter.visit_WRITE in H.
      rewrite log_Return in H. injection H as <-.
      apply balanced_eq, log_stack.
  - destruct block as [declarations compound_statement].
    cbn [Interpreter.visit_Block] in H. bind_inv H as u s1 H1.
    rewrite visit_declarations_Return in H1. injection H1 as _ <-.
    eapply IHs. exact H.
Qed.

(* ------------------------------------------------------------------ *)
(** * Recursion, and the discipline of the call stack *)

Lemma block_eq store flag fuel declarations compound_statement st :
  Interpreter.visit_Block store flag (S fuel)
    (Block declarations compound_statement) st
  = Interpreter.visit_Stmt store flag fuel compound_statement st.
Proof.
  cbn [Interpreter.visit_Block]. unfold bind.
  now rewrite visit_declarations_Return.
Qed.

Lemma interpret_Return fuel flag store tree final :
  Main.interpret fuel flag store tree = Return tt final ->
  Interpreter.call_stack final = [].
Proof.
  unfold Main.interpret, Interpreter.interpret. destruct tree as [name block].
  rewrite program_eq. intros H. bind_inv H as u st2 Hbody. destruct u.
  apply (proj2 (visit_balanced store flag fuel)) in Hbody.
  destruct (invocation_stack _ _ _ _ _ _ _ Hbody H) as (_ & _ & _ & E).
  exact E.
Qed.

(** ** When a statement does not return *)

Lemma final_bind {S A B} (c : M S A) (k : A -> M S B) s :
  final_state (bind c k s)
  = match c s with
    | Return a s1 => final_state (k a s1)
    | Raised _ s1 | Timeout s1 => s1
    end.
Proof. unfold bind. now destruct (c s). Qed.

Lemma grown_nil s s' : balanced s s' -> grown [] s s'.
Proof. intros H. now exists s'. Qed.

Lemma grown_balanced pushed s1 s2 s3 :
  balanced s1 s2 -> grown pushed s2 s3 -> grown pushed s1 s3.
Proof.
  intros H (below & -> & Hb). exists below. eauto using balanced_trans.
Qed.

(** Whatever its outcome, an assignment leaves the records in place. *)
Lemma visit_Assign_final left_ right_ st :
  balanced (Interpreter.call_stack st)
    (Interpreter.call_stack
       (final_state (Interpreter.visit_Assign left_ right_ st))).
Proof.
  destruct (Interpreter.visit_Assign left_ right_ st) as [[] st'|e st'|st']
    eqn:E; cbn [final_state].
  - now apply (visit_Assign_balanced left_ right_).
  - apply balanced_eq. revert E. unfold Interpreter.visit_Assign.
    cbv beta iota zeta delta [bind lift Interpreter.visit gets modify].
    destruct (Expr_value left_); [|now intros [= _ <-]].
    destruct (Interpreter.visit_Expr right_ _); [|now intros [= _ <-]].
    destruct (CallStack.look_at_next_char _); [discriminate|].
    now intros [= _ <-].
  - revert E. unfold Interpreter.visit_Assign.
    cbv beta iota zeta delta [bind lift Interpreter.visit gets modify].
    destruct (Expr_value left_); [|discriminate].
    destruct (Interpreter.visit_Expr right_ _); [|discriminate].
    destruct (CallStack.look_at_next_char _); discriminate.
Qed.

(** Binding the parameters leaves the interpreter as it was, whatever
    the outcome. *)
Lemma bind_params_final fs : forall args ar st,
  final_state (Interpreter.bind_params fs args ar st) = st.
Proof.
  induction fs as [|f fs IH]; intros [|arg args] ar st; try reflexivity.
  cbn [Interpreter.bind_params]. rewrite final_bind.
  unfold Interpreter.visit, bind, gets, lift.
  destruct (Interpreter.visit_Expr _ _); [apply IH | reflexivity].
Qed.

(** Leaving with the record of the invocation on top pops it. *)
Lemma leave_pops flag type name st2 ar s :
  Interpreter.call_stack st2 = ar :: s ->
  exists st',
    leave flag type name st2 = Return tt st'
    /\ Interpreter.call_stack st' = s.
Proof.
  intros Hs.
  unfold leave, Interpreter.log_call_stack, Interpreter.log, Interpreter.pop,
    bind, gets, lift, modify, ret.
  destruct flag; cbn; rewrite Hs; cbn; eexists; split; reflexivity.
Qed.

Lemma children_grown (visit : Stmt -> M Interpreter.t unit) l :
  (forall node st st',
     visit node st = Return tt st' ->
     balanced (Interpreter.call_stack st) (Interpreter.call_stack st')) ->
  (forall node st,
     exists pushed,
       grown pushed (Interpreter.call_stack st)
         (Interpreter.call_stack (final_state (visit node st)))) ->
  forall st,
    exists pushed,
      grown pushed (Interpreter.call_stack st)
        (Interpreter.call_stack
           (final_state (Interpreter.visit_children visit l st))).
Proof.
  intros Hbal Hgrown. induction l as [|child l IH]; intros st.
  - exists []. apply grown_nil, balanced_refl.
  - cbn [Interpreter.visit_children]. rewrite final_bind.
    destruct (visit child st) as [[] s1|e s1|s1] eqn:E.
    + destruct (IH s1) as (pushed & Hg). exists pushed.
      eapply grown_balanced; [|exact Hg]. eapply Hbal. exact E.
    + destruct (Hgrown child st) as (pushed & Hg). rewrite E in Hg.
      now exists pushed.
    + destruct (Hgrown child st) as (pushed & Hg). rewrite E in Hg.
      now exists pushed.
Qed.

(** Whatever the outcome of a statement or of a block, the records that
    it found on the stack are in place, below the records of the
    invocations that it has entered and not left. *)
Lemma visit_grown store flag fuel :
  (forall node st,
     exists pushed,
       grown pushed (Interpreter.call_stack st)
         (Interpreter.call_stack
            (final_state (Interpreter.visit_Stmt store flag fuel node st))))
  /\ (forall block st,
        exists pushed,
          grown pushed (Interpreter.call_stack st)
            (Interpreter.call_stack
               (final_state
                  (Interpreter.visit_Block store flag fuel block st)))).
Proof.
  induction fuel as [|fuel [IHs IHb]];
    (split; [intros node|intros block]; intros st);
    try (exists []; apply grown_nil, balanced_refl).
  - destruct node
      as [children|left_ op right_| |name args tok sym|name rel s els
         |name rel s|op param|op param]; cbn [Interpreter.visit_Stmt].
    + apply children_grown; [|exact IHs].
      exact (proj1 (visit_balanced store flag fuel)).
    + exists []. apply grown_nil, visit_Assign_final.
    + exists []. apply grown_nil, balanced_refl.
    + rewrite final_bind. unfold lift at 1.
      destruct (Interpreter.procedure_object store sym) as [o|e] eqn:Eo;
        [|exists []; apply grown_nil, balanced_refl].
      rewrite final_bind.
      pose proof (bind_params_final (ProcedureObject.formal_params o) args
                    (ActivationRecord.mk name ARType.PROCEDURE 2 Dict.empty)
                    st) as Hfinal.
      destruct (Interpreter.bind_params _ _ _ st) as [ar s1|e s1|s1] eqn:Eb;
        cbn [final_state] in Hfinal; subst s1;
        try (exists []; apply grown_nil, balanced_refl).
      destruct (ProcedureObject.block_ast o) as [block|] eqn:Eblock.
      * pose proof (procedure_call_eq store flag fuel name args tok sym
                      o ar block st Eo Eb Eblock) as Hcall.
        cbn [Interpreter.visit_Stmt] in Hcall.
        unfold bind at 1 in Hcall. unfold lift at 1 in Hcall.
        rewrite Eo in Hcall. unfold bind at 1 in Hcall.
        rewrite Eb, Eblock in Hcall. rewrite Hcall. clear Hcall.
        rewrite final_bind.
        destruct (IHb block (entered flag ARType.PROCEDURE name ar st))
          as (pushed & below & Hs & Hbelow).
        rewrite entered_stack in Hbelow.
        apply balanced_push in Hbelow. destruct Hbelow as (ar' & -> & Hr).
        destruct (Interpreter.visit_Block store flag fuel block _)
          as [[] st2|e st2|st2] eqn:Ebody; cbn [final_state] in Hs.
        -- pose proof (proj2 (visit_balanced store flag fuel) _ _ _ Ebody)
             as Hbal.
           rewrite entered_stack in Hbal. apply balanced_push in Hbal.
           destruct Hbal as (ar2 & Hs2 & _).
           destruct (leave_pops flag ARType.PROCEDURE name st2 ar2 _ Hs2)
             as (st' & Hleave & Hst').
           rewrite Hleave. cbn [final_state]. rewrite Hst'.
           exists []. apply grown_nil, balanced_refl.
        -- exists (pushed ++ [ar']), (Interpreter.call_stack st).
           split; [now rewrite Hs, <- app_assoc | apply balanced_refl].
        -- exists (pushed ++ [ar']), (Interpreter.call_stack st).
           split; [now rewrite Hs, <- app_assoc | apply balanced_refl].
      * exists [ar], (Interpreter.call_stack st).
        split; [|apply balanced_refl]. now destruct flag.
    + exists []. apply grown_nil, balanced_eq, if_statement_stack.
    + exists []. apply grown_nil, balanced_eq, while_statement_stack.
    + exists []. apply grown_nil, balanced_eq.
      unfold Interpreter.visit_READ. apply log_stack.
    + exists []. apply grown_nil, balanced_eq.
      unfold Interpreter.visit_WRITE. apply log_stack.
  - destruct block as [declarations compound_statement].
    rewrite block_eq. apply IHs.
Qed.

(** A call whose body raises: the call raises in the state in which the
    body has ended: nothing is traced or popped, and the record of the
    invocation is still on the stack, below the records of the
    invocations inside it that have not been left either. *)
Lemma procedure_call_raises store flag fuel name args tok sym o block ar st
    e st2 :
  Interpreter.procedure_object store sym = Ok o ->
  ProcedureObject.block_ast o = Some block ->
  Interpreter.bind_params (ProcedureObject.formal_params o) args
    (ActivationRecord.mk name ARType.PROCEDURE 2 Dict.empty) st
  = Return ar st ->
  Interpreter.visit_Block store flag fuel block
    (entered flag ARType.PROCEDURE name ar st) = Raised e st2 ->
  Interpreter.visit_Stmt store flag (S fuel)
    (ProcedureCall name args tok sym) st = Raised e st2
  /\ exists pushed ar',
       Interpreter.call_stack st2 = pushed ++ ar' :: Interpreter.call_stack st
       /\ same_record ar ar'.
Proof.
  intros Ho Hblock Hb Hbody. split.
  - rewrite (procedure_call_eq _ _ _ _ _ _ _ _ _ _ _ Ho Hb Hblock).
    unfold bind. now rewrite Hbody.
  - destruct (proj2 (visit_grown store flag fuel) block
                (entered flag ARType.PROCEDURE name ar st))
      as (pushed & below & Hs & Hbelow).
    rewrite Hbody in Hs. cbn [final_state] in Hs.
    rewrite entered_stack in Hbelow. apply balanced_push in Hbelow.
    destruct Hbelow as (ar' & -> & Hr). now exists pushed, ar'.
Qed.

(** ** A procedure that calls itself *)

(** A statement that executes a call of a procedure whose body executes
    a call of the same procedure does not return. *)
Lemma self_call_never_returns store flag ref o declarations body :
  nth_error store ref = Some o ->
  ProcedureObject.block_ast o = Some (Block declarations body) ->
  executes_call ref body = true ->
  forall fuel node st st',
    executes_call ref node = true ->
    Interpreter.visit_Stmt store flag fuel node st <> Return tt st'.
Proof.
  intros Ho Hblock Hbody fuel.
  induction fuel as [fuel IH] using (well_founded_induction lt_wf).
  intros node st st' Hnode H.
  destruct fuel as [|fuel]; [discriminate H|].
  destruct node as [children| | |name args tok sym| | | |];
    try discriminate Hnode.
  - cbn [executes_call] in Hnode. cbn [Interpreter.visit_Stmt] in H.
    revert st H. induction children as [|child l IHl]; intros st H;
      [discriminate Hnode|].
    cbn [existsb] in Hnode. cbn [Interpreter.visit_children] in H.
    bind_inv H as u s1 H1. destruct u.
    destruct (executes_call ref child) eqn:Ec.
    + eapply (IH fuel); [lia | exact Ec | exact H1].
    + eapply IHl; [exact Hnode | exact H].
  - cbn [executes_call] in Hnode.
    destruct sym as [[| |n ref'| |]|]; try discriminate Hnode.
    apply Nat.eqb_eq in Hnode. subst ref'.
    apply procedure_call_Return in H.
    destruct H as (o' & block & ar & st2 & Ho' & Hb' & _ & Hrun & _).
    cbn [Interpreter.procedure_object] in Ho'. rewrite Ho in Ho'.
    injection Ho' as <-. rewrite Hblock in Hb'. injection Hb' as <-.
    destruct fuel as [|fuel']; [discriminate Hrun|].
    rewrite block_eq in Hrun.
    eapply (IH fuel'); [lia | exact Hbody | exact Hrun].
Qed.

Lemma recursive_program_never_returns fuel flag final :
  Main.interpret fuel flag r_store r_tree <> Return tt final.
Proof.
  unfold Main.interpret, Interpreter.interpret, r_tree.
  rewrite program_eq. intros H. bind_inv H as u st2 Hbody. destruct u.
  destruct fuel as [|fuel]; [discriminate Hbody|].
  rewrite block_eq in Hbody. revert Hbody.
  apply (self_call_never_returns r_store flag 0
           (ProcedureObject.mk [] (Some r_body)) [] (Compound [r_call 31]));
    reflexivity.
Qed.

(** C9, the claim as stated fails.  In the first program the body of
    [q] divides by zero: the run ends with the exception, which nothing
    catches, and the records of [q] and of the program are still on the
    stack, for the pops are skipped.  In the second program [r] calls
    itself: the call cannot be conditional, so the recursion never
    unwinds, and no run of the program returns. *)
Lemma call_stack_counterexample :
  (exists tree parser tree' analyzer,
     Main.parse 60 failing_call = Return tree (Some parser)
     /\ Main.analyze tree = Return tree' analyzer
     /\ Main.interpret 60 false (SemanticAnalyzer.store analyzer) tree'
        = Raised ZeroDivisionError
            (Interpreter.mk
               [new_record "q" ARType.PROCEDURE 2;
                new_record "p" ARType.PROGRAM 1] [])
     /\ Main.main 60 false failing_call = Main.Uncaught ZeroDivisionError)
  /\ (exists tree parser analyzer,
        Main.parse 50 recursive_program = Return tree (Some parser)
        /\ Main.analyze tree = Return r_tree analyzer
        /\ SemanticAnalyzer.store analyzer = r_store)
  /\ (forall fuel flag final,
        Main.interpret fuel flag r_store r_tree <> Return tt final).
Proof.
  split.
  { do 4 eexists. split; [vm_compute; reflexivity|].
    split; [vm_compute; reflexivity|].
    split; vm_compute; reflexivity. }
  split; [|exact recursive_program_never_returns].
  do 3 eexists. split; [vm_compute; reflexivity|].
  split; vm_compute; reflexivity.
Qed.

(** C9, amended.  A procedure call that returns has created one record,
    named after the callee, bound the arguments in it, pushed it, and
    run the body of the callee on the stack so extended; the body has
    left that record on top of the stack it found, and the call has
    popped it: the stack after the call is the stack before it.  The
    same holds of a program and its record.  Every statement that
    returns leaves the records of the stack in place, and a run that
    completes ends with an empty stack.  A statement that does not
    return leaves the records it found in place too, below the records
    of the invocations it has entered: when the body of a call raises,
    the call raises in the state in which the body ended, and the
    record of the call stays on the stack.  A call of a procedure whose
    body executes a call of the same procedure never returns, so a
    recursion does not unwind.  In the chain of calls [p], [a], [b] the
    stack grows to three records and is empty at the end. *)
Theorem call_stack_discipline :
  (forall store flag fuel name args tok sym st st',
     Interpreter.visit_Stmt store flag (S fuel)
       (ProcedureCall name args tok sym) st = Return tt st' ->
     exists o block ar ar' st2,
       Interpreter.procedure_object store sym = Ok o
       /\ ProcedureObject.block_ast o = Some block
       /\ Interpreter.bind_params (ProcedureObject.formal_params o) args
            (ActivationRecord.mk name ARType.PROCEDURE 2 Dict.empty) st
          = Return ar st
       /\ Interpreter.call_stack (entered flag ARType.PROCEDURE name ar st)
          = ar :: Interpreter.call_stack st
       /\ Interpreter.visit_Block store flag fuel block
            (entered flag ARType.PROCEDURE name ar st) = Return tt st2
       /\ Interpreter.call_stack st2 = ar' :: Interpreter.call_stack st
       /\ same_record ar ar'
       /\ Interpreter.call_stack st' = Interpreter.call_stack st)
  /\ (forall store flag fuel name block st st',
        Interpreter.visit_Program store flag fuel (Program name block) st
        = Return tt st' ->
        let ar := ActivationRecord.mk name ARType.PROGRAM 1 Dict.empty in
        exists ar' st2,
          Interpreter.call_stack (entered flag ARType.PROGRAM name ar st)
          = ar :: Interpreter.call_stack st
          /\ Interpreter.visit_Block store flag fuel block
               (entered flag ARType.PROGRAM name ar st) = Return tt st2
          /\ Interpreter.call_stack st2 = ar' :: Interpreter.call_stack st
          /\ same_record ar ar'
          /\ Interpreter.call_stack st' = Interpreter.call_stack st)
  /\ (forall store flag fuel node st st',
        Interpreter.visit_Stmt store flag fuel node st = Return tt st' ->
        balanced (Interpreter.call_stack st) (Interpreter.call_stack st'))
  /\ (forall fuel flag store tree final,
        Main.interpret fuel flag store tree = Return tt final ->
        Interpreter.call_stack final = [])
  /\ (forall store flag fuel node st,
        exists pushed,
          grown pushed (Interpreter.call_stack st)
            (Interpreter.call_stack
               (final_state
                  (Interpreter.visit_Stmt store flag fuel node st))))
  /\ (forall store flag fuel name args tok sym o block ar st e st2,
        Interpreter.procedure_object store sym = Ok o ->
        ProcedureObject.block_ast o = Some block ->
        Interpreter.bind_params (ProcedureObject.formal_params o) args
          (ActivationRecord.mk name ARType.PROCEDURE 2 Dict.empty) st
        = Return ar st ->
        Interpreter.visit_Block store flag fuel block
          (entered flag ARType.PROCEDURE name ar st) = Raised e st2 ->
        Interpreter.visit_Stmt store flag (S fuel)
          (ProcedureCall name args tok sym) st = Raised e st2
        /\ exists pushed ar',
             Interpreter.call_stack st2
             = pushed ++ ar' :: Interpreter.call_stack st
             /\ same_record ar ar')
  /\ (forall store flag ref o declarations body fuel name args tok n st st',
        nth_error store ref = Some o ->
        ProcedureObject.block_ast o = Some (Block declarations body) ->
        executes_call ref body = true ->
        Interpreter.visit_Stmt store flag fuel
          (ProcedureCall name args tok (Some (ProcedureSymbol n ref))) st
        <> Return tt st')
  /\ Main.main 50 true nested_calls
     = Main.Completed
         (Interpreter.mk []
            [ENTER ARType.PROGRAM (VStr "p");
             CALL_STACK [new_record "p" ARType.PROGRAM 1];
             ENTER ARType.PROCEDURE (VStr "a");
             CALL_STACK [new_record "a" ARType.PROCEDURE 2;
                         new_record "p" ARType.PROGRAM 1];
             ENTER ARType.PROCEDURE (VStr "b");
             CALL_STACK [new_record "b" ARType.PROCEDURE 2;
                         new_record "a" ARType.PROCEDURE 2;
                         new_record "p" ARType.PROGRAM 1];
             LEAVE ARType.PROCEDURE (VStr "b");
             CALL_STACK [new_record "b" ARType.PROCEDURE 2;
                         new_record "a" ARType.PROCEDURE 2;
                         new_record "p" ARType.PROGRAM 1];
             LEAVE ARType.PROCEDURE (VStr "a");
             CALL_STACK [new_record "a" ARType.PROCEDURE 2;
                         new_record "p" ARType.PROGRAM 1];
             LEAVE ARType.PROGRAM (VStr "p");
             CALL_STACK [new_record "p" ARType.PROGRAM 1]]).
Proof.
  split.
  { intros store flag fuel name args tok sym st st' H.
    apply procedure_call_Return in H.
    destruct H as (o & block & ar & st2 & Ho & Hblock & Hb & Hbody & Hl).
    pose proof (proj2 (visit_balanced store flag fuel) _ _ _ Hbody) as Hbal.
    destruct (invocation_stack _ _ _ _ _ _ _ Hbal Hl) as (ar' & H1 & H2 & H3).
    exists o, block, ar, ar', st2.
    repeat (split; [assumption || apply entered_stack|]). exact H3. }
  split.
  { intros store flag fuel name block st st' H ar.
    rewrite program_eq in H. bind_inv H as u st2 Hbody. destruct u.
    pose proof (proj2 (visit_balanced store flag fuel) _ _ _ Hbody) as Hbal.
    destruct (invocation_stack _ _ _ _ _ _ _ Hbal H) as (ar' & H1 & H2 & H3).
    exists ar', st2.
    repeat (split; [assumption || apply entered_stack|]). exact H3. }
  split.
  { intros store flag fuel. exact (proj1 (visit_balanced store flag fuel)). }
  split; [exact interpret_Return|].
  split.
  { intros store flag fuel. exact (proj1 (visit_grown store flag fuel)). }
  split; [exact procedure_call_raises|].
  split.
  { intros store flag ref o declarations body fuel name args tok n st st'
      Ho Hblock Hbody.
    apply (self_call_never_returns store flag ref o declarations body
             Ho Hblock Hbody).
    cbn [executes_call]. apply Nat.eqb_refl. }
  vm_compute. reflexivity.
Qed.

Lemma call_stack_discipline_witness :
  let five := Token.mk TokenType.INTEGER_CONST (VInt 5) (Some 1) (Some 3) in
  let q := Token.mk TokenType.ID (VStr "q") (Some 1) (Some 1) in
  let store :=
    [ProcedureObject.mk [VarSymbol (VStr "a") None]
       (Some (Block [] (Compound [NoOp])))] in
  let call :=
    ProcedureCall (VStr "q") [Num five] q
      (Some (ProcedureSymbol (VStr "q") 0)) in
  let st := Interpreter.mk [new_record "p" ARType.PROGRAM 1] [] in
  balanced (Interpreter.call_stack st)
    (Interpreter.call_stack
       (final_state (Interpreter.visit_Stmt store false 4 call st))).
Proof.
  intros five q store call st.
  apply (proj1 (proj2 (proj2 call_stack_discipline)) store false 4 call).
  reflexivity.
Defined.

(* ------------------------------------------------------------------ *)
(** * The names that semantic analysis looks up *)

Lemma find_append {A} (f : A -> bool) l1 l2 :
  List.find f (l1 ++ l2)
  = match List.find f l1 with
    | Some x => Some x
    | None => List.find f l2
    end.
Proof.
  induction l1 as [|x l1 IH]; cbn [List.find app]; [reflexivity|].
  now destruct (f x).
Qed.

Lemma visit_Var_lookups token a scope :
  SemanticAnalyzer.current_scope a = Some scope ->
  SemanticAnalyzer.visit_Var token a = lookups scope [token] tt a.
Proof.
  intros Hs.
  unfold SemanticAnalyzer.visit_Var, SemanticAnalyzer.lookup,
    SemanticAnalyzer.the_scope, bind, lookups, first_unresolved, unresolved.
  cbn [List.find]. rewrite Hs. cbn [ret].
  now destruct (ScopedSymbolTable.lookup scope _).
Qed.

(** Two rounds of lookups in a row are one round. *)
Lemma lookups_bind {B} scope l1 l2 (r : B)
    (c : M SemanticAnalyzer.t unit) (k : unit -> M SemanticAnalyzer.t B) a :
  c a = lookups scope l1 tt a ->
  k tt a = lookups scope l2 r a ->
  bind c k a = lookups scope (l1 ++ l2) r a.
Proof.
  intros Hc Hk. unfold bind, lookups, first_unresolved in *.
  rewrite find_append, Hc.
  now destruct (List.find (unresolved scope) l1).
Qed.

Lemma visit_Expr_lookups node : forall a scope,
  SemanticAnalyzer.current_scope a = Some scope ->
  SemanticAnalyzer.visit_Expr node a = lookups scope (visited_Expr node) tt a.
Proof.
  induction node as [left_ IHl op right_ IHr|tok|tok|op e IH|tok];
    intros a scope Hs;
    cbn [SemanticAnalyzer.visit_Expr visited_Expr]; try reflexivity.
  - apply lookups_bind; auto.
  - now apply visit_Var_lookups.
Qed.

Lemma visit_params_lookups l : forall a scope,
  SemanticAnalyzer.current_scope a = Some scope ->
  SemanticAnalyzer.visit_params l a
  = lookups scope (flat_map visited_Expr l) tt a.
Proof.
  induction l as [|e l IH]; intros a scope Hs;
    cbn [SemanticAnalyzer.visit_params flat_map]; [reflexivity|].
  apply lookups_bind; auto using visit_Expr_lookups.
Qed.

(** An assignment looks up the names of its right-hand side, then those
    of its target, and changes nothing. *)
Lemma visit_Assign_lookups left_ op right_ a scope :
  SemanticAnalyzer.current_scope a = Some scope ->
  SemanticAnalyzer.visit_Stmt (Assign left_ op right_) a
  = lookups scope (visited_Stmt (Assign left_ op right_))
      (Assign left_ op right_) a.
Proof.
  intros Hs. cbn [SemanticAnalyzer.visit_Stmt visited_Stmt].
  apply lookups_bind; [now apply visit_Expr_lookups|].
  rewrite <- (app_nil_r (visited_Expr left_)).
  apply lookups_bind; [now apply visit_Expr_lookups | reflexivity].
Qed.

(** A call looks up the names of its arguments; the callee is looked up
    too, but a callee that is not found is no error: the call node just
    holds no symbol. *)
Lemma visit_ProcedureCall_lookups name args tok sym a scope :
  SemanticAnalyzer.current_scope a = Some scope ->
  SemanticAnalyzer.visit_Stmt (ProcedureCall name args tok sym) a
  = lookups scope (visited_Stmt (ProcedureCall name args tok sym))
      (ProcedureCall name args tok (ScopedSymbolTable.lookup scope name)) a.
Proof.
  intros Hs. cbn [SemanticAnalyzer.visit_Stmt visited_Stmt].
  rewrite <- (app_nil_r (flat_map visited_Expr args)).
  apply lookups_bind; [now apply visit_params_lookups|].
  cbv beta iota delta
    [bind SemanticAnalyzer.lookup SemanticAnalyzer.the_scope ret].
  now rewrite Hs.
Qed.

Lemma insert_Return symbol a scope :
  SemanticAnalyzer.current_scope a = Some scope ->
  SemanticAnalyzer.insert symbol a
  = Return tt
      (SemanticAnalyzer.mk (Some (ScopedSymbolTable.insert symbol scope))
         (SemanticAnalyzer.store a)).
Proof.
  intros Hs.
  unfold SemanticAnalyzer.insert, SemanticAnalyzer.the_scope, bind.
  now rewrite Hs.
Qed.

(** ** Scopes only grow *)

Lemma Dict_get_set_distinct {V} (d : Dict.t V) k0 v k :
  (forall k1, Py.eq k1 k0 = true -> k1 = k0) ->
  Py.eq k0 k = false ->
  Dict.get (Dict.set d k0 v) k = Dict.get d k.
Proof.
  intros Hexact Hne.
  induction d as [|[k1 v1] d IH]; cbn [Dict.set Dict.get].
  - now rewrite Hne.
  - destruct (Py.eq k1 k0) eqn:E; cbn [Dict.get].
    + apply Hexact in E. subst k1. now rewrite Hne.
    + now rewrite IH.
Qed.

Lemma lookup_insert_present symbol s k :
  ScopedSymbolTable.lookup s k <> None ->
  ScopedSymbolTable.lookup (ScopedSymbolTable.insert symbol s) k <> None.
Proof.
  destruct s as [d n l e]. unfold ScopedSymbolTable.insert.
  cbn [ScopedSymbolTable._symbols ScopedSymbolTable.scope_name
       ScopedSymbolTable.scope_level ScopedSymbolTable.enclosing_scope
       ScopedSymbolTable.lookup].
  pose proof (Dict_get_set_present d (Symbol_name symbol) symbol k) as H.
  destruct (Dict.get d k); destruct (Dict.get (Dict.set d _ _) k);
    try congruence.
  exfalso. apply H; congruence.
Qed.

Lemma lookup_insert_distinct symbol s k :
  (forall k1, Py.eq k1 (Symbol_name symbol) = true ->
              k1 = Symbol_name symbol) ->
  Py.eq (Symbol_name symbol) k = false ->
  ScopedSymbolTable.lookup (ScopedSymbolTable.insert symbol s) k
  = ScopedSymbolTable.lookup s k.
Proof.
  intros Hexact Hne. destruct s as [d n l e].
  unfold ScopedSymbolTable.insert.
  cbn [ScopedSymbolTable._symbols ScopedSymbolTable.scope_name
       ScopedSymbolTable.scope_level ScopedSymbolTable.enclosing_scope
       ScopedSymbolTable.lookup].
  now rewrite Dict_get_set_distinct.
Qed.

(** Only the same token type is equal to a token type. *)
Lemma Py_eq_enum_inv k t : Py.eq k (VEnum t) = true -> k = VEnum t.
Proof.
  destruct k as [|z|f|s|u]; try discriminate.
  cbn [Py.eq]. intros H. apply TokenType_eqb_eq in H. now subst.
Qed.

Lemma extends_refl scope : extends [] scope scope.
Proof. split; auto. Qed.

Lemma extends_insert symbol scope :
  (forall k1, Py.eq k1 (Symbol_name symbol) = true ->
              k1 = Symbol_name symbol) ->
  extends [Symbol_name symbol] scope (ScopedSymbolTable.insert symbol scope).
Proof.
  intros Hexact. split; intros k H.
  - now apply lookup_insert_present.
  - apply lookup_insert_distinct; auto. apply H. now left.
Qed.

Lemma extends_trans keys1 keys2 s1 s2 s3 :
  extends keys1 s1 s2 -> extends keys2 s2 s3 ->
  extends (keys1 ++ keys2) s1 s3.
Proof.
  intros [H1 H2] [H3 H4]. split; intros k H.
  - auto.
  - rewrite H4, H2; auto; intros k' Hin; apply H, in_or_app; auto.
Qed.

(** Either no key of a list is equal to [k], or one is. *)
Lemma keys_cases keys k :
  (forall k', In k' keys -> Py.eq k' k = false)
  \/ (exists k', In k' keys /\ Py.eq k' k = true).
Proof.
  induction keys as [|k0 keys [IH|(k' & Hin & E)]].
  - left. intros k' [].
  - destruct (Py.eq k0 k) eqn:E.
    + right. exists k0. split; [now left | exact E].
    + left. intros k' [<-|Hin]; auto.
  - right. exists k'. split; [now right | exact E].
Qed.

(* ------------------------------------------------------------------ *)
(** * Undeclared names: where the analyzer finds them *)

(** Induction on statements, with the children of a compound
    statement. *)
Lemma Stmt_children_ind (P : Stmt -> Prop) :
  (forall children, Forall P children -> P (Compound children)) ->
  (forall node, (forall children, node <> Compound children) -> P node) ->
  forall node, P node.
Proof.
  intros HC Ho. fix IH 1. intros node.
  destruct node as [children| | | | | | |].
  - apply HC.
    induction children as [|child children IHc]; constructor;
      [apply IH | exact IHc].
  - apply Ho; discriminate.
  - apply Ho; discriminate.
  - apply Ho; discriminate.
  - apply Ho; discriminate.
  - apply Ho; discriminate.
  - apply Ho; discriminate.
  - apply Ho; discriminate.
Qed.

Lemma lookups_analysis {A} scope l (r : A) a :
  SemanticAnalyzer.current_scope a = Some scope ->
  analysis l [] scope (lookups scope l r a).
Proof.
  intros Hs. unfold lookups, first_unresolved.
  destruct (List.find (unresolved scope) l) as [tok|] eqn:E.
  - right. exists tok, a. apply find_some in E. tauto.
  - left. exists r, a, scope.
    split; [reflexivity|]. split; [exact Hs|].
    split; [apply extends_refl|].
    intros tok Hin Hun.
    rewrite (find_none _ _ E tok Hin) in Hun. discriminate.
Qed.

Lemma insert_analysis {A} symbol (node : A) a scope :
  (forall k1, Py.eq k1 (Symbol_name symbol) = true ->
              k1 = Symbol_name symbol) ->
  SemanticAnalyzer.current_scope a = Some scope ->
  analysis [] [Symbol_name symbol] scope
    (bind (SemanticAnalyzer.insert symbol) (fun _ => ret node) a).
Proof.
  intros Hexact Hs. left. unfold bind. rewrite (insert_Return _ _ _ Hs).
  do 3 eexists. split; [reflexivity|].
  split; [reflexivity|].
  split; [now apply extends_insert|].
  intros tok [].
Qed.

Lemma visit_each_analysis children :
  Forall (fun node => forall a scope,
            SemanticAnalyzer.current_scope a = Some scope ->
            analysis (visited_Stmt node) (inserted_Stmt node) scope
              (SemanticAnalyzer.visit_Stmt node a)) children ->
  forall a scope,
    SemanticAnalyzer.current_scope a = Some scope ->
    analysis (flat_map visited_Stmt children)
      (flat_map inserted_Stmt children) scope
      (SemanticAnalyzer.visit_each SemanticAnalyzer.visit_Stmt children a).
Proof.
  induction 1 as [|child children Hchild _ IH]; intros a scope Hs;
    cbn [flat_map SemanticAnalyzer.visit_each].
  - left. exists [], a, scope.
    split; [reflexivity|]. split; [exact Hs|].
    split; [apply extends_refl|]. intros tok [].
  - unfold bind at 1.
    destruct (Hchild a scope Hs)
      as [(node' & a1 & scope1 & E1 & Hs1 & Hext1 & Hv1)
         |(tok & a' & E1 & Hin & Hun)]; rewrite E1.
    + unfold bind at 1.
      destruct (IH a1 scope1 Hs1)
        as [(l' & a2 & scope2 & E2 & Hs2 & Hext2 & Hv2)
           |(tok & a' & E2 & Hin & Hun)]; rewrite E2.
      * left. exists (node' :: l'), a2, scope2.
        split; [reflexivity|]. split; [exact Hs2|].
        split; [now apply extends_trans with scope1|].
        intros tok Hin Hun. apply in_app_or in Hin.
        destruct Hin as [Hin|Hin].
        { destruct (Hv1 tok Hin Hun) as (k & Hk & E).
          exists k. split; [apply in_or_app; now left | exact E]. }
        destruct (unresolved scope1 tok) eqn:Hun1.
        { destruct (Hv2 tok Hin Hun1) as (k & Hk & E).
          exists k. split; [apply in_or_app; now right | exact E]. }
        destruct (keys_cases (inserted_Stmt child) (Token.value tok))
          as [Hnone|(k & Hk & E)].
        { unfold unresolved in Hun, Hun1.
          rewrite (proj2 Hext1 _ Hnone) in Hun1. congruence. }
        exists k. split; [apply in_or_app; now left | exact E].
      * right. exists tok, a'. split; [reflexivity|].
        split; [apply in_or_app; now right|].
        unfold unresolved in *.
        pose proof (proj1 Hext1 (Token.value tok)) as Hmono.
        destruct (ScopedSymbolTable.lookup scope (Token.value tok));
          [|reflexivity].
        destruct (ScopedSymbolTable.lookup scope1 (Token.value tok));
          [discriminate|].
        exfalso. apply Hmono; [discriminate | reflexivity].
    + right. exists tok, a'. split; [reflexivity|].
      split; [apply in_or_app; now left | exact Hun].
Qed.

(** What the visit of any statement comes to. *)
Lemma visit_Stmt_analysis node : forall a scope,
  SemanticAnalyzer.current_scope a = Some scope ->
  analysis (visited_Stmt node) (inserted_Stmt node) scope
    (SemanticAnalyzer.visit_Stmt node a).
Proof.
  induction node as [children IH|node Hnode] using Stmt_children_ind;
    intros a scope Hs.
  - cbn [SemanticAnalyzer.visit_Stmt visited_Stmt inserted_Stmt].
    unfold bind.
    destruct (visit_each_analysis children IH a scope Hs)
      as [(l' & a' & scope' & E & Hs' & Hext & Hv)
         |(tok & a' & E & Hin & Hun)]; rewrite E.
    + left. now exists (Compound l'), a', scope'.
    + right. now exists tok, a'.
  - destruct node
      as [children|left_ op right_| |name args tok sym|name rel s els
         |name rel s|op param|op param].
    + now elim (Hnode children).
    + rewrite visit_Assign_lookups with (scope := scope) by exact Hs.
      now apply lookups_analysis.
    + now apply (lookups_analysis scope [] NoOp a).
    + rewrite visit_ProcedureCall_lookups with (scope := scope) by exact Hs.
      now apply lookups_analysis.
    + apply insert_analysis;
        [intros k1; apply Py_eq_enum_inv | exact Hs].
    + apply insert_analysis;
        [intros k1; apply Py_eq_enum_inv | exact Hs].
    + apply insert_analysis;
        [intros k1; apply Py_eq_str_inv | exact Hs].
    + apply insert_analysis;
        [intros k1; apply Py_eq_str_inv | exact Hs].
Qed.

(** C2, the claim as stated fails: in the program below [y] is declared
    nowhere, and is referred to in the condition and in both branches of
    an IF.  The program passes semantic analysis, is interpreted, and
    the run completes. *)
Lemma undeclared_in_if_counterexample :
  Main.main 50 true "PROGRAM p; BEGIN IF y = 1 THEN y := 2 ELSE y := 3 END."
  = Main.Completed
      (Interpreter.mk []
         [ENTER ARType.PROGRAM (VStr "p");
          CALL_STACK [new_record "p" ARType.PROGRAM 1];
          IF_RESULT (VStr "y") (VInt 3);
          LEAVE ARType.PROGRAM (VStr "p");
          CALL_STACK [new_record "p" ARType.PROGRAM 1]]).
Proof. vm_compute. reflexivity. Qed.

(** C2, amended.  The analyzer looks up the names of an assignment (its
    right-hand side, then its target) and of the arguments of a call,
    except those under a unary operator; it does not look inside an IF
    or a WHILE at all, neither at the condition nor at the branches or
    the body.  In a scope [scope], the visit of a statement either
    returns, and then every name it looked up is resolved by [scope] or
    is a key that the statement itself has filed; or it fails with an
    identifier-not-found error on a name that it looked up and that
    [scope] does not resolve.  An assignment fails on the first of its
    names that is not resolved.  An IF or a WHILE always passes, and so
    does an expression under a unary operator: an undeclared name in
    these positions reaches the interpreter. *)
Theorem undeclared_names_where_looked_up a scope :
  SemanticAnalyzer.current_scope a = Some scope ->
  (forall node,
     analysis (visited_Stmt node) (inserted_Stmt node) scope
       (SemanticAnalyzer.visit_Stmt node a))
  /\ (forall left_ op right_,
        SemanticAnalyzer.visit_Stmt (Assign left_ op right_) a
        = match first_unresolved scope
                  (visited_Expr right_ ++ visited_Expr left_) with
          | None => Return (Assign left_ op right_) a
          | Some tok => Raised (SemanticError ID_NOT_FOUND tok) a
          end)
  /\ (forall name rel statement elseStatement,
        SemanticAnalyzer.visit_Stmt
          (IfStatement name rel statement elseStatement) a
        = Return (IfStatement name rel statement elseStatement)
            (SemanticAnalyzer.mk
               (Some (ScopedSymbolTable.insert (IF_Symbol name) scope))
               (SemanticAnalyzer.store a)))
  /\ (forall name rel statement,
        SemanticAnalyzer.visit_Stmt (WhileStatement name rel statement) a
        = Return (WhileStatement name rel statement)
            (SemanticAnalyzer.mk
               (Some (ScopedSymbolTable.insert (IF_Symbol name) scope))
               (SemanticAnalyzer.store a)))
  /\ (forall op expr,
        SemanticAnalyzer.visit_Expr (UnaryOp op expr) a = Return tt a)
  /\ Main.main 50 false "PROGRAM p; VAR x: INTEGER; BEGIN x := y END."
     = Main.Exit1
         (SemanticError ID_NOT_FOUND
            (Token.mk TokenType.ID (VStr "y") (Some 1) (Some 39)))
  /\ Main.main 50 false "PROGRAM p; VAR x: INTEGER; BEGIN x := -y END."
     = Main.Uncaught TypeError.
Proof.
  intros Hs.
  split; [intros node; now apply visit_Stmt_analysis|].
  split; [intros left_ op right_; now apply visit_Assign_lookups|].
  split.
  { intros name rel statement elseStatement.
    cbn [SemanticAnalyzer.visit_Stmt]. unfold bind.
    now rewrite (insert_Return _ _ _ Hs). }
  split.
  { intros name rel statement.
    cbn [SemanticAnalyzer.visit_Stmt]. unfold bind.
    now rewrite (insert_Return _ _ _ Hs). }
  split; [reflexivity|].
  split; vm_compute; reflexivity.
Qed.

Lemma undeclared_names_where_looked_up_witness :
  let y := Token.mk TokenType.ID (VStr "y") (Some 1) (Some 1) in
  let assign := Token.mk TokenType.ASSIGN (VStr ":=") (Some 1) (Some 3) in
  let one := Token.mk TokenType.INTEGER_CONST (VInt 1) (Some 1) (Some 6) in
  let a := SemanticAnalyzer.mk (Some global_scope) [] in
  SemanticAnalyzer.visit_Stmt (Assign (Var y) assign (Num one)) a
  = Raised (SemanticError ID_NOT_FOUND y) a.
Proof.
  intros y assign one a.
  exact (proj1 (proj2 (undeclared_names_where_looked_up a global_scope
                         eq_refl))
           (Var y) assign (Num one)).
Defined.

(* ------------------------------------------------------------------ *)
(** * What every step of the lexer keeps *)

Section LexerInvariant.
(** A property of the lexer that advancing keeps and that does not
    depend on the count of quotes. *)
Variable I : Lexer.t -> Prop.
Hypothesis I_advance : forall lx, I lx -> I (Lexer.advance lx).
Hypothesis I_quote : forall lx q, I lx ->
  I (Lexer.mk q (Lexer.text lx) (Lexer.pos lx) (Lexer.current_char lx)
       (Lexer.lineno lx) (Lexer.column lx)).

Lemma bind_keeps {A B} (c : M Lexer.t A) (k : A -> M Lexer.t B) :
  (forall lx, I lx -> I (final_state (c lx))) ->
  (forall a lx, I lx -> I (final_state (k a lx))) ->
  forall lx, I lx -> I (final_state (bind c k lx)).
Proof.
  intros Hc Hk lx H. unfold bind. specialize (Hc lx H).
  destruct (c lx); cbn [final_state] in *; auto.
Qed.

Lemma while_keeps cond fuel : forall lx,
  I lx -> I (final_state (while fuel cond (modify Lexer.advance) lx)).
Proof.
  induction fuel as [|fuel IH]; intros lx H; cbn [while];
    destruct (cond lx); cbn [final_state]; auto.
  unfold bind, modify. auto.
Qed.

Lemma scan_keeps p fuel : forall acc lx,
  I lx -> I (final_state (Lexer.scan fuel p acc lx)).
Proof.
  induction fuel as [|fuel IH]; intros acc lx H; cbn [Lexer.scan];
    destruct (Lexer.current_char lx) as [c|]; cbn [final_state]; auto;
    destruct (p c); cbn [final_state]; auto.
Qed.

Lemma skip_comment_keeps fuel lx :
  I lx -> I (final_state (Lexer.skip_comment fuel lx)).
Proof.
  revert lx. unfold Lexer.skip_comment. apply bind_keeps.
  - apply while_keeps.
  - intros _ lx H. cbn. auto.
Qed.

Lemma number_keeps fuel lx :
  I lx -> I (final_state (Lexer.number fuel lx)).
Proof.
  intros H. unfold Lexer.number. revert lx H. intros lx0.
  apply bind_keeps; [apply scan_keeps|]. intros result.
  apply bind_keeps; [intros lx H; exact H|]. intros [|].
  - apply bind_keeps; [intros lx H; cbn; auto|]. intros _.
    apply bind_keeps; [apply scan_keeps|]. intros result'.
    apply bind_keeps.
    + intros lx H. unfold lift. now destruct (Py.float_of_str _).
    + intros f lx H. exact H.
  - apply bind_keeps.
    + intros lx H. unfold lift. now destruct (Py.int_of_str _).
    + intros n lx H. exact H.
Qed.

Lemma string_builder_keeps fuel lx :
  I lx -> I (final_state (Lexer.string_builder fuel lx)).
Proof.
  intros H. unfold Lexer.string_builder. revert lx H. intros lx0.
  apply bind_keeps; [apply scan_keeps|]. intros result.
  apply bind_keeps; [intros lx H; exact H|]. intros [|].
  - apply bind_keeps; [intros lx H; cbn; auto|]. intros _.
    apply bind_keeps; [intros lx H; cbn; auto|]. intros _ lx H. exact H.
  - intros lx H. exact H.
Qed.

Lemma _id_keeps fuel lx :
  I lx -> I (final_state (Lexer._id fuel lx)).
Proof.
  intros H. unfold Lexer._id. revert lx H. intros lx0.
  apply bind_keeps; [apply scan_keeps|]. intros value lx H.
  now destruct (RESERVED_KEYWORDS_get _ _).
Qed.

(** Whatever its outcome, a request for the next token keeps the
    property. *)
Lemma get_next_token_keeps fuel : forall lx,
  I lx -> I (final_state (Lexer.get_next_token fuel lx)).
Proof.
  induction fuel as [|fuel IH]; intros lx H; cbn [Lexer.get_next_token];
    destruct (Lexer.current_char lx) as [c|]; cbn [final_state]; auto.
  destruct (Ascii.eqb c ":" && _); [cbn [final_state]; auto|].
  destruct (Py.isspace c).
  { revert lx H. apply bind_keeps; [apply while_keeps | intros _; exact IH]. }
  destruct (Ascii.eqb c "'").
  { revert lx H. apply bind_keeps; [intros lx H; cbn; auto|]. intros _.
    apply bind_keeps; [intros lx H; cbn; auto|]. intros _.
    apply string_builder_keeps. }
  destruct (Ascii.eqb c "{").
  { revert lx H. apply bind_keeps; [intros lx H; cbn; auto|]. intros _.
    apply bind_keeps; [apply skip_comment_keeps | intros _; exact IH]. }
  destruct (Py.isalpha c).
  { revert lx H. apply bind_keeps; [apply _id_keeps|].
    intros tok lx H. exact H. }
  destruct (Py.isdigit c).
  { revert lx H. apply bind_keeps; [apply number_keeps|].
    intros tok lx H. exact H. }
  destruct (TokenType.of_value _); cbn [final_state]; auto.
Qed.
End LexerInvariant.

(** ** Positions *)

Lemma take_succ n : forall s c,
  String.get n s = Some c -> take (S n) s = (take n s ++ String c "")%string.
Proof.
  induction n as [|n IH]; intros [|x s] c H; try discriminate.
  - cbn in H. injection H as ->. reflexivity.
  - cbn [String.get] in H. change (take (S (S n)) (String x s))
      with (String x (take (S n) s)).
    now rewrite (IH s c H).
Qed.

Lemma take_end n : forall s,
  String.get n s = None -> take (S n) s = take n s.
Proof.
  induction n as [|n IH]; intros [|x s] H; try discriminate; try reflexivity.
  cbn [String.get] in H. change (take (S (S n)) (String x s))
    with (String x (take (S n) s)).
  now rewrite (IH s H).
Qed.

Lemma line_col_last s : forall l c x,
  line_col l c (s ++ String x "")
  = if Ascii.eqb x Lexer.newline then (S (fst (line_col l c s)), 1)
    else (fst (line_col l c s), S (snd (line_col l c s))).
Proof.
  induction s as [|y s IH]; intros l c x; cbn [append line_col].
  - now destruct (Ascii.eqb x Lexer.newline).
  - destruct (Ascii.eqb y Lexer.newline); apply IH.
Qed.

Lemma wf_get lx : Lexer_wf lx ->
  Lexer.current_char lx = String.get (Lexer.pos lx) (Lexer.text lx).
Proof. unfold Lexer_wf, remaining. intros ->. now rewrite get_drop. Qed.

Lemma advance_tracks lx : tracks_position lx -> tracks_position (Lexer.advance lx).
Proof.
  intros (Hwf & Hline & Hcol). split; [apply advance_wf|].
  pose proof (wf_get lx Hwf) as Hget.
  unfold consumed in *. rewrite advance_text, advance_pos.
  unfold Lexer.advance.
  destruct (Lexer.current_char lx) as [c|] eqn:Hc.
  - rewrite (take_succ _ _ c) by congruence. rewrite line_col_last.
    cbn [Lexer.is_char].
    destruct (Nat.leb _ _);
      cbn [Lexer.lineno Lexer.column Lexer.current_char];
      (split; [|intros Hcur; try congruence]);
      destruct (Ascii.eqb c Lexer.newline); cbn [fst snd];
      try congruence; rewrite Hcol; congruence.
  - rewrite take_end by congruence. cbn [Lexer.is_char].
    assert (Hend : Nat.leb (String.length (Lexer.text lx)) (S (Lexer.pos lx))
                   = true).
    { apply drop_length. apply drop_succ_empty.
      unfold Lexer_wf, remaining in Hwf. rewrite Hc in Hwf.
      destruct (drop _ _); [reflexivity | discriminate]. }
    rewrite Hend. cbn [Lexer.lineno Lexer.column Lexer.current_char].
    split; [exact Hline | congruence].
Qed.

Lemma init_tracks text lx : Lexer.__init__ text = Ok lx -> tracks_position lx.
Proof.
  intros H. pose proof (init_wf _ _ H) as [Hwf _].
  unfold Lexer.__init__ in H. destruct (String.get 0 text); [|discriminate].
  injection H as <-. split; [exact Hwf|]. now split.
Qed.

(* ------------------------------------------------------------------ *)
(** * The exceptions of the lexer *)

Lemma int_of_str_error s e : Py.int_of_str s = Err e -> e = ValueError.
Proof.
  unfold Py.int_of_str.
  destruct (list_ascii_of_string s); [congruence|].
  destruct (forallb _ _); congruence.
Qed.

Lemma float_of_str_error s e : Py.float_of_str s = Err e -> e = ValueError.
Proof.
  unfold Py.float_of_str.
  repeat match goal with
    | |- context [if ?b then _ else _] => destruct b
    | |- context [match ?x with _ => _ end] => destruct x
    end; congruence.
Qed.

Lemma bind_raises {A B} (c : M Lexer.t A) (k : A -> M Lexer.t B) :
  (forall lx e lx', c lx = Raised e lx' -> lexer_exception e lx') ->
  (forall a lx e lx', k a lx = Raised e lx' -> lexer_exception e lx') ->
  forall lx e lx', bind c k lx = Raised e lx' -> lexer_exception e lx'.
Proof.
  intros Hc Hk lx e lx'. unfold bind.
  destruct (c lx) as [a s|e0 s|s] eqn:E; try discriminate; eauto.
  intros [= <- <-]. eauto.
Qed.

Lemma while_raises cond fuel : forall lx e lx',
  while fuel cond (modify Lexer.advance) lx = Raised e lx' ->
  lexer_exception e lx'.
Proof.
  induction fuel as [|fuel IH]; intros lx e lx'; cbn [while];
    destruct (cond lx); try discriminate.
  unfold bind, modify. apply IH.
Qed.

Lemma scan_raises p fuel : forall acc lx e lx',
  Lexer.scan fuel p acc lx = Raised e lx' -> lexer_exception e lx'.
Proof.
  induction fuel as [|fuel IH]; intros acc lx e lx'; cbn [Lexer.scan];
    destruct (Lexer.current_char lx) as [c|]; try discriminate;
    destruct (p c); try discriminate.
  apply IH.
Qed.

Lemma skip_comment_raises fuel lx e lx' :
  Lexer.skip_comment fuel lx = Raised e lx' -> lexer_exception e lx'.
Proof.
  revert lx e lx'. unfold Lexer.skip_comment. apply bind_raises.
  - apply while_raises.
  - discriminate.
Qed.

Lemma number_raises fuel lx e lx' :
  Lexer.number fuel lx = Raised e lx' -> lexer_exception e lx'.
Proof.
  unfold Lexer.number. revert lx e lx'. intros lx0.
  apply bind_raises; [apply scan_raises|]. intros result.
  apply bind_raises; [discriminate|]. intros [|].
  - apply bind_raises; [discriminate|]. intros _.
    apply bind_raises; [apply scan_raises|]. intros result'.
    apply bind_raises; [|discriminate].
    intros lx e lx'. unfold lift.
    destruct (Py.float_of_str _) eqn:E; [discriminate|].
    intros [= <- <-]. right. eapply float_of_str_error; eauto.
  - apply bind_raises; [|discriminate].
    intros lx e lx'. unfold lift.
    destruct (Py.int_of_str _) eqn:E; [discriminate|].
    intros [= <- <-]. right. eapply int_of_str_error; eauto.
Qed.

Lemma string_builder_raises fuel lx e lx' :
  Lexer.string_builder fuel lx = Raised e lx' -> lexer_exception e lx'.
Proof.
  unfold Lexer.string_builder. revert lx e lx'. intros lx0.
  apply bind_raises; [apply scan_raises|]. intros result.
  apply bind_raises; [discriminate|]. intros [|]; [|discriminate].
  apply bind_raises; [discriminate|]. intros _.
  apply bind_raises; discriminate.
Qed.

Lemma _id_raises fuel lx e lx' :
  Lexer._id fuel lx = Raised e lx' -> lexer_exception e lx'.
Proof.
  unfold Lexer._id. revert lx e lx'. intros lx0.
  apply bind_raises; [apply scan_raises|]. intros value lx e lx'.
  destruct (RESERVED_KEYWORDS_get _ _); discriminate.
Qed.

Lemma get_next_token_raises fuel : forall lx e lx',
  Lexer.get_next_token fuel lx = Raised e lx' -> lexer_exception e lx'.
Proof.
  induction fuel as [|fuel IH]; intros lx e lx'; cbn [Lexer.get_next_token];
    destruct (Lexer.current_char lx) as [c|] eqn:Hc; try discriminate.
  destruct (Ascii.eqb c ":" && _); [discriminate|].
  destruct (Py.isspace c).
  { revert lx Hc e lx'. intros lx _.
    apply bind_raises; [apply while_raises | intros _; exact IH]. }
  destruct (Ascii.eqb c "'").
  { revert lx Hc e lx'. intros lx _.
    apply bind_raises; [discriminate|]. intros _.
    apply bind_raises; [discriminate|]. intros _.
    apply string_builder_raises. }
  destruct (Ascii.eqb c "{").
  { revert lx Hc e lx'. intros lx _.
    apply bind_raises; [discriminate|]. intros _.
    apply bind_raises; [apply skip_comment_raises | intros _; exact IH]. }
  destruct (Py.isalpha c).
  { revert lx Hc e lx'. intros lx _.
    apply bind_raises; [apply _id_raises | discriminate]. }
  destruct (Py.isdigit c).
  { revert lx Hc e lx'. intros lx _.
    apply bind_raises; [apply number_raises | discriminate]. }
  destruct (TokenType.of_value _); [discriminate|].
  unfold Lexer.error. intros [= <- <-]. left. exists c. now rewrite Hc.
Qed.

(** The lexer reads its text forward: whatever the outcome of a request
    for the next token, the text is the same, the position has not
    decreased, and the current character is the character of the text
    at the position (none when the position is at or past the end). *)
Theorem lexer_reads_forward fuel lx :
  Lexer_wf lx ->
  let lx' := final_state (Lexer.get_next_token fuel lx) in
  Lexer.text lx' = Lexer.text lx
  /\ Lexer.pos lx <= Lexer.pos lx'
  /\ Lexer.current_char lx' = String.get (Lexer.pos lx') (Lexer.text lx').
Proof.
  intros Hwf lx'.
  assert (H1 : moved_on lx lx').
  { apply (get_next_token_keeps (moved_on lx)).
    - intros l [Ht Hp]. split; [now rewrite advance_text|].
      rewrite advance_pos. lia.
    - intros l q H. exact H.
    - split; [reflexivity | lia]. }
  assert (H2 : Lexer_wf lx').
  { apply (get_next_token_keeps Lexer_wf); auto.
    intros l _. apply advance_wf. }
  destruct H1 as [Ht Hp]. repeat split; auto. now apply wf_get.
Qed.

Lemma lexer_reads_forward_witness :
  let lx := Lexer.mk 0 "ab  :=" 0 (Some "a"%char) 1 1 in
  let lx' := final_state (Lexer.get_next_token 5 lx) in
  Lexer.text lx' = Lexer.text lx
  /\ Lexer.pos lx <= Lexer.pos lx'
  /\ Lexer.current_char lx' = String.get (Lexer.pos lx') (Lexer.text lx').
Proof.
  intros lx. apply (lexer_reads_forward 5 lx). reflexivity.
Defined.

(** The lexer counts lines and columns from 1: the count is right when
    the lexer is created, and every request for the next token keeps it
    right.  The only exceptions of a request are the ValueError of a
    number made of digits that [int] and [float] do not accept, and the
    lexical error, which reports the character on which the lexer
    stands with the line and the column of that character. *)
Theorem lexer_error_position :
  (forall text lx, Lexer.__init__ text = Ok lx -> tracks_position lx)
  /\ (forall fuel lx,
        tracks_position lx ->
        tracks_position (final_state (Lexer.get_next_token fuel lx)))
  /\ (forall fuel lx e lx',
        tracks_position lx ->
        Lexer.get_next_token fuel lx = Raised e lx' ->
        e = ValueError
        \/ exists c,
             String.get (Lexer.pos lx') (Lexer.text lx') = Some c
             /\ e = LexerError (Some c)
                      (fst (line_col 1 1 (consumed lx')))
                      (snd (line_col 1 1 (consumed lx')))).
Proof.
  assert (Hkeep : forall fuel lx,
            tracks_position lx ->
            tracks_position (final_state (Lexer.get_next_token fuel lx))).
  { intros fuel lx H.
    apply (get_next_token_keeps tracks_position); auto using advance_tracks. }
  split; [exact init_tracks|]. split; [exact Hkeep|].
  intros fuel lx e lx' H Hraise.
  pose proof (Hkeep fuel lx H) as Hfinal. rewrite Hraise in Hfinal.
  cbn [final_state] in Hfinal.
  destruct (get_next_token_raises _ _ _ _ Hraise) as [(c & Hc & ->) | ->];
    [right | now left].
  destruct Hfinal as (Hwf & Hline & Hcol).
  exists c. split; [now rewrite <- (wf_get lx' Hwf)|].
  rewrite Hline, Hcol by congruence. reflexivity.
Qed.

(* ------------------------------------------------------------------ *)
(** * The tokens that the lexer can return *)

Lemma RESERVED_KEYWORDS_get_In l k t :
  RESERVED_KEYWORDS_get l k = Some t -> In (k, t) l.
Proof.
  induction l as [|[k' t'] l IH]; cbn [RESERVED_KEYWORDS_get];
    [discriminate|].
  destruct (String.eqb_spec k' k) as [->|_].
  - intros [= ->]. now left.
  - intros H. right. auto.
Qed.

Lemma reserved_lexed k t :
  RESERVED_KEYWORDS_get RESERVED_KEYWORDS k = Some t -> ~ In t never_lexed.
Proof.
  intros H. apply RESERVED_KEYWORDS_get_In in H.
  apply (in_map snd) in H. cbn in H. cbn.
  intuition (subst; discriminate).
Qed.

Lemma of_value_lexed c t :
  Ascii.eqb c "'" = false ->
  TokenType.of_value (String c "") = Some t -> ~ In t never_lexed.
Proof.
  intros Hquote H. unfold TokenType.of_value in H.
  apply find_some in H. destruct H as [_ H].
  intros Hin. cbn in Hin.
  destruct Hin as [<-|[<-|[<-|[<-|[<-|[]]]]]];
    cbn [String.eqb TokenType.value] in H;
    match type of H with
    | context [Ascii.eqb ?x c] => destruct (Ascii.eqb_spec x c) as [<-|]
    end; discriminate.
Qed.

Lemma bind_returns {A B} (P : B -> Prop) (c : M Lexer.t A)
    (k : A -> M Lexer.t B) :
  (forall a lx b lx', k a lx = Return b lx' -> P b) ->
  forall lx b lx', bind c k lx = Return b lx' -> P b.
Proof.
  intros Hk lx b lx'. unfold bind.
  destruct (c lx) as [a s|e s|s]; try discriminate. eauto.
Qed.

(** The tokens of each rule, and a token of none of the types that the
    lexer has no rule for. *)
Lemma get_next_token_lexed fuel : forall lx tok lx',
  Lexer.get_next_token fuel lx = Return (Some tok) lx' ->
  ~ In (Token.type tok) never_lexed.
Proof.
  induction fuel as [|fuel IH]; intros lx tok lx';
    cbn [Lexer.get_next_token];
    destruct (Lexer.current_char lx) as [c|] eqn:Hc; try discriminate.
  - intros [= <- _]. cbn. intuition discriminate.
  - destruct (Ascii.eqb c ":" && _).
    { intros [= <- _]. cbn. intuition discriminate. }
    destruct (Py.isspace c).
    { intros H. unfold bind in H.
      destruct (Lexer.skip_whitespace fuel lx); try discriminate. eauto. }
    destruct (Ascii.eqb c "'") eqn:Hquote.
    { intros H. unfold bind, modify in H. unfold Lexer.string_builder in H.
      unfold bind in H.
      destruct (Lexer.scan _ _ _ _) as [result s| |]; try discriminate.
      unfold gets in H. destruct (Lexer.is_char _ _); [|discriminate].
      unfold ret in H. injection H as <- _. cbn. intuition discriminate. }
    destruct (Ascii.eqb c "{").
    { intros H. unfold bind, modify in H.
      destruct (Lexer.skip_comment fuel _); try discriminate. eauto. }
    destruct (Py.isalpha c).
    { intros H. unfold bind, Lexer._id in H. unfold bind in H.
      destruct (Lexer.scan _ _ _ _) as [value s| |]; try discriminate.
      destruct (RESERVED_KEYWORDS_get _ _) as [t|] eqn:Hkey;
        unfold ret in H; injection H as <- _.
      - cbn [Lexer.new_token Token.type]. eapply reserved_lexed; eauto.
      - cbn. intuition discriminate. }
    destruct (Py.isdigit c).
    { intros H. unfold bind, Lexer.number in H. unfold bind in H.
      destruct (Lexer.scan _ _ _ _) as [result s| |]; try discriminate.
      unfold gets in H. destruct (_ && _).
      - unfold modify in H.
        destruct (Lexer.scan _ _ _ _) as [result' s'| |]; try discriminate.
        unfold lift in H. destruct (Py.float_of_str _); try discriminate.
        unfold ret in H. injection H as <- _. cbn. intuition discriminate.
      - unfold lift in H. destruct (Py.int_of_str _); try discriminate.
        unfold ret in H. injection H as <- _. cbn. intuition discriminate. }
    destruct (TokenType.of_value _) as [t|] eqn:Hval; [|discriminate].
    intros [= <- _]. cbn [Lexer.new_token Token.type].
    eapply of_value_lexed; eauto.
  - intros [= <- _]. cbn. intuition discriminate.
Qed.

(** A character that is a token by itself. *)
Lemma lex_single fuel lx c rest t :
  Lexer_wf lx ->
  remaining lx = String c rest ->
  In (c, t)
    [("<"%char, TokenType.LESS); (">"%char, TokenType.GREATER);
     ("="%char, TokenType.EQUAL)] ->
  Lexer.get_next_token (S fuel) lx
  = Return (Some (Lexer.new_token t (VStr (String c "")) lx))
      (Lexer.advance lx).
Proof.
  intros Hwf Hrem Hin. cbn [Lexer.get_next_token].
  rewrite (wf_current _ _ _ Hwf Hrem).
  cbn in Hin. destruct Hin as [[= <- <-]|[[= <- <-]|[[= <- <-]|[]]]];
    reflexivity.
Qed.

(** The lexer has no rule for the two-character relational operators,
    for a lone quote token and for character constants: no request for
    the next token, on any text, returns a token of type LESSEQUAL,
    NOTEQUAL, GREATEREQUAL, QUOTE or CHAR_CONST.  The texts [<=], [>=]
    and [<>] are each lexed as two tokens. *)
Theorem two_character_operators_never_lexed :
  (forall fuel lx tok lx',
     Lexer.get_next_token fuel lx = Return (Some tok) lx' ->
     ~ In (Token.type tok) never_lexed)
  /\ (forall fuel lx a b ta tb rest,
        Lexer_wf lx ->
        remaining lx = String a (String b rest) ->
        In (a, b, ta, tb)
          [("<"%char, "="%char, TokenType.LESS, TokenType.EQUAL);
           (">"%char, "="%char, TokenType.GREATER, TokenType.EQUAL);
           ("<"%char, ">"%char, TokenType.LESS, TokenType.GREATER)] ->
        exists tok1 lx1 tok2 lx2,
          Lexer.get_next_token (S fuel) lx = Return (Some tok1) lx1
          /\ Lexer.get_next_token (S fuel) lx1 = Return (Some tok2) lx2
          /\ shape (Some tok1) = Some (ta, VStr (String a ""))
          /\ shape (Some tok2) = Some (tb, VStr (String b ""))
          /\ remaining lx2 = rest).
Proof.
  split; [exact get_next_token_lexed|].
  intros fuel lx a b ta tb rest Hwf Hrem Hin.
  assert (Ha : In (a, ta)
                 [("<"%char, TokenType.LESS); (">"%char, TokenType.GREATER);
                  ("="%char, TokenType.EQUAL)])
    by (cbn in *; intuition congruence).
  assert (Hb : In (b, tb)
                 [("<"%char, TokenType.LESS); (">"%char, TokenType.GREATER);
                  ("="%char, TokenType.EQUAL)])
    by (cbn in *; intuition congruence).
  pose proof (advance_wf lx) as Hwf1.
  pose proof (advance_remaining _ _ _ Hrem) as Hrem1.
  do 4 eexists.
  split; [apply (lex_single fuel lx a _ ta Hwf Hrem Ha)|].
  split; [apply (lex_single fuel _ b _ tb Hwf1 Hrem1 Hb)|].
  split; [reflexivity|]. split; [reflexivity|].
  eapply advance_remaining; eauto.
Qed.

Lemma two_character_operators_never_lexed_witness :
  exists tok1 lx1 tok2 lx2,
    Lexer.get_next_token 1 (Lexer.mk 0 "<=1" 0 (Some "<"%char) 1 1)
    = Return (Some tok1) lx1
    /\ Lexer.get_next_token 1 lx1 = Return (Some tok2) lx2
    /\ shape (Some tok1) = Some (TokenType.LESS, VStr "<")
    /\ shape (Some tok2) = Some (TokenType.EQUAL, VStr "=")
    /\ remaining lx2 = "1".
Proof.
  apply (proj2 two_character_operators_never_lexed 0
           (Lexer.mk 0 "<=1" 0 (Some "<"%char) 1 1)
           "<"%char "="%char TokenType.LESS TokenType.EQUAL "1").
  - reflexivity.
  - reflexivity.
  - now left.
Defined.

(* ------------------------------------------------------------------ *)
(** * The rules of the lexer, one by one *)

(** A loop that advances while the current character satisfies [q]
    consumes a run [ws] of such characters that is followed by one that
    does not satisfy [q]. *)
Lemma while_advance (q : option ascii -> bool) (ws : string) :
  forall fuel lx rest,
    Lexer_wf lx ->
    remaining lx = (ws ++ rest)%string ->
    string_forall (fun c => q (Some c)) ws = true ->
    q (head rest) = false ->
    String.length ws <= fuel ->
    exists lx',
      while fuel (fun lx => q (Lexer.current_char lx))
        (modify Lexer.advance) lx = Return tt lx'
      /\ Lexer_wf lx' /\ remaining lx' = rest.
Proof.
  induction ws as [|c ws IH]; intros fuel lx rest Hwf Hrem Hq Hstop Hfuel.
  - cbn [append] in Hrem. exists lx. split; [|now split].
    unfold Lexer_wf in Hwf. rewrite Hrem in Hwf.
    destruct fuel; cbn [while]; now rewrite Hwf, Hstop.
  - cbn [append string_forall String.length] in *.
    apply andb_true_iff in Hq as [Hc Hq].
    destruct fuel as [|fuel]; [lia|].
    destruct (IH fuel (Lexer.advance lx) rest) as (lx' & Hloop & Hwf' & Hrem');
      auto.
    + apply advance_wf.
    + eapply advance_remaining; eauto.
    + lia.
    + exists lx'. split; [|now split].
      cbn [while]. rewrite (wf_current _ _ _ Hwf Hrem), Hc.
      unfold bind, modify. exact Hloop.
Qed.

Lemma space_dispatch c : Py.isspace c = true -> Ascii.eqb c ":" = false.
Proof. ascii_cases c. Qed.

(** White space before a token is skipped: the next token is the one
    that the lexer finds after the white space. *)
Theorem whitespace_is_skipped fuel lx ws rest :
  Lexer_wf lx ->
  remaining lx = (ws ++ rest)%string ->
  ws <> EmptyString ->
  string_forall Py.isspace ws = true ->
  stops Py.isspace rest ->
  String.length ws <= fuel ->
  exists lx',
    Lexer.get_next_token (S fuel) lx = Lexer.get_next_token fuel lx'
    /\ Lexer_wf lx' /\ remaining lx' = rest
    /\ Lexer.text lx' = Lexer.text lx
    /\ (tracks_position lx -> tracks_position lx').
Proof.
  intros Hwf Hrem Hne Hws Hstop Hfuel.
  destruct (while_advance
              (fun o => match o with Some c => Py.isspace c | None => false end)
              ws fuel lx rest) as (lx' & Hloop & Hwf' & Hrem'); auto.
  { destruct rest; [reflexivity | exact Hstop]. }
  exists lx'. split; [|split; [exact Hwf'|split; [exact Hrem'|]]].
  - destruct ws as [|c ws]; [congruence|].
    cbn [append string_forall] in *. apply andb_true_iff in Hws as [Hc _].
    cbn [Lexer.get_next_token]. rewrite (wf_current _ _ _ Hwf Hrem).
    rewrite (space_dispatch c Hc), Hc. cbn [andb].
    unfold bind at 1. unfold Lexer.skip_whitespace, Lexer.current_is.
    now rewrite Hloop.
  - assert (E : lx' = final_state
                        (while fuel
                           (fun lx => match Lexer.current_char lx with
                                      | Some c => Py.isspace c
                                      | None => false
                                      end)
                           (modify Lexer.advance) lx))
      by now rewrite Hloop.
    split.
    + rewrite E.
      apply (while_keeps (fun l => Lexer.text l = Lexer.text lx)); auto.
      intros l H. now rewrite advance_text.
    + intros Ht. rewrite E.
      apply (while_keeps tracks_position); auto using advance_tracks.
Qed.

Lemma whitespace_is_skipped_witness :
  exists lx',
    Lexer.get_next_token 3 (Lexer.mk 0 "  x" 0 (Some " "%char) 1 1)
    = Lexer.get_next_token 2 lx'
    /\ Lexer_wf lx' /\ remaining lx' = "x"
    /\ Lexer.text lx' = "  x"
    /\ (tracks_position (Lexer.mk 0 "  x" 0 (Some " "%char) 1 1) ->
        tracks_position lx').
Proof.
  apply (whitespace_is_skipped 2 (Lexer.mk 0 "  x" 0 (Some " "%char) 1 1)
           "  " "x"); try reflexivity.
  discriminate.
Defined.

(** A comment runs from an opening brace to the first closing brace,
    whatever stands in between (quotes, line ends, further opening
    braces); the next token is the one that the lexer finds after the
    closing brace. *)
Theorem comment_is_skipped fuel lx body rest :
  Lexer_wf lx ->
  remaining lx = String "{" (body ++ String "}" rest) ->
  string_forall not_closing body = true ->
  String.length body <= fuel ->
  exists lx',
    Lexer.get_next_token (S fuel) lx = Lexer.get_next_token fuel lx'
    /\ Lexer_wf lx' /\ remaining lx' = rest
    /\ Lexer.text lx' = Lexer.text lx
    /\ (tracks_position lx -> tracks_position lx').
Proof.
  intros Hwf Hrem Hbody Hfuel.
  destruct (while_advance
              (fun o => negb (Lexer.is_char "}" o))
              body fuel (Lexer.advance lx) (String "}" rest))
    as (lx1 & Hloop & Hwf1 & Hrem1); auto.
  { apply advance_wf. }
  { eapply advance_remaining; eauto. }
  assert (Hskip : Lexer.skip_comment fuel (Lexer.advance lx)
                  = Return tt (Lexer.advance lx1)).
  { unfold Lexer.skip_comment, bind. now rewrite Hloop. }
  exists (Lexer.advance lx1).
  split; [|split; [apply advance_wf|split]].
  - cbn [Lexer.get_next_token]. rewrite (wf_current _ _ _ Hwf Hrem).
    cbn [Ascii.eqb Bool.eqb andb]. change (Py.isspace "{") with false.
    cbv iota. unfold bind at 1. unfold modify at 1.
    unfold bind at 1. now rewrite Hskip.
  - eapply advance_remaining; eauto.
  - assert (E : Lexer.advance lx1
                = final_state (Lexer.skip_comment fuel (Lexer.advance lx)))
      by now rewrite Hskip.
    split.
    + rewrite E.
      apply (skip_comment_keeps (fun l => Lexer.text l = Lexer.text lx)).
      * intros l H. now rewrite advance_text.
      * apply advance_text.
    + intros Ht. rewrite E.
      apply (skip_comment_keeps tracks_position);
        auto using advance_tracks.
Qed.

Lemma comment_is_skipped_witness :
  exists lx',
    Lexer.get_next_token 5 (Lexer.mk 0 "{a'{}x" 0 (Some "{"%char) 1 1)
    = Lexer.get_next_token 4 lx'
    /\ Lexer_wf lx' /\ remaining lx' = "x"
    /\ Lexer.text lx' = "{a'{}x"
    /\ (tracks_position (Lexer.mk 0 "{a'{}x" 0 (Some "{"%char) 1 1) ->
        tracks_position lx').
Proof.
  apply (comment_is_skipped 4 (Lexer.mk 0 "{a'{}x" 0 (Some "{"%char) 1 1)
           "a'{" "x"); try reflexivity.
  cbn. repeat constructor.
Defined.

(* ------------------------------------------------------------------ *)
(** * Tokens: positions, strings, words and numbers *)

(** A token carries the line and the column at which the lexer stood
    when it began the token: on the first character of the lexeme, and
    for a string literal on the character after the opening quote. *)
Theorem token_carries_position fuel lx c tok lx' :
  Lexer.current_char lx = Some c ->
  Py.isspace c = false ->
  Ascii.eqb c "{" = false ->
  Lexer.get_next_token fuel lx = Return (Some tok) lx' ->
  let start := if Ascii.eqb c "'" then Lexer.advance lx else lx in
  Token.lineno tok = Some (Lexer.lineno start)
  /\ Token.column tok = Some (Lexer.column start).
Proof.
  intros Hc Hspace Hbrace H start.
  destruct fuel as [|fuel]; cbn [Lexer.get_next_token] in H;
    rewrite Hc in H; [discriminate|].
  rewrite Hspace, Hbrace in H. subst start.
  destruct (Ascii.eqb c ":" && _) eqn:Hassign.
  { apply andb_true_iff in Hassign as [Hcolon _].
    apply Ascii.eqb_eq in Hcolon. subst c.
    injection H as <- _. now split. }
  clear Hassign.
  destruct (Ascii.eqb c "'").
  { unfold bind, modify in H. unfold Lexer.string_builder in H.
    unfold bind in H.
    destruct (Lexer.scan _ _ _ _) as [result s| |]; try discriminate.
    unfold gets in H.
    destruct (Lexer.is_char "'" _); cbv beta iota delta [ret modify] in H;
      [|discriminate].
    injection H as <- _. now split. }
  destruct (Py.isalpha c).
  { unfold bind, Lexer._id in H. unfold bind in H.
    destruct (Lexer.scan _ _ _ _) as [value s| |]; try discriminate.
    destruct (RESERVED_KEYWORDS_get _ _);
      unfold ret in H; injection H as <- _; now split. }
  destruct (Py.isdigit c).
  { unfold bind, Lexer.number in H. unfold bind in H.
    destruct (Lexer.scan _ _ _ _) as [result s| |]; try discriminate.
    unfold gets in H. destruct (_ && _).
    - unfold modify in H.
      destruct (Lexer.scan _ _ _ _) as [result' s'| |]; try discriminate.
      unfold lift in H. destruct (Py.float_of_str _); try discriminate.
      unfold ret in H. injection H as <- _. now split.
    - unfold lift in H. destruct (Py.int_of_str _); try discriminate.
      unfold ret in H. injection H as <- _. now split. }
  destruct (TokenType.of_value _); [|discriminate].
  injection H as <- _. now split.
Qed.

Lemma token_carries_position_witness :
  let lx := Lexer.mk 0 "ab  :=" 0 (Some "a"%char) 1 1 in
  let tok := Token.mk TokenType.ID (VStr "ab") (Some 1) (Some 1) in
  Token.lineno tok = Some (Lexer.lineno lx)
  /\ Token.column tok = Some (Lexer.column lx).
Proof.
  intros lx tok.
  apply (token_carries_position 5 lx "a"%char tok
           (Lexer.mk 0 "ab  :=" 2 (Some " "%char) 1 3)); reflexivity.
Defined.

(** A string literal runs from a quote to the next quote; its value is
    the text in between, whatever it is (braces, line ends, nothing at
    all). *)
Theorem string_literal_is_lexed fuel lx s rest :
  Lexer_wf lx ->
  remaining lx = String "'" (s ++ String "'" rest) ->
  string_forall (fun c => negb (Ascii.eqb c "'")) s = true ->
  String.length s <= fuel ->
  exists tok lx',
    Lexer.get_next_token (S fuel) lx = Return (Some tok) lx'
    /\ shape (Some tok) = Some (TokenType.STRING_CONST, VStr s)
    /\ Lexer_wf lx' /\ remaining lx' = rest
    /\ Lexer.quote_count lx' = 0.
Proof.
  intros Hwf Hrem Hs Hfuel.
  set (lxq := Lexer.mk 1 (Lexer.text (Lexer.advance lx))
                (Lexer.pos (Lexer.advance lx))
                (Lexer.current_char (Lexer.advance lx))
                (Lexer.lineno (Lexer.advance lx))
                (Lexer.column (Lexer.advance lx))).
  destruct (scan_spec (fun c => negb (Ascii.eqb c "'")) s fuel "" lxq
              (String "'" rest)) as (lx1 & Hscan & Hwf1 & Hrem1 & _); auto.
  { exact (advance_wf lx). }
  { exact (advance_remaining _ _ _ Hrem). }
  { reflexivity. }
  cbn [append] in Hscan.
  do 2 eexists. split; [|split; [|split; [|split]]].
  - cbn [Lexer.get_next_token]. rewrite (wf_current _ _ _ Hwf Hrem).
    cbn [Ascii.eqb Bool.eqb andb]. change (Py.isspace "'") with false.
    cbv iota. unfold bind at 1. unfold modify at 1.
    unfold bind at 1. unfold modify at 1.
    fold lxq. unfold Lexer.string_builder.
    unfold bind at 1. rewrite Hscan.
    unfold bind at 1. unfold gets.
    rewrite (wf_current _ _ _ Hwf1 Hrem1). cbn [Lexer.is_char].
    rewrite Ascii.eqb_refl. reflexivity.
  - reflexivity.
  - apply advance_wf.
  - exact (advance_remaining _ _ _ Hrem1).
  - unfold Lexer.advance. now destruct (Nat.leb _ _).
Qed.

Lemma string_literal_is_lexed_witness :
  exists tok lx',
    Lexer.get_next_token 4 (Lexer.mk 0 "'a{'x" 0 (Some "'"%char) 1 1)
    = Return (Some tok) lx'
    /\ shape (Some tok) = Some (TokenType.STRING_CONST, VStr "a{")
    /\ Lexer_wf lx' /\ remaining lx' = "x"
    /\ Lexer.quote_count lx' = 0.
Proof.
  apply (string_literal_is_lexed 3
           (Lexer.mk 0 "'a{'x" 0 (Some "'"%char) 1 1) "a{" "x");
    try reflexivity.
  cbn. repeat constructor.
Defined.

(** A word, which is a letter followed by letters and digits, is a
    reserved word when its upper-case form is one: the token then has
    the type of the reserved word and the upper-case form as its value.
    Any other word is an identifier, whose value is the word as it is
    written. *)
Theorem words_and_reserved_words fuel lx name rest :
  Lexer_wf lx ->
  remaining lx = (name ++ rest)%string ->
  Lexer.current_is Py.isalpha lx = true ->
  string_forall Py.isalnum name = true ->
  stops Py.isalnum rest ->
  String.length name <= fuel ->
  exists tok lx',
    Lexer.get_next_token (S fuel) lx = Return (Some tok) lx'
    /\ Lexer_wf lx' /\ remaining lx' = rest
    /\ (forall keyword,
          In keyword (map snd RESERVED_KEYWORDS) ->
          Py.upper name = TokenType.value keyword ->
          shape (Some tok) = Some (keyword, VStr (Py.upper name)))
    /\ ((forall keyword,
           In keyword (map snd RESERVED_KEYWORDS) ->
           Py.upper name <> TokenType.value keyword) ->
        shape (Some tok) = Some (TokenType.ID, VStr name)).
Proof.
  intros Hwf Hrem Halpha Hname Hstop Hfuel.
  destruct (lex_id fuel lx name rest Hwf Hrem Halpha Hname Hstop Hfuel)
    as (tok & lx' & Hget & Hshape & Hwf' & Hrem' & _).
  exists tok, lx'. split; [exact Hget|]. split; [exact Hwf'|].
  split; [exact Hrem'|]. rewrite Hshape. split.
  - intros keyword Hin Hup. rewrite Hup.
    cbn in Hin.
    repeat (destruct Hin as [<-|Hin]; [reflexivity|]). destruct Hin.
  - intros Hnot.
    destruct (RESERVED_KEYWORDS_get _ _) as [t|] eqn:E; [|reflexivity].
    apply RESERVED_KEYWORDS_get_In in E.
    exfalso. apply (Hnot t).
    + now apply (in_map snd) in E.
    + unfold RESERVED_KEYWORDS in E. apply in_map_iff in E.
      destruct E as (t' & [= <- <-] & _). reflexivity.
Qed.

Lemma words_and_reserved_words_witness :
  exists tok lx',
    Lexer.get_next_token 6 (Lexer.mk 0 "Begin x" 0 (Some "B"%char) 1 1)
    = Return (Some tok) lx'
    /\ Lexer_wf lx' /\ remaining lx' = " x"
    /\ (forall keyword,
          In keyword (map snd RESERVED_KEYWORDS) ->
          Py.upper "Begin" = TokenType.value keyword ->
          shape (Some tok) = Some (keyword, VStr (Py.upper "Begin")))
    /\ ((forall keyword,
           In keyword (map snd RESERVED_KEYWORDS) ->
           Py.upper "Begin" <> TokenType.value keyword) ->
        shape (Some tok) = Some (TokenType.ID, VStr "Begin")).
Proof.
  apply (words_and_reserved_words 5
           (Lexer.mk 0 "Begin x" 0 (Some "B"%char) 1 1) "Begin" " x");
    reflexivity.
Defined.

(* ------------------------------------------------------------------ *)
(** * Number literals *)

Lemma length_list_ascii s :
  List.length (list_ascii_of_string s) = String.length s.
Proof. induction s as [|c s IH]; cbn; congruence. Qed.

(** [float] of a literal with an integer part and a fraction. *)
Lemma float_of_literal n m :
  integer_literal n ->
  string_forall Py.is_ascii_digit m = true ->
  Py.float_of_str (n ++ "." ++ m)
  = Ok (Py.float_of_decimal false (literal_value (n ++ m))
          (- Z.of_nat (String.length m))).
Proof.
  intros [Hne Hd] Hm. unfold Py.float_of_str, literal_value.
  rewrite !list_ascii_of_append. cbn [list_ascii_of_string app].
  rewrite <- (length_list_ascii m).
  set (ds := list_ascii_of_string n). set (fs := list_ascii_of_string m).
  assert (Hds : forallb Py.is_ascii_digit ds = true)
    by (subst ds; now rewrite string_forall_list).
  assert (Hfs : forallb Py.is_ascii_digit fs = true)
    by (subst fs; now rewrite string_forall_list).
  assert (Hdigits : forall l, forallb Py.is_ascii_digit l = true ->
                              forallb plain l = true).
  { intros l Hl. apply forallb_forall. intros c Hc. unfold plain.
    eapply forallb_forall in Hl; eauto. now rewrite Hl. }
  assert (Hplain : forallb plain (ds ++ "."%char :: fs) = true).
  { rewrite forallb_app. cbn [forallb].
    rewrite (Hdigits ds Hds), (Hdigits fs Hfs). reflexivity. }
  rewrite (map_plain Py.space_to_ascii)
    by (auto; intros c Hc; apply plain_facts; auto).
  rewrite strip_plain by auto.
  rewrite drop_underscores_plain by auto.
  assert (Hhd : exists c ds', ds = c :: ds' /\ Py.is_ascii_digit c = true).
  { subst ds. destruct n as [|c n]; [congruence|]. cbn in *.
    apply andb_true_iff in Hds as [Hc _]. eauto. }
  destruct Hhd as (c & ds' & Eds & Hc).
  assert (Hsign : Py.take_sign (ds ++ "."%char :: fs)
                  = (false, ds ++ "."%char :: fs)).
  { rewrite Eds. cbn [app Py.take_sign]. revert Hc. ascii_cases c. }
  rewrite Hsign.
  rewrite (map_plain Py.lower_char)
    by (auto; intros c' Hc'; apply plain_facts; auto).
  assert (Hword : forall w, (w = "inf" \/ w = "infinity" \/ w = "nan") ->
            String.eqb (string_of_list_ascii (ds ++ "."%char :: fs)) w
            = false).
  { intros w Hw. rewrite Eds. cbn [app string_of_list_ascii].
    destruct Hw as [-> | [-> | ->]]; cbn [String.eqb]; revert Hc;
      ascii_cases c. }
  rewrite !Hword by auto. cbn [orb]. cbv iota.
  rewrite span_digits by (cbn; auto).
  rewrite <- (app_nil_r fs) at 1.
  rewrite span_digits by (cbn; auto).
  cbn [Py.parse_exponent].
  destruct (ds ++ fs) eqn:E; [subst ds; rewrite Eds in E; discriminate|].
  reflexivity.
Qed.

(** Numbers.  A run of the digits 0 to 9 that is followed neither by a
    digit nor by a single dot is an INTEGER_CONST token with the decimal
    value of the run.  An integer part, a dot and a run of digits make a
    REAL_CONST token whose value is the binary64 number nearest to the
    decimal number written. *)
Theorem number_literals_are_lexed fuel lx n rest :
  Lexer_wf lx ->
  integer_literal n ->
  stops Py.isdigit rest ->
  String.length n <= fuel ->
  (remaining lx = (n ++ rest)%string ->
   (forall r, rest = String "." r -> head r = Some "."%char) ->
   exists tok lx',
     Lexer.get_next_token (S fuel) lx = Return (Some tok) lx'
     /\ shape (Some tok)
        = Some (TokenType.INTEGER_CONST, VInt (literal_value n))
     /\ Lexer_wf lx' /\ remaining lx' = rest)
  /\ (forall m,
        integer_literal m ->
        String.length m <= fuel ->
        remaining lx = (n ++ "." ++ m ++ rest)%string ->
        exists tok lx',
          Lexer.get_next_token (S fuel) lx = Return (Some tok) lx'
          /\ shape (Some tok)
             = Some (TokenType.REAL_CONST,
                     VFloat (Py.float_of_decimal false
                               (literal_value (n ++ m))
                               (- Z.of_nat (String.length m))))
          /\ Lexer_wf lx' /\ remaining lx' = rest).
Proof.
  intros Hwf Hn Hstop Hfuel. split.
  { intros Hrem Hdot. now apply lex_integer. }
  intros m Hm Hfuelm Hrem.
  destruct (scan_spec Py.isdigit n fuel "" lx ("." ++ m ++ rest)%string) as
    (lx1 & Hscan & Hwf1 & Hrem1 & _); auto.
  { destruct Hn as [_ Hd].
    eapply string_forall_impl; [apply digit_isdigit | exact Hd]. }
  { reflexivity. }
  cbn [append] in Hscan, Hrem1.
  pose proof (float_of_literal n m Hn (proj2 Hm)) as Hfloat.
  destruct (scan_spec Py.isdigit m fuel (n ++ ".")%string
              (Lexer.advance lx1) rest) as
    (lx2 & Hscan2 & Hwf2 & Hrem2 & _); auto.
  { apply advance_wf. }
  { eapply advance_remaining; eauto. }
  { destruct Hm as [_ Hd].
    eapply string_forall_impl; [apply digit_isdigit | exact Hd]. }
  assert (Hyes : Lexer.is_char "." (Lexer.current_char lx1)
                 && negb (Lexer.is_char "." (Lexer.look_at_next_char lx1))
                 = true).
  { rewrite (wf_current _ _ _ Hwf1 Hrem1).
    rewrite (look_at_next_char_spec lx1 "." _ Hrem1).
    destruct Hm as [Hne Hd]. destruct m as [|d m]; [congruence|].
    cbn in Hd |- *. apply andb_true_iff in Hd as [Hd _].
    revert Hd. ascii_cases d. }
  destruct Hn as [Hne Hd]. destruct n as [|c n]; [congruence|].
  pose proof (wf_current _ _ _ Hwf Hrem) as Hc.
  cbn [string_forall] in Hd. apply andb_true_iff in Hd as [Hdc Hdn].
  destruct (digit_dispatch c Hdc) as (H1 & H2 & H3 & H4 & H5).
  eexists. exists lx2. split; [|split; [|split]]; eauto.
  - cbn [Lexer.get_next_token]. rewrite Hc, H1, H2, H3, H4, H5.
    rewrite (digit_isdigit c Hdc). cbn [andb].
    unfold bind at 1. unfold Lexer.number.
    unfold bind at 1. rewrite Hscan.
    unfold bind at 1. unfold gets. rewrite Hyes.
    unfold bind at 1. unfold modify.
    unfold bind at 1. rewrite Hscan2.
    unfold bind at 1. unfold lift.
    rewrite append_assoc. rewrite Hfloat.
    reflexivity.
  - reflexivity.
Qed.

Lemma number_literals_are_lexed_witness :
  exists tok lx',
    Lexer.get_next_token 5 (Lexer.mk 0 "3.25;" 0 (Some "3"%char) 1 1)
    = Return (Some tok) lx'
    /\ shape (Some tok)
       = Some (TokenType.REAL_CONST,
               VFloat (Py.float_of_decimal false (literal_value "325") (-2)))
    /\ Lexer_wf lx' /\ remaining lx' = ";".
Proof.
  assert (Hn : integer_literal "3") by (split; [discriminate | reflexivity]).
  assert (Hfuel : String.length "3" <= 4) by (cbn; repeat constructor).
  apply (proj2 (number_literals_are_lexed 4
                  (Lexer.mk 0 "3.25;" 0 (Some "3"%char) 1 1) "3" ";"
                  eq_refl Hn eq_refl Hfuel)
           "25").
  - split; [discriminate | reflexivity].
  - cbn. repeat constructor.
  - reflexivity.
Defined.

(* ------------------------------------------------------------------ *)
(** * Expressions, assignments and arguments at run time *)

(** Division by zero.  With integer operands whose divisor evaluates to
    0, DIV raises ZeroDivisionError, and so does [/] once the dividend
    has been converted to a float (a dividend too large to convert
    raises OverflowError first).  An assignment of such a quotient
    raises the error and leaves the interpreter as it was: the target
    keeps its value. *)
Theorem division_by_zero_raises left_ right_ op stack a :
  Interpreter.visit_Expr left_ stack = Ok (VInt a) ->
  Interpreter.visit_Expr right_ stack = Ok (VInt 0) ->
  (Token.type op = TokenType.INTEGER_DIV ->
   Interpreter.visit_Expr (BinOp left_ op right_) stack
   = Err ZeroDivisionError)
  /\ (Token.type op = TokenType.FLOAT_DIV ->
      Interpreter.visit_Expr (BinOp left_ op right_) stack
      = match Py.float_of_int a with
        | Ok _ => Err ZeroDivisionError
        | Err e => Err e
        end)
  /\ (forall store flag fuel target assign name out,
        Token.type op = TokenType.INTEGER_DIV ->
        Expr_value target = Ok name ->
        Interpreter.visit_Stmt store flag (S fuel)
          (Assign target assign (BinOp left_ op right_))
          (Interpreter.mk stack out)
        = Raised ZeroDivisionError (Interpreter.mk stack out)).
Proof.
  intros Hl Hr.
  assert (Hdiv : Token.type op = TokenType.INTEGER_DIV ->
                 Interpreter.visit_Expr (BinOp left_ op right_) stack
                 = Err ZeroDivisionError).
  { intros Hop. cbn [Interpreter.visit_Expr]. now rewrite Hop, Hl, Hr. }
  split; [exact Hdiv|]. split.
  - intros Hop. cbn [Interpreter.visit_Expr]. rewrite Hop, Hl, Hr.
    cbn [rbind Py.float]. now destruct (Py.float_of_int a).
  - intros store flag fuel target assign name out Hop Hname.
    cbn [Interpreter.visit_Stmt]. unfold Interpreter.visit_Assign.
    cbv beta iota zeta delta [bind lift Interpreter.visit gets modify].
    rewrite Hname. cbn [Interpreter.call_stack]. now rewrite (Hdiv Hop).
Qed.

Lemma division_by_zero_raises_witness :
  let num v := Num (Token.mk TokenType.INTEGER_CONST (VInt v) (Some 1) (Some 1)) in
  let op := Token.mk TokenType.INTEGER_DIV (VStr "DIV") (Some 1) (Some 3) in
  Interpreter.visit_Expr (BinOp (num 7%Z) op (num 0%Z)) [] = Err ZeroDivisionError.
Proof.
  intros num op.
  apply (proj1 (division_by_zero_raises (num 7%Z) (num 0%Z) op [] 7%Z
                  eq_refl eq_refl)).
  reflexivity.
Defined.

Lemma record_get_set ar x v :
  ActivationRecord.get (ActivationRecord.__setitem__ ar (VStr x) v) (VStr x)
  = v.
Proof.
  unfold ActivationRecord.get, ActivationRecord.__setitem__.
  cbn [ActivationRecord.members]. now rewrite Dict_get_set_same.
Qed.

Lemma record_get_set_other ar x y v :
  y <> x ->
  ActivationRecord.get (ActivationRecord.__setitem__ ar (VStr x) v) (VStr y)
  = ActivationRecord.get ar (VStr y).
Proof.
  intros Hne. unfold ActivationRecord.get, ActivationRecord.__setitem__.
  cbn [ActivationRecord.members]. now rewrite Dict_get_set_other.
Qed.

(** An assignment evaluates its right-hand side and binds the target in
    the record on top of the stack: a read of the target then yields the
    value, reads of the other variables yield what they did, and the
    records below and the trace are untouched. *)
Theorem assignment_then_read store flag fuel target x op e ar rest out v :
  Token.value target = VStr x ->
  Interpreter.visit_Expr e (ar :: rest) = Ok v ->
  let ar' := ActivationRecord.__setitem__ ar (VStr x) v in
  Interpreter.visit_Stmt store flag (S fuel) (Assign (Var target) op e)
    (Interpreter.mk (ar :: rest) out)
  = Return tt (Interpreter.mk (ar' :: rest) out)
  /\ Interpreter.visit_Expr (Var target) (ar' :: rest) = Ok v
  /\ (forall other y,
        Token.value other = VStr y -> y <> x ->
        Interpreter.visit_Expr (Var other) (ar' :: rest)
        = Interpreter.visit_Expr (Var other) (ar :: rest)).
Proof.
  intros Hx He ar'. split; [|split].
  - cbn [Interpreter.visit_Stmt]. unfold Interpreter.visit_Assign.
    cbv beta iota zeta delta [bind lift Interpreter.visit gets modify].
    cbn [Expr_value Interpreter.call_stack]. rewrite He, Hx. reflexivity.
  - cbn [Interpreter.visit_Expr]. unfold Interpreter.visit_Var.
    cbn [CallStack.look_at_next_char rbind]. rewrite Hx.
    subst ar'. now rewrite record_get_set.
  - intros other y Hy Hne.
    cbn [Interpreter.visit_Expr]. unfold Interpreter.visit_Var.
    cbn [CallStack.look_at_next_char rbind]. rewrite Hy.
    subst ar'. now rewrite record_get_set_other.
Qed.

Lemma assignment_then_read_witness :
  let x := Token.mk TokenType.ID (VStr "x") (Some 1) (Some 1) in
  let op := Token.mk TokenType.ASSIGN (VStr ":=") (Some 1) (Some 3) in
  let two := Num (Token.mk TokenType.INTEGER_CONST (VInt 2) (Some 1) (Some 6)) in
  Interpreter.visit_Expr (Var x)
    [ActivationRecord.__setitem__ (new_record "p" ARType.PROGRAM 1)
       (VStr "x") (VInt 2)]
  = Ok (VInt 2).
Proof.
  intros x op two.
  apply (proj1 (proj2 (assignment_then_read [] false 0 x "x" op two
                         (new_record "p" ARType.PROGRAM 1) [] [] (VInt 2)
                         eq_refl eq_refl))).
Defined.

(** ** Arguments *)

Lemma bind_params_nil_r fs ar :
  Interpreter.bind_params fs [] ar = ret ar.
Proof. now destruct fs. Qed.

(** The parameters of a call are paired with the arguments as [zip]
    pairs them: as many as the shorter list has.  Each argument paired
    is evaluated on the caller's stack and bound, in order, under the
    name of its parameter; an argument beyond the parameters is not
    evaluated, a parameter beyond the arguments is not bound, and
    nothing reports the difference. *)
Theorem arguments_are_zipped :
  (forall fs args ar st,
     let n := Nat.min (List.length fs) (List.length args) in
     Interpreter.bind_params fs args ar st
     = Interpreter.bind_params (firstn n fs) (firstn n args) ar st)
  /\ (forall fs args values ar st,
        Forall2 (fun arg v =>
                   Interpreter.visit_Expr arg (Interpreter.call_stack st)
                   = Ok v)
          (firstn (List.length fs) args) values ->
        Interpreter.bind_params fs args ar st
        = Return
            (fold_left
               (fun r pv =>
                  ActivationRecord.__setitem__ r
                    (Symbol_name (fst pv)) (snd pv))
               (combine fs values) ar)
            st).
Proof.
  split.
  - induction fs as [|f fs IH]; intros args ar st n; [reflexivity|].
    destruct args as [|arg args]; [reflexivity|].
    subst n. cbn [List.length Nat.min firstn Interpreter.bind_params].
    unfold bind. destruct (Interpreter.visit arg st); try reflexivity.
    apply IH.
  - induction fs as [|f fs IH]; intros args values ar st H.
    + reflexivity.
    + destruct args as [|arg args].
      * cbn in H. inversion H. reflexivity.
      * cbn [List.length firstn] in H. inversion H as [|? v ? vs Hv Hvs];
          subst.
        cbn [Interpreter.bind_params combine fold_left fst snd].
        unfold bind at 1. unfold Interpreter.visit, bind, gets, lift.
        rewrite Hv. now apply IH.
Qed.

Lemma arguments_are_zipped_witness :
  let num v := Num (Token.mk TokenType.INTEGER_CONST (VInt v) (Some 1) (Some 1)) in
  let a := VarSymbol (VStr "a") None in
  let ar := new_record "q" ARType.PROCEDURE 2 in
  Interpreter.bind_params [a] [num 1%Z; num 2%Z] ar Interpreter.__init__
  = Return (ActivationRecord.__setitem__ ar (VStr "a") (VInt 1))
      Interpreter.__init__.
Proof.
  intros num a ar.
  apply (proj2 arguments_are_zipped [a] [num 1%Z; num 2%Z] [VInt 1] ar
           Interpreter.__init__).
  repeat constructor.
Defined.

(* ------------------------------------------------------------------ *)
(** * The output of the interpreter *)

Lemma traces_bind flag {A B} (c : M Interpreter.t A)
    (k : A -> M Interpreter.t B) :
  traces flag c -> (forall a, traces flag (k a)) -> traces flag (bind c k).
Proof.
  intros Hc Hk st. unfold bind. destruct (Hc st) as (l & Hl & Hoff).
  destruct (c st) as [a s|e s|s]; cbn [final_state] in *;
    try (exists l; now split).
  destruct (Hk a s) as (l' & Hl' & Hoff'). exists (l ++ l'). split.
  - now rewrite Hl', Hl, app_assoc.
  - intros H. now rewrite (Hoff H), (Hoff' H).
Qed.

(** A step that leaves the output alone. *)
Lemma traces_silent flag {A} (c : M Interpreter.t A) :
  (forall st, Interpreter.output (final_state (c st)) = Interpreter.output st) ->
  traces flag c.
Proof.
  intros H st. exists []. split; [|reflexivity].
  now rewrite H, app_nil_r.
Qed.

Lemma traces_lift flag {A} (r : result A) : traces flag (lift r).
Proof. apply traces_silent. intros st. unfold lift. now destruct r. Qed.

Lemma traces_log flag msg : traces flag (Interpreter.log flag msg).
Proof.
  intros st. unfold Interpreter.log. destruct flag.
  - exists [msg]. split; [reflexivity | discriminate].
  - exists []. split; [cbn; now rewrite app_nil_r | reflexivity].
Qed.

Lemma traces_log_call_stack flag : traces flag (Interpreter.log_call_stack flag).
Proof.
  unfold Interpreter.log_call_stack. apply traces_bind.
  - now apply traces_silent.
  - intros s. apply traces_log.
Qed.

Lemma traces_pop flag : traces flag Interpreter.pop.
Proof.
  apply traces_silent. intros st.
  unfold Interpreter.pop, bind, gets, lift, modify.
  now destruct (Interpreter.call_stack st).
Qed.

Lemma traces_visit flag node : traces flag (Interpreter.visit node).
Proof.
  apply traces_silent. intros st. unfold Interpreter.visit, bind, gets, lift.
  now destruct (Interpreter.visit_Expr _ _).
Qed.

Lemma traces_visit_Assign flag left_ right_ :
  traces flag (Interpreter.visit_Assign left_ right_).
Proof.
  unfold Interpreter.visit_Assign.
  apply traces_bind; [apply traces_lift|]. intros var_name.
  apply traces_bind; [apply traces_visit|]. intros var_value.
  apply traces_bind; [now apply traces_silent|]. intros s.
  apply traces_bind; [apply traces_lift|]. intros ar.
  now apply traces_silent.
Qed.

Lemma traces_visit_IfStatement flag rel statement elseStatement :
  traces flag (Interpreter.visit_IfStatement flag rel statement elseStatement).
Proof.
  unfold Interpreter.visit_IfStatement. destruct rel as [left_ token right_].
  apply traces_bind; [apply traces_visit|]. intros left_value.
  apply traces_bind; [apply traces_lift|]. intros right_value.
  destruct (Interpreter.relation_test _) as [test|];
    [|now apply traces_silent].
  apply traces_bind; [apply traces_lift|]. intros holds.
  apply traces_bind; [apply traces_lift|]. intros [l r].
  apply traces_log.
Qed.

Lemma traces_visit_WhileStatement flag rel statement :
  traces flag (Interpreter.visit_WhileStatement flag rel statement).
Proof.
  unfold Interpreter.visit_WhileStatement. destruct rel as [left_ token right_].
  apply traces_bind; [apply traces_visit|]. intros left_value.
  apply traces_bind; [apply traces_lift|]. intros right_value.
  destruct (Interpreter.relation_test _) as [test|];
    [|now apply traces_silent].
  apply traces_bind; [apply traces_lift|]. intros [|];
    [|now apply traces_silent].
  apply traces_bind; [apply traces_lift|]. intros [l r].
  apply traces_log.
Qed.

Lemma traces_bind_params flag fs : forall args ar,
  traces flag (Interpreter.bind_params fs args ar).
Proof.
  induction fs as [|f fs IH]; intros args ar;
    [now apply traces_silent|].
  destruct args as [|arg args]; [now apply traces_silent|].
  cbn [Interpreter.bind_params].
  apply traces_bind; [apply traces_visit|]. intros v. apply IH.
Qed.

Lemma traces_visit_declarations flag l :
  traces flag (Interpreter.visit_declarations l).
Proof.
  apply traces_silent. intros st. now rewrite visit_declarations_Return.
Qed.

Lemma traces_visit_children flag (visit : Stmt -> M Interpreter.t unit) l :
  (forall node, traces flag (visit node)) ->
  traces flag (Interpreter.visit_children visit l).
Proof.
  intros Hvisit. induction l as [|child l IH];
    [now apply traces_silent|].
  cbn [Interpreter.visit_children].
  apply traces_bind; [apply Hvisit | intros _; exact IH].
Qed.

Lemma traces_visit_Stmt store flag fuel :
  (forall node, traces flag (Interpreter.visit_Stmt store flag fuel node))
  /\ (forall block, traces flag (Interpreter.visit_Block store flag fuel block)).
Proof.
  induction fuel as [|fuel [IHs IHb]];
    (split; [intros node|intros block]);
    try (now apply traces_silent).
  - destruct node
      as [children|left_ op right_| |name args tok sym|name rel s els
         |name rel s|op param|op param]; cbn [Interpreter.visit_Stmt].
    + now apply traces_visit_children.
    + apply traces_visit_Assign.
    + now apply traces_silent.
    + apply traces_bind; [apply traces_lift|]. intros o.
      apply traces_bind; [apply traces_bind_params|]. intros ar.
      apply traces_bind; [now apply traces_silent|]. intros _.
      apply traces_bind; [apply traces_log|]. intros _.
      apply traces_bind; [apply traces_log_call_stack|]. intros _.
      apply traces_bind.
      { destruct (ProcedureObject.block_ast o);
          [apply IHb | now apply traces_silent]. }
      intros _.
      apply traces_bind; [apply traces_log|]. intros _.
      apply traces_bind; [apply traces_log_call_stack|]. intros _.
      apply traces_pop.
    + apply traces_visit_IfStatement.
    + apply traces_visit_WhileStatement.
    + apply traces_log.
    + apply traces_log.
  - destruct block as [declarations compound_statement].
    cbn [Interpreter.visit_Block].
    apply traces_bind; [apply traces_visit_declarations|].
    intros _. apply IHs.
Qed.

Lemma traces_visit_Program store flag fuel node :
  traces flag (Interpreter.visit_Program store flag fuel node).
Proof.
  destruct node as [name block]. unfold Interpreter.visit_Program.
  apply traces_bind; [apply traces_log|]. intros _.
  apply traces_bind; [now apply traces_silent|]. intros _.
  apply traces_bind; [apply traces_log_call_stack|]. intros _.
  apply traces_bind; [apply traces_visit_Stmt|]. intros _.
  apply traces_bind; [apply traces_log|]. intros _.
  apply traces_bind; [apply traces_log_call_stack|]. intros _.
  apply traces_pop.
Qed.

(** In a run without the option [--mips], which is the default and the
    case that the embedding covers, the interpreter writes nothing but
    the trace that [--stack] switches on.  Whatever the outcome of a
    statement or of a program, the output after it is the output before
    it followed by the lines of that trace, and by nothing when the
    trace is off: with both options off, a run that completes ends in
    the state in which it began, with an empty stack and no output.
    (Under [--mips] the dumps of the call stack print lines of their
    own, whether [--stack] is given or not; nothing is stated about
    such runs.) *)
Theorem trace_is_the_only_output :
  (forall store flag fuel node,
     traces flag (Interpreter.visit_Stmt store flag fuel node))
  /\ (forall store flag fuel tree,
        traces flag (Interpreter.visit_Program store flag fuel tree))
  /\ (forall fuel store tree final,
        Main.interpret fuel false store tree = Return tt final ->
        final = Interpreter.__init__)
  /\ (forall fuel text final,
        Main.main fuel false text = Main.Completed final ->
        final = Interpreter.__init__).
Proof.
  assert (Hrun : forall fuel store tree final,
            Main.interpret fuel false store tree = Return tt final ->
            final = Interpreter.__init__).
  { intros fuel store tree final H.
    pose proof (interpret_Return _ _ _ _ _ H) as Hstack.
    unfold Main.interpret, Interpreter.interpret in H.
    destruct (traces_visit_Program store false fuel tree Interpreter.__init__)
      as (l & Hl & Hoff).
    rewrite H in Hl. cbn [final_state] in Hl.
    rewrite (Hoff eq_refl) in Hl. cbn in Hl.
    destruct final as [stack out]. cbn in *. now subst. }
  split; [intros store flag fuel; apply traces_visit_Stmt|].
  split; [exact traces_visit_Program|].
  split; [exact Hrun|].
  intros fuel text final. unfold Main.main.
  destruct (Main.parse fuel text) as [tree p|[] p|p]; try discriminate.
  destruct (Main.analyze tree) as [tree' a|[] a|a]; try discriminate.
  destruct (Main.interpret _ _ _ _) as [[] s|e s|s] eqn:E; try discriminate.
  intros [= <-]. eapply Hrun; eauto.
Qed.

(* ------------------------------------------------------------------ *)
(** * Scopes and procedure symbols during the analysis *)

Lemma same_frame_refl s : same_frame s s.
Proof. now repeat split. Qed.

Lemma same_frame_trans s1 s2 s3 :
  same_frame s1 s2 -> same_frame s2 s3 -> same_frame s1 s3.
Proof.
  unfold same_frame. intros (H1 & H2 & H3) (H4 & H5 & H6).
  repeat split; congruence.
Qed.

Lemma same_frame_insert symbol s :
  same_frame s (ScopedSymbolTable.insert symbol s).
Proof. now repeat split. Qed.

Lemma store_kept_refl st : store_kept st st.
Proof. split; auto. Qed.

Lemma store_kept_trans st1 st2 st3 :
  store_kept st1 st2 -> store_kept st2 st3 -> store_kept st1 st3.
Proof.
  intros [H1 H2] [H3 H4]. split; [lia|].
  intros r Hr. rewrite H4, H2; auto. lia.
Qed.

Lemma the_scope_Return attribute a s :
  SemanticAnalyzer.current_scope a = Some s ->
  SemanticAnalyzer.the_scope attribute a = Return s a.
Proof. intros H. unfold SemanticAnalyzer.the_scope. now rewrite H. Qed.

Lemma lookup_Return name a s :
  SemanticAnalyzer.current_scope a = Some s ->
  SemanticAnalyzer.lookup name a
  = Return (ScopedSymbolTable.lookup s name) a.
Proof.
  intros H. unfold SemanticAnalyzer.lookup, bind.
  now rewrite (the_scope_Return _ _ _ H).
Qed.

Lemma visit_each_keeps_scope {A}
    (related : list ProcedureObject.t -> list ProcedureObject.t -> Prop)
    (visit : A -> M SemanticAnalyzer.t A) l :
  (forall st, related st st) ->
  (forall st1 st2 st3, related st1 st2 -> related st2 st3 -> related st1 st3) ->
  Forall (keeps_scope related visit) l ->
  keeps_scope related (SemanticAnalyzer.visit_each visit) l.
Proof.
  intros Hrefl Htrans.
  induction 1 as [|x l Hx _ IH]; intros a s l' a' Hs H;
    cbn [SemanticAnalyzer.visit_each] in H.
  - injection H as <- <-. exists s. auto using same_frame_refl.
  - bind_inv H as x' a1 H1. bind_inv H as l'' a2 H2. injection H as <- <-.
    destruct (Hx _ _ _ _ Hs H1) as (s1 & Hs1 & Hf1 & Hr1).
    destruct (IH _ _ _ _ Hs1 H2) as (s2 & Hs2 & Hf2 & Hr2).
    exists s2. eauto using same_frame_trans.
Qed.

(** A statement is analysed in the current scope, which it may extend,
    and touches no procedure symbol. *)
Lemma visit_Stmt_keeps_scope node :
  keeps_scope eq SemanticAnalyzer.visit_Stmt node.
Proof.
  induction node as [children IH|node Hnode] using Stmt_children_ind.
  - intros a s x' a' Hs H. cbn [SemanticAnalyzer.visit_Stmt] in H.
    bind_inv H as children' a1 H1. injection H as _ <-.
    eapply (visit_each_keeps_scope eq); eauto. congruence.
  - intros a s x' a' Hs H.
    destruct node
      as [children|left_ op right_| |name args tok sym|name rel st els
         |name rel st|op param|op param].
    + now elim (Hnode children).
    + rewrite (visit_Assign_lookups _ _ _ _ _ Hs) in H.
      unfold lookups in H. destruct (first_unresolved _ _); [discriminate|].
      injection H as _ <-. exists s. auto using same_frame_refl.
    + injection H as _ <-. exists s. auto using same_frame_refl.
    + rewrite (visit_ProcedureCall_lookups _ _ _ _ _ _ Hs) in H.
      unfold lookups in H. destruct (first_unresolved _ _); [discriminate|].
      injection H as _ <-. exists s. auto using same_frame_refl.
    + cbn [SemanticAnalyzer.visit_Stmt] in H. unfold bind in H.
      rewrite (insert_Return _ _ _ Hs) in H. injection H as _ <-.
      eexists. split; [reflexivity|]. auto using same_frame_insert.
    + cbn [SemanticAnalyzer.visit_Stmt] in H. unfold bind in H.
      rewrite (insert_Return _ _ _ Hs) in H. injection H as _ <-.
      eexists. split; [reflexivity|]. auto using same_frame_insert.
    + cbn [SemanticAnalyzer.visit_Stmt] in H. unfold bind in H.
      rewrite (insert_Return _ _ _ Hs) in H. injection H as _ <-.
      eexists. split; [reflexivity|]. auto using same_frame_insert.
    + cbn [SemanticAnalyzer.visit_Stmt] in H. unfold bind in H.
      rewrite (insert_Return _ _ _ Hs) in H. injection H as _ <-.
      eexists. split; [reflexivity|]. auto using same_frame_insert.
Qed.

(** ** The store of procedure symbols *)

Lemma update_length {A} (f : A -> A) l : forall n,
  List.length (SemanticAnalyzer.update l n f) = List.length l.
Proof.
  induction l as [|x l IH]; intros [|n]; cbn; auto.
Qed.

Lemma nth_error_update {A} (f : A -> A) l : forall n,
  nth_error (SemanticAnalyzer.update l n f) n = option_map f (nth_error l n).
Proof.
  induction l as [|x l IH]; intros [|n]; cbn; auto.
Qed.

Lemma nth_error_update_other {A} (f : A -> A) l : forall n r,
  r <> n ->
  nth_error (SemanticAnalyzer.update l n f) r = nth_error l r.
Proof.
  induction l as [|x l IH]; intros [|n] [|r] H; cbn; auto; try congruence.
Qed.

(** Inserting the parameters declares them in the scope of the
    procedure and appends their symbols, in order, to the parameters of
    the procedure symbol. *)
Lemma insert_params_Return ref params : forall a s a',
  SemanticAnalyzer.current_scope a = Some s ->
  SemanticAnalyzer.insert_params ref params a = Return tt a' ->
  exists s',
    SemanticAnalyzer.current_scope a' = Some s'
    /\ same_frame s s'
    /\ List.length (SemanticAnalyzer.store a')
       = List.length (SemanticAnalyzer.store a)
    /\ (forall r, r <> ref ->
          nth_error (SemanticAnalyzer.store a') r
          = nth_error (SemanticAnalyzer.store a) r)
    /\ forall o,
         nth_error (SemanticAnalyzer.store a) ref = Some o ->
         exists symbols,
           nth_error (SemanticAnalyzer.store a') ref
           = Some (ProcedureObject.mk
                     (ProcedureObject.formal_params o ++ symbols)
                     (ProcedureObject.block_ast o))
           /\ Forall2 (fun p symbol => param_name p = Ok (Symbol_name symbol))
                params symbols.
Proof.
  induction params as [|[var_node type_node] params IH]; intros a s a' Hs H;
    cbn [SemanticAnalyzer.insert_params] in H.
  - injection H as <-. exists s.
    repeat (split; auto using same_frame_refl).
    intros o Ho. exists []. rewrite app_nil_r. split; [|constructor].
    rewrite Ho. now destruct o.
  - bind_inv H as param_type a1 H1.
    rewrite (lookup_Return _ _ _ Hs) in H1. injection H1 as <- <-.
    bind_inv H as param_name a2 H2. unfold lift in H2.
    destruct (Expr_value var_node) as [name|] eqn:Ename; [|discriminate].
    injection H2 as <- <-.
    bind_inv H as u a3 H3. rewrite (insert_Return _ _ _ Hs) in H3.
    injection H3 as _ <-.
    bind_inv H as u' a4 H4. unfold SemanticAnalyzer.update_store, modify in H4.
    injection H4 as _ <-.
    apply IH with (s := ScopedSymbolTable.insert
                          (VarSymbol name (ScopedSymbolTable.lookup s
                                             (TypeNode_value type_node))) s)
      in H; [|reflexivity].
    destruct H as (s' & Hs' & Hf & Hlen & Hother & Href).
    cbn [SemanticAnalyzer.store] in *.
    exists s'. split; [exact Hs'|].
    split; [eapply same_frame_trans; [apply same_frame_insert | exact Hf]|].
    split; [now rewrite Hlen, update_length|].
    split.
    + intros r Hr. rewrite (Hother r Hr).
      now apply nth_error_update_other.
    + intros o Ho.
      destruct (Href (ProcedureObject.mk
                        (ProcedureObject.formal_params o
                         ++ [VarSymbol name
                               (ScopedSymbolTable.lookup s
                                  (TypeNode_value type_node))])
                        (ProcedureObject.block_ast o)))
        as (symbols & Hnth & Hall).
      { rewrite nth_error_update, Ho. reflexivity. }
      cbn [ProcedureObject.formal_params ProcedureObject.block_ast] in Hnth.
      eexists (_ :: symbols). split.
      * rewrite Hnth, <- app_assoc. reflexivity.
      * constructor; [exact Ename | exact Hall].
Qed.

Lemma visit_VarDecl_keeps_scope var_node type_node :
  keeps_scope store_kept SemanticAnalyzer.visit_Decl
    (VarDecl var_node type_node).
Proof.
  intros a s x' a' Hs H. cbn [SemanticAnalyzer.visit_Decl] in H.
  bind_inv H as u a1 H1. injection H as _ <-.
  unfold SemanticAnalyzer.visit_VarDecl in H1.
  bind_inv H1 as type_symbol a2 H2.
  rewrite (lookup_Return _ _ _ Hs) in H2. injection H2 as <- <-.
  bind_inv H1 as var_name a3 H3. unfold lift in H3.
  destruct (Expr_value var_node); [|discriminate]. injection H3 as <- <-.
  bind_inv H1 as s0 a4 H4.
  rewrite (the_scope_Return _ _ _ Hs) in H4. injection H4 as <- <-.
  destruct (ScopedSymbolTable.lookup_current_scope_only _ _); [discriminate|].
  rewrite (insert_Return _ _ _ Hs) in H1. injection H1 as _ <-.
  eexists. split; [reflexivity|].
  split; [apply same_frame_insert | apply store_kept_refl].
Qed.

(* ------------------------------------------------------------------ *)
(** * Declarations: what the analysis of a procedure leaves behind *)

(** Induction on declarations and blocks, with the declarations of a
    block. *)
Lemma Decl_Block_ind (P : Decl -> Prop) (Q : BlockNode -> Prop) :
  (forall var_node type_node, P (VarDecl var_node type_node)) ->
  (forall name params block, Q block -> P (ProcedureDecl name params block)) ->
  (forall declarations statement,
     Forall P declarations -> Q (Block declarations statement)) ->
  (forall d, P d) /\ (forall b, Q b).
Proof.
  intros HV HP HB.
  assert (Hd : forall d, P d).
  { fix decl 1. intros [v t|name params [declarations statement]].
    - apply HV.
    - apply HP, HB.
      induction declarations as [|d ds IH]; constructor;
        [apply decl | exact IH]. }
  split; [exact Hd|]. intros [ds statement]. apply HB.
  apply Forall_forall. auto.
Qed.

(** The steps of the analysis of a procedure declaration, given that
    the analysis of its block returns in the scope it began in. *)
Lemma visit_ProcedureDecl_Return name params block a s d' a' :
  keeps_scope store_kept SemanticAnalyzer.visit_Block block ->
  SemanticAnalyzer.current_scope a = Some s ->
  SemanticAnalyzer.visit_Decl (ProcedureDecl name params block) a
  = Return d' a' ->
  exists block' symbols,
    d' = ProcedureDecl name params block'
    /\ SemanticAnalyzer.current_scope a'
       = Some (ScopedSymbolTable.insert
                 (ProcedureSymbol name
                    (List.length (SemanticAnalyzer.store a))) s)
    /\ store_kept (SemanticAnalyzer.store a) (SemanticAnalyzer.store a')
    /\ nth_error (SemanticAnalyzer.store a')
         (List.length (SemanticAnalyzer.store a))
       = Some (ProcedureObject.mk symbols (Some block'))
    /\ Forall2 (fun p symbol => param_name p = Ok (Symbol_name symbol))
         params symbols.
Proof.
  intros Hblock Hs H. cbn [SemanticAnalyzer.visit_Decl] in H.
  set (ref := List.length (SemanticAnalyzer.store a)).
  set (symbol := ProcedureSymbol name ref).
  set (outer := ScopedSymbolTable.insert symbol s).
  bind_inv H as sym a1 H1.
  unfold SemanticAnalyzer.new_ProcedureSymbol in H1.
  injection H1 as <- <-. fold ref symbol in H. cbv beta iota zeta in H.
  bind_inv H as u1 a2 H2.
  rewrite (insert_Return _ _ s) in H2 by exact Hs.
  injection H2 as _ <-. fold outer in H.
  bind_inv H as outer' a3 H3.
  rewrite (the_scope_Return _ _ outer) in H3 by reflexivity.
  injection H3 as <- <-.
  bind_inv H as u2 a4 H4.
  unfold SemanticAnalyzer.set_scope, modify in H4. injection H4 as _ <-.
  cbn [SemanticAnalyzer.store SemanticAnalyzer.current_scope] in H.
  bind_inv H as u3 a5 H5. destruct u3.
  eapply insert_params_Return in H5; [|reflexivity].
  destruct H5 as (s5 & Hs5 & Hf5 & Hlen5 & Hother5 & Href5).
  cbn [SemanticAnalyzer.store] in Hlen5, Hother5, Href5.
  destruct (Href5 (ProcedureObject.mk [] None)) as (symbols & Hnth5 & Hall).
  { rewrite nth_error_app2 by (subst ref; lia).
    subst ref. now rewrite Nat.sub_diag. }
  cbn [ProcedureObject.formal_params ProcedureObject.block_ast app] in Hnth5.
  bind_inv H as block' a6 H6.
  destruct (Hblock _ _ _ _ Hs5 H6) as (s6 & Hs6 & Hf6 & Hlen6 & Hkept6).
  bind_inv H as inner a7 H7.
  rewrite (the_scope_Return _ _ s6) in H7 by exact Hs6.
  injection H7 as <- <-.
  bind_inv H as u4 a8 H8.
  unfold SemanticAnalyzer.set_scope, modify in H8. injection H8 as _ <-.
  bind_inv H as u5 a9 H9.
  unfold SemanticAnalyzer.update_store, modify in H9. injection H9 as _ <-.
  injection H as <- <-.
  cbn [SemanticAnalyzer.store SemanticAnalyzer.current_scope].
  assert (Hlen : List.length (SemanticAnalyzer.store a5) = S ref).
  { rewrite Hlen5, length_app. cbn. subst ref. lia. }
  exists block', symbols. split; [reflexivity|]. split.
  { destruct Hf5 as (E5 & _). destruct Hf6 as (E6 & _).
    rewrite E6, E5. reflexivity. }
  split.
  { split.
    - rewrite update_length. fold ref. lia.
    - intros r Hr. fold ref in Hr.
      rewrite nth_error_update_other by lia.
      rewrite Hkept6 by lia. rewrite Hother5 by lia.
      now rewrite nth_error_app1 by exact Hr. }
  split; [|exact Hall].
  rewrite nth_error_update, Hkept6 by lia. now rewrite Hnth5.
Qed.

(** Every declaration and every block whose analysis returns leaves the
    analyzer in the scope in which it began, with the procedure symbols
    it found unchanged. *)
Lemma visit_Decl_keeps_scope :
  (forall d, keeps_scope store_kept SemanticAnalyzer.visit_Decl d)
  /\ (forall b, keeps_scope store_kept SemanticAnalyzer.visit_Block b).
Proof.
  apply Decl_Block_ind.
  - apply visit_VarDecl_keeps_scope.
  - intros name params block Hblock a s d' a' Hs H.
    destruct (visit_ProcedureDecl_Return _ _ _ _ _ _ _ Hblock Hs H)
      as (block' & symbols & _ & Hs' & Hkept & _).
    eexists. split; [exact Hs'|]. split; [apply same_frame_insert | exact Hkept].
  - intros declarations statement Hall a s b' a' Hs H.
    cbn [SemanticAnalyzer.visit_Block] in H.
    bind_inv H as declarations' a1 H1. bind_inv H as statement' a2 H2.
    injection H as _ <-.
    destruct (visit_each_keeps_scope store_kept SemanticAnalyzer.visit_Decl
                declarations store_kept_refl store_kept_trans Hall
                _ _ _ _ Hs H1) as (s1 & Hs1 & Hf1 & Hk1).
    destruct (visit_Stmt_keeps_scope _ _ _ _ _ Hs1 H2)
      as (s2 & Hs2 & Hf2 & Hk2).
    exists s2. split; [exact Hs2|].
    split; [eauto using same_frame_trans | now rewrite <- Hk2].
Qed.

(** The scope of a procedure is closed.  After the analysis of a
    procedure declaration the current scope is the scope from before
    with one symbol more, the symbol of the procedure: its parameters,
    its variables and the procedures declared inside it are not visible
    from outside.  After the analysis of a program the analyzer has no
    current scope. *)
Theorem procedure_scope_is_closed :
  (forall name params block a s d' a',
     SemanticAnalyzer.current_scope a = Some s ->
     SemanticAnalyzer.visit_Decl (ProcedureDecl name params block) a
     = Return d' a' ->
     SemanticAnalyzer.current_scope a'
     = Some (ScopedSymbolTable.insert
               (ProcedureSymbol name
                  (List.length (SemanticAnalyzer.store a))) s))
  /\ (forall block a s block' a',
        SemanticAnalyzer.current_scope a = Some s ->
        SemanticAnalyzer.visit_Block block a = Return block' a' ->
        exists s',
          SemanticAnalyzer.current_scope a' = Some s' /\ same_frame s s')
  /\ (forall tree tree' a',
        Main.analyze tree = Return tree' a' ->
        SemanticAnalyzer.current_scope a' = None).
Proof.
  destruct visit_Decl_keeps_scope as [_ Hblock].
  split.
  { intros name params block a s d' a' Hs H.
    destruct (visit_ProcedureDecl_Return _ _ _ _ _ _ _ (Hblock block) Hs H)
      as (block' & symbols & _ & Hs' & _).
    exact Hs'. }
  split.
  { intros block a s block' a' Hs H.
    destruct (Hblock block _ _ _ _ Hs H) as (s' & Hs' & Hf & _). eauto. }
  intros [name block] tree' a' H.
  unfold Main.analyze, SemanticAnalyzer.visit_Program in H.
  bind_inv H as enclosing a1 H1. unfold gets in H1. injection H1 as <- <-.
  bind_inv H as u1 a2 H2.
  unfold SemanticAnalyzer.set_scope, modify in H2. injection H2 as _ <-.
  bind_inv H as block' a3 H3.
  eapply Hblock in H3; [|reflexivity].
  destruct H3 as (s3 & Hs3 & (Henc & _) & _).
  bind_inv H as s4 a4 H4.
  rewrite (the_scope_Return _ _ _ Hs3) in H4. injection H4 as <- <-.
  bind_inv H as u2 a5 H5.
  unfold SemanticAnalyzer.set_scope, modify in H5. injection H5 as _ <-.
  injection H as _ <-. cbn [SemanticAnalyzer.current_scope].
  now rewrite Henc.
Qed.

(** The symbol of a procedure holds what a call needs.  After the
    analysis of a procedure declaration, the store holds at the address
    of the new symbol the symbols of the formal parameters, by name and
    in the order of the declaration, and the block of the procedure as
    the analysis has left it; the symbols that the store held before are
    unchanged. *)
Theorem procedure_symbol_is_recorded name params block a s d' a' :
  SemanticAnalyzer.current_scope a = Some s ->
  SemanticAnalyzer.visit_Decl (ProcedureDecl name params block) a
  = Return d' a' ->
  exists block' symbols,
    d' = ProcedureDecl name params block'
    /\ nth_error (SemanticAnalyzer.store a')
         (List.length (SemanticAnalyzer.store a))
       = Some (ProcedureObject.mk symbols (Some block'))
    /\ Forall2 (fun p symbol => param_name p = Ok (Symbol_name symbol))
         params symbols
    /\ store_kept (SemanticAnalyzer.store a) (SemanticAnalyzer.store a').
Proof.
  intros Hs H.
  destruct (visit_ProcedureDecl_Return _ _ _ _ _ _ _
              (proj2 visit_Decl_keeps_scope block) Hs H)
    as (block' & symbols & Hd & _ & Hkept & Hnth & Hall).
  now exists block', symbols.
Qed.

(* ------------------------------------------------------------------ *)
(** * Variable declarations and calls of what is not a procedure *)

Lemma procedure_symbol_is_recorded_witness :
  let a_token := Token.mk TokenType.ID (VStr "a") (Some 1) (Some 1) in
  let integer := Token.mk TokenType.INTEGER (VStr "INTEGER") (Some 1) (Some 4) in
  let params := [Param (Var a_token) (Type_ integer)] in
  let decl := ProcedureDecl (VStr "q") params (Block [] (Compound [NoOp])) in
  let a := SemanticAnalyzer.mk (Some global_scope) [] in
  exists block' symbols,
    nth_error
      (SemanticAnalyzer.store (final_state (SemanticAnalyzer.visit_Decl decl a)))
      0
    = Some (ProcedureObject.mk symbols (Some block'))
    /\ Forall2 (fun p symbol => param_name p = Ok (Symbol_name symbol))
         params symbols.
Proof.
  intros a_token integer params decl a.
  destruct (procedure_symbol_is_recorded (VStr "q") params
              (Block [] (Compound [NoOp])) a global_scope
              decl (final_state (SemanticAnalyzer.visit_Decl decl a))
              eq_refl eq_refl)
    as (block' & symbols & _ & Hnth & Hall & _).
  exists block', symbols. split; [exact Hnth | exact Hall].
Defined.

Lemma lookup_insert_same symbol s x :
  Symbol_name symbol = VStr x ->
  ScopedSymbolTable.lookup (ScopedSymbolTable.insert symbol s) (VStr x)
  = Some symbol.
Proof.
  intros Hname. destruct s as [d n l e]. unfold ScopedSymbolTable.insert.
  cbn [ScopedSymbolTable._symbols ScopedSymbolTable.scope_name
       ScopedSymbolTable.scope_level ScopedSymbolTable.enclosing_scope
       ScopedSymbolTable.lookup].
  now rewrite Hname, Dict_get_set_same.
Qed.

Lemma visit_VarDecl_duplicate a s token type_node :
  SemanticAnalyzer.current_scope a = Some s ->
  Dict.get (ScopedSymbolTable._symbols s) (Token.value token) <> None ->
  SemanticAnalyzer.visit_Decl (VarDecl (Var token) type_node) a
  = Raised (SemanticError DUPLICATE_ID token) a.
Proof.
  intros Hs Hpresent. cbn [SemanticAnalyzer.visit_Decl].
  unfold SemanticAnalyzer.visit_VarDecl.
  unfold bind at 1. unfold bind at 1. rewrite (lookup_Return _ _ _ Hs).
  unfold bind at 1. cbn [Expr_value lift].
  unfold bind at 1. rewrite (the_scope_Return _ _ _ Hs).
  unfold ScopedSymbolTable.lookup_current_scope_only.
  destruct (Dict.get _ _); [reflexivity | congruence].
Qed.

(** A variable may be declared once in a scope.  The declaration of a
    name that the table of the current scope already holds fails with a
    duplicate-identifier error on the name and changes nothing; only the
    current scope counts, so a name of an enclosing scope may be
    declared again.  Otherwise the variable is filed under its name,
    with the symbol that its type name resolves to, if any: a type that
    is not found is no error.  From then on the name resolves to the new
    symbol, and a second declaration of it fails. *)
Theorem duplicate_declaration_is_detected a s token type_node x :
  SemanticAnalyzer.current_scope a = Some s ->
  Token.value token = VStr x ->
  let decl := VarDecl (Var token) type_node in
  let symbol :=
    VarSymbol (VStr x)
      (ScopedSymbolTable.lookup s (TypeNode_value type_node)) in
  let a' :=
    SemanticAnalyzer.mk (Some (ScopedSymbolTable.insert symbol s))
      (SemanticAnalyzer.store a) in
  (Dict.get (ScopedSymbolTable._symbols s) (VStr x) <> None ->
   SemanticAnalyzer.visit_Decl decl a
   = Raised (SemanticError DUPLICATE_ID token) a)
  /\ (Dict.get (ScopedSymbolTable._symbols s) (VStr x) = None ->
      SemanticAnalyzer.visit_Decl decl a = Return decl a'
      /\ ScopedSymbolTable.lookup (ScopedSymbolTable.insert symbol s) (VStr x)
         = Some symbol
      /\ forall token' type_node',
           Token.value token' = VStr x ->
           SemanticAnalyzer.visit_Decl (VarDecl (Var token') type_node') a'
           = Raised (SemanticError DUPLICATE_ID token') a').
Proof.
  intros Hs Hx decl symbol a'. split.
  - intros Hpresent. apply visit_VarDecl_duplicate with (s := s); auto.
    now rewrite Hx.
  - intros Habsent. split; [|split].
    + subst decl. cbn [SemanticAnalyzer.visit_Decl].
      unfold SemanticAnalyzer.visit_VarDecl.
      unfold bind at 1. unfold bind at 1. rewrite (lookup_Return _ _ _ Hs).
      unfold bind at 1. cbn [Expr_value lift].
      unfold bind at 1. rewrite (the_scope_Return _ _ _ Hs).
      unfold ScopedSymbolTable.lookup_current_scope_only.
      rewrite Hx, Habsent. rewrite (insert_Return _ _ _ Hs). reflexivity.
    + now apply lookup_insert_same.
    + intros token' type_node' Hx'.
      apply visit_VarDecl_duplicate
        with (s := ScopedSymbolTable.insert symbol s); [reflexivity|].
      rewrite Hx'. destruct s as [d n l e].
      unfold ScopedSymbolTable.insert.
      cbn [ScopedSymbolTable._symbols Symbol_name symbol].
      subst symbol. cbn [Symbol_name].
      now rewrite Dict_get_set_same.
Qed.

Lemma duplicate_declaration_is_detected_witness :
  let x := Token.mk TokenType.ID (VStr "INTEGER") (Some 1) (Some 1) in
  let integer := Token.mk TokenType.INTEGER (VStr "INTEGER") (Some 1) (Some 4) in
  let a := SemanticAnalyzer.mk (Some global_scope) [] in
  SemanticAnalyzer.visit_Decl (VarDecl (Var x) (Type_ integer)) a
  = Raised (SemanticError DUPLICATE_ID x) a.
Proof.
  intros x integer a.
  apply (proj1 (duplicate_declaration_is_detected a global_scope x
                  (Type_ integer) "INTEGER" eq_refl eq_refl)).
  discriminate.
Defined.

(** A call of a name that is no procedure.  The analyzer looks the
    callee up and stores what it finds on the call, be it nothing or
    the symbol of a variable or of a type: as long as the names in the
    arguments resolve, the call passes the analysis.  At run time a call
    whose symbol is not a procedure symbol raises an AttributeError,
    which [main] does not catch, before anything is pushed or traced. *)
Theorem call_of_undeclared_procedure :
  (forall a s name args tok sym,
     SemanticAnalyzer.current_scope a = Some s ->
     first_unresolved s (flat_map visited_Expr args) = None ->
     SemanticAnalyzer.visit_Stmt (ProcedureCall name args tok sym) a
     = Return (ProcedureCall name args tok (ScopedSymbolTable.lookup s name))
         a)
  /\ (forall store flag fuel name args tok sym st,
        (forall n ref, sym <> Some (ProcedureSymbol n ref)) ->
        Interpreter.visit_Stmt store flag (S fuel)
          (ProcedureCall name args tok sym) st
        = Raised (AttributeError "formal_params") st)
  /\ Main.main 50 false "PROGRAM p; BEGIN foo() END."
     = Main.Uncaught (AttributeError "formal_params")
  /\ Main.main 50 false "PROGRAM p; VAR foo: INTEGER; BEGIN foo(1) END."
     = Main.Uncaught (AttributeError "formal_params").
Proof.
  split.
  { intros a s name args tok sym Hs Hargs.
    rewrite (visit_ProcedureCall_lookups _ _ _ _ _ _ Hs).
    unfold lookups. cbn [visited_Stmt]. now rewrite Hargs. }
  split.
  { intros store flag fuel name args tok sym st Hsym.
    cbn [Interpreter.visit_Stmt]. unfold bind at 1.
    assert (E : Interpreter.procedure_object store sym
                = Err (AttributeError "formal_params")).
    { unfold Interpreter.procedure_object.
      destruct sym as [[| |n ref| |]|]; try reflexivity.
      now elim (Hsym n ref). }
    now rewrite E. }
  split; vm_compute; reflexivity.
Qed.

(* ------------------------------------------------------------------ *)
(** * The parser: expressions *)

Lemma reads_app k l1 : forall p l2 p',
  reads k p (l1 ++ l2) p'
  <-> exists p1, reads k p l1 p1 /\ reads k p1 l2 p'.
Proof.
  induction l1 as [|tok l1 IH]; intros p l2 p'; cbn [app reads].
  - split.
    + intros H. exists p. now split.
    + intros (p1 & -> & H). exact H.
  - split.
    + intros (Hcur & p1 & Hnext & H). apply IH in H.
      destruct H as (p2 & H1 & H2). exists p2. split; [|exact H2].
      split; [exact Hcur|]. exists p1. now split.
    + intros (p2 & (Hcur & p1 & Hnext & H1) & H2). split; [exact Hcur|].
      exists p1. split; [exact Hnext|]. apply IH. now exists p2.
Qed.

(** The current token of a parser that has tokens ahead. *)
Lemma reads_current k p toks p' stop :
  reads k p toks p' ->
  Parser.current_token p' = Some stop ->
  Parser.current_token p = Some (hd stop toks).
Proof.
  destruct toks; cbn [reads hd]; [intros -> | intros (H & _)]; auto.
Qed.

(** Eating the token ahead moves the parser to the next one. *)
Lemma eat_reads k fuel p tok rest p' :
  reads k p (tok :: rest) p' ->
  k <= fuel ->
  exists p1,
    Parser.eat fuel (Token.type tok) p = Return tt p1 /\ reads k p1 rest p'.
Proof.
  intros (Hcur & p1 & Hnext & H) Hfuel. exists p1. split; [|exact H].
  unfold Parser.eat, bind, Parser.the_token. rewrite Hcur.
  rewrite TokenType_eqb_refl.
  unfold Parser.get_next_token, zoom. rewrite (Hnext _ Hfuel).
  unfold modify. now destruct p1.
Qed.

Lemma factor_operand k fuel p tok rest p' :
  reads k p (tok :: rest) p' ->
  is_operand tok = true ->
  k < fuel ->
  exists p1,
    Parser.factor fuel p = Return (operand_node tok) p1
    /\ reads k p1 rest p'.
Proof.
  intros H Hop Hfuel. destruct fuel as [|fuel]; [lia|].
  destruct (eat_reads k fuel p tok rest p' H) as (p1 & Heat & H1); [lia|].
  exists p1. split; [|exact H1]. destruct H as (Hcur & _).
  cbn [Parser.factor]. unfold bind at 1. unfold Parser.the_token at 1.
  rewrite Hcur. unfold is_operand in Hop. unfold operand_node.
  destruct (Token.type tok) eqn:E; try discriminate Hop;
    unfold Parser.variable, bind, Parser.the_token; rewrite ?Hcur, Heat;
    reflexivity.
Qed.

Lemma term_loop_reads k stop : forall l fuel node p p',
  forallb (fun f => multiplicative (Token.type (fst f)) && is_operand (snd f))
    l = true ->
  reads k p (flat_map (fun f => [fst f; snd f]) l) p' ->
  Parser.current_token p' = Some stop ->
  multiplicative (Token.type stop) = false ->
  k + 2 + List.length l <= fuel ->
  Parser.term_loop fuel node p
  = Return
      (fold_left (fun node f => BinOp node (fst f) (operand_node (snd f)))
         l node) p'.
Proof.
  induction l as [|[op n] l IH]; intros fuel node p p' Hok H Hstop Hnot Hfuel;
    (destruct fuel as [|fuel]; [lia|]).
  - cbn [flat_map reads] in H. subst p'. cbn [Parser.term_loop fold_left].
    unfold Parser.current_type, bind, Parser.the_token. rewrite Hstop.
    unfold ret. unfold multiplicative in Hnot.
    destruct (Token.type stop); try discriminate Hnot; reflexivity.
  - cbn [flat_map app fst snd] in H. cbn [forallb fst snd] in Hok.
    apply andb_true_iff in Hok. destruct Hok as [Hok Hl].
    apply andb_true_iff in Hok. destruct Hok as [Hop Hn].
    pose proof (proj1 H) as Hcur.
    destruct (eat_reads k fuel _ _ _ _ H) as (p1 & Heat & H1);
      [cbn [List.length] in Hfuel; lia|].
    destruct (factor_operand k fuel _ _ _ _ H1 Hn) as (p2 & Hfactor & H2);
      [cbn [List.length] in Hfuel; lia|].
    specialize (IH fuel (BinOp node op (operand_node n)) p2 p' Hl H2 Hstop
                  Hnot).
    cbn [List.length] in Hfuel. specialize (IH ltac:(lia)).
    cbn [Parser.term_loop fold_left fst snd].
    unfold bind at 1. unfold Parser.current_type at 1.
    unfold bind at 1. unfold Parser.the_token at 1. rewrite Hcur.
    unfold ret at 1. unfold multiplicative in Hop.
    destruct (Token.type op) eqn:E; try discriminate Hop;
      unfold bind at 1; unfold Parser.the_token at 1; rewrite Hcur;
      unfold bind at 1; rewrite Heat;
      unfold bind at 1; rewrite Hfactor; exact IH.
Qed.

Lemma product_length (pr : product) :
  List.length (product_tokens pr) = 1 + 2 * List.length (snd pr).
Proof.
  destruct pr as [n l]. unfold product_tokens. cbn [fst snd List.length].
  f_equal. induction l as [|f l IH]; cbn [flat_map app List.length]; lia.
Qed.

(** A term is a product: its operators associate to the left. *)
Lemma term_reads k stop fuel pr p p' :
  product_ok pr = true ->
  reads k p (product_tokens pr) p' ->
  Parser.current_token p' = Some stop ->
  multiplicative (Token.type stop) = false ->
  k + 3 + List.length (snd pr) <= fuel ->
  Parser.term fuel p = Return (product_node pr) p'.
Proof.
  destruct pr as [n l]. unfold product_ok, product_tokens, product_node.
  cbn [fst snd]. intros Hok H Hstop Hnot Hfuel.
  apply andb_true_iff in Hok. destruct Hok as [Hn Hl].
  destruct fuel as [|fuel]; [lia|].
  destruct (factor_operand k fuel _ _ _ _ H Hn) as (p1 & Hfactor & H1); [lia|].
  cbn [Parser.term]. unfold bind. rewrite Hfactor.
  apply term_loop_reads with (k := k) (stop := stop); auto. lia.
Qed.

Lemma additive_not_multiplicative ty :
  additive ty = true -> multiplicative ty = false.
Proof. now destruct ty. Qed.

Lemma expr_loop_reads k stop : forall l fuel node p p',
  forallb (fun t => additive (Token.type (fst t)) && product_ok (snd t)) l
  = true ->
  reads k p (flat_map (fun t => fst t :: product_tokens (snd t)) l) p' ->
  Parser.current_token p' = Some stop ->
  multiplicative (Token.type stop) = false ->
  additive (Token.type stop) = false ->
  k + 4
  + List.length (flat_map (fun t => fst t :: product_tokens (snd t)) l)
  <= fuel ->
  Parser.expr_loop fuel node p
  = Return
      (fold_left (fun node t => BinOp node (fst t) (product_node (snd t)))
         l node) p'.
Proof.
  induction l as [|[op pr] l IH];
    intros fuel node p p' Hok H Hstop Hmul Hadd Hfuel;
    (destruct fuel as [|fuel]; [lia|]).
  - cbn [flat_map reads] in H. subst p'. cbn [Parser.expr_loop fold_left].
    unfold Parser.current_type, bind, Parser.the_token. rewrite Hstop.
    unfold ret. unfold additive in Hadd.
    destruct (Token.type stop); try discriminate Hadd; reflexivity.
  - cbn [flat_map fst snd] in H, Hfuel. cbn [forallb fst snd] in Hok.
    apply andb_true_iff in Hok. destruct Hok as [Hok Hl].
    apply andb_true_iff in Hok. destruct Hok as [Hop Hpr].
    rewrite <- app_comm_cons in H, Hfuel.
    cbn [List.length] in Hfuel. rewrite length_app, product_length in Hfuel.
    pose proof (proj1 H) as Hcur.
    destruct (eat_reads k fuel _ _ _ _ H) as (p1 & Heat & H1); [lia|].
    apply reads_app in H1. destruct H1 as (p2 & H1 & H2).
    pose proof (reads_current _ _ _ _ _ H2 Hstop) as Hnext.
    assert (Hterm : Parser.term fuel p1 = Return (product_node pr) p2).
    { apply term_reads with (k := k) (stop := hd stop
        (flat_map (fun t => fst t :: product_tokens (snd t)) l)); auto; [|lia].
      destruct l as [|[op' pr'] l']; [exact Hmul|].
      cbn [flat_map hd fst]. cbn [forallb fst] in Hl.
      apply andb_true_iff in Hl. destruct Hl as [Hl _].
      apply andb_true_iff in Hl. destruct Hl as [Hl _].
      now apply additive_not_multiplicative. }
    specialize (IH fuel (BinOp node op (product_node pr)) p2 p' Hl H2 Hstop
                  Hmul Hadd ltac:(lia)).
    cbn [Parser.expr_loop fold_left fst snd].
    unfold bind at 1. unfold Parser.current_type at 1.
    unfold bind at 1. unfold Parser.the_token at 1. rewrite Hcur.
    unfold ret at 1. unfold additive in Hop.
    destruct (Token.type op) eqn:E; try discriminate Hop;
      unfold bind at 1; unfold Parser.the_token at 1; rewrite Hcur;
      unfold bind at 1; rewrite Heat;
      unfold bind at 1; rewrite Hterm; exact IH.
Qed.

(** Precedence and associativity.  When the tokens ahead of the parser
    are operands (numbers, strings, names) separated by binary
    operators, and the token after them is no arithmetic operator,
    [expr] eats exactly these tokens and returns the tree in which the
    multiplicative operators [*], [DIV] and [/] bind tighter than [+]
    and [-], and in which operators of the same level associate to the
    left. *)
Theorem expression_precedence k fuel (s : sum_of_products) p p' stop :
  sum_ok s = true ->
  reads k p (sum_tokens s) p' ->
  Parser.current_token p' = Some stop ->
  multiplicative (Token.type stop) = false ->
  additive (Token.type stop) = false ->
  k + 5 + List.length (sum_tokens s) <= fuel ->
  Parser.expr fuel p = Return (sum_node s) p'.
Proof.
  destruct s as [pr l]. unfold sum_ok, sum_tokens, sum_node. cbn [fst snd].
  intros Hok H Hstop Hmul Hadd Hfuel.
  apply andb_true_iff in Hok. destruct Hok as [Hpr Hl].
  rewrite length_app, product_length in Hfuel.
  destruct fuel as [|fuel]; [lia|].
  apply reads_app in H. destruct H as (p1 & H1 & H2).
  pose proof (reads_current _ _ _ _ _ H2 Hstop) as Hnext.
  cbn [Parser.expr]. unfold bind.
  rewrite (term_reads k _ fuel pr p p1 Hpr H1 Hnext); [| |lia].
  - apply expr_loop_reads with (k := k) (stop := stop); auto. lia.
  - destruct l as [|[op' pr'] l']; [exact Hmul|].
    cbn [flat_map hd fst]. cbn [forallb fst] in Hl.
    apply andb_true_iff in Hl. destruct Hl as [Hl _].
    apply andb_true_iff in Hl. destruct Hl as [Hl _].
    now apply additive_not_multiplicative.
Qed.

Lemma expression_precedence_witness :
  let token ty v c := Token.mk ty v (Some 1) (Some c) in
  let one := token TokenType.INTEGER_CONST (VInt 1) 1 in
  let plus := token TokenType.PLUS (VStr "+") 2 in
  let two := token TokenType.INTEGER_CONST (VInt 2) 3 in
  let times := token TokenType.MUL (VStr "*") 4 in
  let x := token TokenType.ID (VStr "x") 5 in
  let lx := Lexer.mk 0 "1+2*x;" 0 (Some "1"%char) 1 1 in
  exists p',
    Parser.expr 20 (final_state (Parser.__init__ 10 lx))
    = Return (BinOp (Num one) plus (BinOp (Num two) times (Var x))) p'.
Proof.
  intros token one plus two times x lx.
  set (p0 := final_state (Parser.__init__ 10 lx)).
  set (p1 := final_state (Parser.eat 10 TokenType.INTEGER_CONST p0)).
  set (p2 := final_state (Parser.eat 10 TokenType.PLUS p1)).
  set (p3 := final_state (Parser.eat 10 TokenType.INTEGER_CONST p2)).
  set (p4 := final_state (Parser.eat 10 TokenType.MUL p3)).
  set (p5 := final_state (Parser.eat 10 TokenType.ID p4)).
  exists p5.
  apply (expression_precedence 3 20
           ((one, []), [(plus, (two, [(times, x)]))]) p0 p5
           (token TokenType.SEMI (VStr ";") 6)).
  - reflexivity.
  - cbn [reads sum_tokens product_tokens flat_map app fst snd].
    split; [reflexivity|]. exists p1.
    split; [intros [|[|[|f]]] Hf; [exfalso; lia..|]; vm_compute; reflexivity|].
    split; [reflexivity|]. exists p2.
    split; [intros [|[|[|f]]] Hf; [exfalso; lia..|]; vm_compute; reflexivity|].
    split; [reflexivity|]. exists p3.
    split; [intros [|[|[|f]]] Hf; [exfalso; lia..|]; vm_compute; reflexivity|].
    split; [reflexivity|]. exists p4.
    split; [intros [|[|[|f]]] Hf; [exfalso; lia..|]; vm_compute; reflexivity|].
    split; [reflexivity|]. exists p5.
    split; [intros [|[|[|f]]] Hf; [exfalso; lia..|]; vm_compute; reflexivity|].
    reflexivity.
  - reflexivity.
  - reflexivity.
  - reflexivity.
  - cbn. lia.
Defined.

(* ------------------------------------------------------------------ *)
(** * The parser: syntax errors that are not reported *)

Lemma eat_reads_type k fuel p tok rest p' ty :
  reads k p (tok :: rest) p' ->
  Token.type tok = ty ->
  k <= fuel ->
  exists p1, Parser.eat fuel ty p = Return tt p1 /\ reads k p1 rest p'.
Proof. intros H <- Hfuel. now apply eat_reads. Qed.

Lemma type_is_false p tok ty :
  Parser.current_token p = Some tok ->
  Token.type tok <> ty ->
  Parser.type_is ty p = Return false p.
Proof.
  intros Hcur Hty.
  unfold Parser.type_is, Parser.current_type, bind, Parser.the_token, ret.
  now rewrite Hcur, TokenType_eqb_neq.
Qed.

Lemma relation_without_operator fuel p left_ p' tok :
  Parser.expr fuel p = Return left_ p' ->
  Parser.current_token p' = Some tok ->
  relational (Token.type tok) = false ->
  Parser.relation_statement fuel p
  = Raised (PyException "no match in relation_statement") p'.
Proof.
  intros Hexpr Hcur Hrel. unfold Parser.relation_statement.
  unfold bind at 1. rewrite Hexpr.
  unfold bind at 1. unfold Parser.the_token at 1. rewrite Hcur.
  unfold relational in Hrel.
  destruct (Token.type tok); try discriminate Hrel; reflexivity.
Qed.

Lemma write_without_string k fuel p op lparen p' tok :
  reads k p [op; lparen] p' ->
  Token.type op = TokenType.WRITE \/ Token.type op = TokenType.WRITELN ->
  Token.type lparen = TokenType.LPAREN ->
  Parser.current_token p' = Some tok ->
  Token.type tok <> TokenType.STRING_CONST ->
  k <= fuel ->
  Parser.io_statement fuel p = Raised (AttributeError "value") p'.
Proof.
  intros H Hop Hlparen Hcur Hnot Hfuel.
  pose proof (proj1 H) as Hcur0.
  destruct (eat_reads k fuel _ _ _ _ H Hfuel) as (p1 & Heat1 & H1).
  destruct (eat_reads_type k fuel _ _ _ _ _ H1 Hlparen Hfuel)
    as (p2 & Heat2 & H2).
  cbn [reads] in H2. subst p2.
  unfold Parser.io_statement. unfold bind at 1.
  unfold Parser.current_type at 1. unfold bind at 1.
  unfold Parser.the_token at 1. rewrite Hcur0. unfold ret at 1.
  destruct Hop as [E|E]; rewrite E in *;
    unfold bind at 1; rewrite Heat1;
    unfold bind at 1; rewrite Heat2;
    unfold bind at 1; unfold Parser.get_write_parameter;
    unfold bind at 1; rewrite (type_is_false _ _ _ Hcur Hnot);
    reflexivity.
Qed.

Lemma array_of_other_type k fuel p t1 t2 t3 t4 t5 t6 t7 t8 p' tok :
  reads k p [t1; t2; t3; t4; t5; t6; t7; t8] p' ->
  map Token.type [t1; t2; t3; t4; t5; t6; t7; t8]
  = [TokenType.ARRAY; TokenType.LBRACK; TokenType.INTEGER_CONST;
     TokenType.DOT; TokenType.DOT; TokenType.INTEGER_CONST;
     TokenType.RBRACK; TokenType.OF] ->
  Parser.current_token p' = Some tok ->
  Token.type tok <> TokenType.INTEGER ->
  k <= fuel ->
  Parser.type_spec fuel p = Raised (UnboundLocalError "type") p'.
Proof.
  intros H Hty Hcur Hnot Hfuel. cbn [map] in Hty.
  injection Hty as E1 E2 E3 E4 E5 E6 E7 E8.
  pose proof (proj1 H) as Hcur0.
  destruct (eat_reads_type k fuel _ _ _ _ _ H E1 Hfuel) as (p1 & Heat1 & H1).
  destruct (eat_reads_type k fuel _ _ _ _ _ H1 E2 Hfuel) as (p2 & Heat2 & H2).
  pose proof (proj1 H2) as Hcur2.
  destruct (eat_reads_type k fuel _ _ _ _ _ H2 E3 Hfuel) as (p3 & Heat3 & H3).
  destruct (eat_reads_type k fuel _ _ _ _ _ H3 E4 Hfuel) as (p4 & Heat4 & H4).
  destruct (eat_reads_type k fuel _ _ _ _ _ H4 E5 Hfuel) as (p5 & Heat5 & H5).
  pose proof (proj1 H5) as Hcur5.
  destruct (eat_reads_type k fuel _ _ _ _ _ H5 E6 Hfuel) as (p6 & Heat6 & H6).
  destruct (eat_reads_type k fuel _ _ _ _ _ H6 E7 Hfuel) as (p7 & Heat7 & H7).
  destruct (eat_reads_type k fuel _ _ _ _ _ H7 E8 Hfuel) as (p8 & Heat8 & H8).
  cbn [reads] in H8. subst p8.
  unfold Parser.type_spec. unfold bind at 1.
  unfold Parser.the_token at 1. rewrite Hcur0, E1.
  unfold bind at 1. rewrite Heat1.
  unfold bind at 1. rewrite Heat2.
  unfold bind at 1. unfold Parser.the_token at 1. rewrite Hcur2.
  unfold bind at 1. rewrite Heat3.
  unfold bind at 1. rewrite Heat4.
  unfold bind at 1. rewrite Heat5.
  unfold bind at 1. unfold Parser.the_token at 1. rewrite Hcur5.
  unfold bind at 1. rewrite Heat6.
  unfold bind at 1. rewrite Heat7.
  unfold bind at 1. rewrite Heat8.
  unfold bind at 1. rewrite (type_is_false _ _ _ Hcur Hnot).
  reflexivity.
Qed.

(** Syntax errors that are not reported as such.  The parser raises its
    own error only when [eat] meets the wrong token.  A condition
    without a relational operator raises a plain exception; WRITE or
    WRITELN with anything but a string literal after the parenthesis
    fails on the missing attribute of the empty list; an array whose
    elements are not INTEGER fails on the local variable that was never
    assigned.  Since [main] catches only lexer and parser errors around
    the parser, every other exception of the parser ends the run
    uncaught, while the caught ones end it with exit status 1. *)
Theorem unreported_syntax_errors :
  (forall fuel p left_ p' tok,
     Parser.expr fuel p = Return left_ p' ->
     Parser.current_token p' = Some tok ->
     relational (Token.type tok) = false ->
     Parser.relation_statement fuel p
     = Raised (PyException "no match in relation_statement") p')
  /\ (forall k fuel p op lparen p' tok,
        reads k p [op; lparen] p' ->
        Token.type op = TokenType.WRITE \/ Token.type op = TokenType.WRITELN ->
        Token.type lparen = TokenType.LPAREN ->
        Parser.current_token p' = Some tok ->
        Token.type tok <> TokenType.STRING_CONST ->
        k <= fuel ->
        Parser.io_statement fuel p = Raised (AttributeError "value") p')
  /\ (forall k fuel p t1 t2 t3 t4 t5 t6 t7 t8 p' tok,
        reads k p [t1; t2; t3; t4; t5; t6; t7; t8] p' ->
        map Token.type [t1; t2; t3; t4; t5; t6; t7; t8]
        = [TokenType.ARRAY; TokenType.LBRACK; TokenType.INTEGER_CONST;
           TokenType.DOT; TokenType.DOT; TokenType.INTEGER_CONST;
           TokenType.RBRACK; TokenType.OF] ->
        Parser.current_token p' = Some tok ->
        Token.type tok <> TokenType.INTEGER ->
        k <= fuel ->
        Parser.type_spec fuel p = Raised (UnboundLocalError "type") p')
  /\ (forall fuel flag text e p,
        Main.parse fuel text = Raised e p ->
        Main.main fuel flag text
        = if caught_by_main e then Main.Exit1 e else Main.Uncaught e)
  /\ Main.main 50 false "PROGRAM p; BEGIN IF x THEN x := 1 END."
     = Main.Uncaught (PyException "no match in relation_statement")
  /\ Main.main 50 false "PROGRAM p; BEGIN WRITELN(x) END."
     = Main.Uncaught (AttributeError "value")
  /\ Main.main 50 false "PROGRAM p; VAR a: ARRAY [1..5] OF REAL; BEGIN END."
     = Main.Uncaught (UnboundLocalError "type").
Proof.
  split; [exact relation_without_operator|].
  split; [exact write_without_string|].
  split; [exact array_of_other_type|].
  split.
  { intros fuel flag text e p H. unfold Main.main. rewrite H.
    now destruct e. }
  repeat split; vm_compute; reflexivity.
Qed.

(* ------------------------------------------------------------------ *)
(** * The table of reserved words *)

Lemma RESERVED_KEYWORDS_members t :
  In t (map snd RESERVED_KEYWORDS) ->
  RESERVED_KEYWORDS_get RESERVED_KEYWORDS (TokenType.value t) = Some t.
Proof.
  cbn [RESERVED_KEYWORDS map snd In]. intros H.
  repeat (destruct H as [<-|H]; [vm_compute; reflexivity|]).
  destruct H.
Qed.

Lemma index_block t i :
  index t TokenType.members = Ok i ->
  19 <= i <= 43 ->
  In t (map snd RESERVED_KEYWORDS).
Proof.
  destruct t; vm_compute; intros [= <-] [H1 H2];
    try (exfalso; lia); tauto.
Qed.

(** The reserved words are the values of the enumeration members from
    PROGRAM to END, in the order of the enumeration, and no others: the
    table that the lexer consults is the one that the code builds.  A
    word is in the table exactly when it is the value of a member that
    stands between PROGRAM and END; no two of these members share a
    value, and every key is its own upper-case form, which is what the
    lexer looks up. *)
Theorem reserved_words_are_the_block_of_members :
  _build_reserved_keywords = Ok RESERVED_KEYWORDS
  /\ NoDup (map fst RESERVED_KEYWORDS)
  /\ (forall k t,
        RESERVED_KEYWORDS_get RESERVED_KEYWORDS k = Some t
        <-> TokenType.value t = k
            /\ exists i first last,
                 index t TokenType.members = Ok i
                 /\ index TokenType.PROGRAM TokenType.members = Ok first
                 /\ index TokenType.END TokenType.members = Ok last
                 /\ first <= i <= last)
  /\ (forall k t,
        RESERVED_KEYWORDS_get RESERVED_KEYWORDS k = Some t ->
        Py.upper k = k).
Proof.
  split; [vm_compute; reflexivity|].
  split.
  { cbn [RESERVED_KEYWORDS map fst TokenType.value].
    repeat (constructor;
            [cbn [In]; intros H;
             repeat (destruct H as [H|H]; [discriminate H|]); exact H|]).
    constructor. }
  split.
  - intros k t. split.
    + intros H. apply RESERVED_KEYWORDS_get_In in H.
      cbn [RESERVED_KEYWORDS map In] in H.
      repeat (destruct H as [[= <- <-]|H];
              [split; [reflexivity|];
               eexists _, 19, 43; vm_compute;
               repeat split; repeat constructor|]).
      destruct H.
    + intros (<- & i & first & last & Hi & Hfirst & Hlast & Hle).
      vm_compute in Hfirst, Hlast.
      injection Hfirst as <-. injection Hlast as <-.
      apply RESERVED_KEYWORDS_members. now apply (index_block t i).
  - intros k t H. apply RESERVED_KEYWORDS_get_In in H.
    cbn [RESERVED_KEYWORDS map In] in H.
    repeat (destruct H as [[= <- <-]|H]; [vm_compute; reflexivity|]).
    destruct H.
Qed.
